(** * Job-shop MILP formulations: a shallow embedding of the four scripts

    The repository holds four Python scripts (stage 1 .. stage 4) that build
    a mixed-integer linear program with gurobipy, hand it to the solver and
    print the result.  Each script is embedded as

    - a [build] computation that issues, in source order, the [addVar],
      [addConstr] and [setObjective] calls of the script on the one shared
      [model] object (a writer of commands that can stop on a Python
      exception), and
    - a [report] computation that issues the prints of the script and the
      reads of solved values ([.X], [objVal]).

    Numbers (Python ints and floats) are exact rationals.  A Python [dict]
    is an association list in insertion order; [for i in jobs] followed by
    [jobs[i]] walks its pairs. *)

From Stdlib Require Import String DecimalString List FinFun Sorted Arith ZArith QArith Lia Lqa Bool.
Import ListNotations.

Set Implicit Arguments.

(** ** Python exceptions and the script monad *)

(** [KeyError], [IndexError] and [AttributeError] are what the scripts can
    raise; [MalformedRoute] and [InconsistentSolution] are the two error
    kinds of the design document. *)
Inductive exn : Type :=
| KeyError
| IndexError
| AttributeError
| MalformedRoute
| InconsistentSolution.

(** A script fragment: the calls it made on the outside world, and either
    the exception that stopped it or its value. *)
Definition script (W A : Type) : Type := (list W * (exn + A))%type.

Definition ret {W A} (a : A) : script W A := ([], inr a).

Definition raise {W A} (e : exn) : script W A := ([], inl e).

Definition emit {W} (w : W) : script W unit := ([w], inr tt).

Definition bind {W A B} (m : script W A) (f : A -> script W B) : script W B :=
  match m with
  | (w, inl e) => (w, inl e)
  | (w, inr a) => let '(w', r) := f a in (w ++ w', r)
  end.

Notation "x <- m ;; k" := (bind m (fun x => k))
  (at level 61, m at next level, right associativity).
Notation "m ;; k" := (bind m (fun _ => k))
  (at level 61, right associativity).

(** [for x in l: body]. *)
Fixpoint for_ {W A} (l : list A) (body : A -> script W unit) : script W unit :=
  match l with
  | [] => ret tt
  | x :: l' => body x ;; for_ l' body
  end.

(** [if c: body]. *)
Definition when {W} (c : bool) (body : script W unit) : script W unit :=
  if c then body else ret tt.

(** A loop that appends to a list: the list it has built at the end. *)
Fixpoint gather {W A B} (l : list A) (body : A -> script W (list B))
  : script W (list B) :=
  match l with
  | [] => ret []
  | x :: l' => here <- body x ;; rest <- gather l' body ;; ret (here ++ rest)
  end.

Definition calls {W A} (m : script W A) : list W := fst m.
Definition outcome {W A} (m : script W A) : exn + A := snd m.

(** ** Python list helpers *)

(** [range(a, b)] and [range(n)]. *)
Definition range2 (a b : nat) : list nat := seq a (b - a).
Definition range (n : nat) : list nat := range2 0 n.

(** [enumerate(l)]. *)
Definition enumerate {A} (l : list A) : list (nat * A) :=
  combine (seq 0 (length l)) l.

(** [sum(...)] over rationals and over naturals. *)
Definition qsum (l : list Q) : Q := fold_right Qplus 0 l.
Definition nsum (l : list nat) : nat := fold_right Nat.add 0%nat l.

(** A Python int used as a number in a linear expression. *)
Definition Qn (n : nat) : Q := inject_Z (Z.of_nat n).

(** [x > y] on solved values. *)
Definition Qgtb (x y : Q) : bool := negb (Qle_bool x y).

(** [str(n)], as an f-string prints an int. *)
Definition str (n : nat) : string := NilEmpty.string_of_uint (Nat.to_uint n).

(** [sorted({...})] on machine ids: ascending, without repetition. *)
Fixpoint insert_sorted (m : nat) (l : list nat) : list nat :=
  match l with
  | [] => [m]
  | x :: l' =>
      if Nat.ltb m x then m :: l
      else if Nat.eqb m x then l
      else x :: insert_sorted m l'
  end.

Definition sorted_set (l : list nat) : list nat :=
  fold_right insert_sorted [] l.

(** ** Linear expressions, constraints and the model object *)

Inductive sense : Type := GE | LE | EQ.

Inductive vtype : Type := CONTINUOUS | BINARY.

Section Milp.

Variable V : Type.

(** A gurobipy linear expression, kept as it is written in the source. *)
Inductive expr : Type :=
| Var (v : V)
| Const (q : Q)
| Add (a b : expr)
| Sub (a b : expr)
| Scale (q : Q) (e : expr).

(** [gp.quicksum(...)]. *)
Definition quicksum (l : list expr) : expr := fold_right Add (Const 0) l.

(** [lhs >= rhs], [lhs <= rhs], [lhs == rhs]. *)
Record constr : Type := Constr { lhs : expr; rel : sense; rhs : expr }.

(** The calls a script makes on [model]. A constraint carries the
    [name=] argument where the script gives one. *)
Inductive cmd : Type :=
| AddVar (v : V) (vt : vtype) (lb : Q)
| AddConstr (name : option string) (c : constr)
| SetObjective (e : expr).

Definition addVar (v : V) (vt : vtype) (lb : Q) : script cmd unit :=
  emit (AddVar v vt lb).
Definition addConstr (c : constr) : script cmd unit :=
  emit (AddConstr None c).
Definition addConstrNamed (name : string) (c : constr) : script cmd unit :=
  emit (AddConstr (Some name) c).
Definition setObjective (e : expr) : script cmd unit :=
  emit (SetObjective e).

(** *** Meaning of a model: its feasible region *)

Definition valuation : Type := V -> Q.

Fixpoint eval (rho : valuation) (e : expr) : Q :=
  match e with
  | Var v => rho v
  | Const q => q
  | Add a b => eval rho a + eval rho b
  | Sub a b => eval rho a - eval rho b
  | Scale q a => q * eval rho a
  end.

Definition sat (rho : valuation) (c : constr) : Prop :=
  match rel c with
  | GE => eval rho (rhs c) <= eval rho (lhs c)
  | LE => eval rho (lhs c) <= eval rho (rhs c)
  | EQ => eval rho (lhs c) == eval rho (rhs c)
  end.

Definition satb (rho : valuation) (c : constr) : bool :=
  match rel c with
  | GE => Qle_bool (eval rho (rhs c)) (eval rho (lhs c))
  | LE => Qle_bool (eval rho (lhs c)) (eval rho (rhs c))
  | EQ => Qeq_bool (eval rho (lhs c)) (eval rho (rhs c))
  end.

(** What one call demands of a solution: a continuous variable stays at or
    above its lower bound, a binary one is 0 or 1, a constraint holds. *)
Definition respects (rho : valuation) (c : cmd) : Prop :=
  match c with
  | AddVar v CONTINUOUS lb => lb <= rho v
  | AddVar v BINARY _ => rho v == 0 \/ rho v == 1
  | AddConstr _ k => sat rho k
  | SetObjective _ => True
  end.

Definition respectsb (rho : valuation) (c : cmd) : bool :=
  match c with
  | AddVar v CONTINUOUS lb => Qle_bool lb (rho v)
  | AddVar v BINARY _ => Qeq_bool (rho v) 0 || Qeq_bool (rho v) 1
  | AddConstr _ k => satb rho k
  | SetObjective _ => true
  end.

Definition feasible (rho : valuation) (m : list cmd) : Prop :=
  Forall (respects rho) m.

Definition feasibleb (rho : valuation) (m : list cmd) : bool :=
  forallb (respectsb rho) m.

(** The objective in force: the last [setObjective]. *)
Fixpoint objective (m : list cmd) : option expr :=
  match m with
  | [] => None
  | SetObjective e :: m' =>
      match objective m' with Some e' => Some e' | None => Some e end
  | _ :: m' => objective m'
  end.

(** [v] is the least objective value over the feasible region of [m]. *)
Definition minimum (m : list cmd) (v : Q) : Prop :=
  exists obj, objective m = Some obj /\
    (exists rho, feasible rho m /\ eval rho obj == v) /\
    (forall rho, feasible rho m -> v <= eval rho obj).

End Milp.

Arguments Const {V} q.
Arguments SetObjective {V} e.

(** ** Problem data *)

(** An operation is [(machine, processing_time)]; a route is a job's list
    of operations; the job dictionary maps a job id to its route. *)
Definition operation : Type := (nat * Q)%type.
Definition route : Type := list operation.
Definition jobdict : Type := list (nat * route).

(** [sum(len(ops) for ops in routes.values())]. *)
Definition count_ops (routes : jobdict) : nat :=
  nsum (map (fun jr => length (snd jr)) routes).

(** [sum(p for ops in routes.values() for (_, p) in ops)]. *)
Definition sum_durations (routes : jobdict) : Q :=
  qsum (flat_map (fun jr => map snd (snd jr)) routes).

(** [routes[i]] for a job id of the dictionary. *)
Definition route_of (routes : jobdict) (i : nat) : route :=
  match find (fun jr => Nat.eqb (fst jr) i) routes with
  | Some jr => snd jr
  | None => []
  end.

(** [routes[i][t]] for an operation index within the route. *)
Definition op_at (routes : jobdict) (i t : nat) : operation :=
  nth t (route_of routes i) (0%nat, 0).

(** [[(i, t) for i in jobs for t in range(len(routes[i]))]]. *)
Definition all_ops (routes : jobdict) : list (nat * nat) :=
  flat_map (fun '(i, r) => map (fun t => (i, t)) (range (length r))) routes.

(** [sorted({m for ops in routes.values() for (m, _) in ops})]. *)
Definition machines_of (routes : jobdict) : list nat :=
  sorted_set (flat_map (fun jr => map fst (snd jr)) routes).

(** ** The solver's answer *)

(** Modelled from the spec: the status values of the external solver
    ([GRB.OPTIMAL] and its siblings are gurobipy constants, not part of the
    sources); section 6 lists Optimal, Infeasible, Unbounded, Suboptimal and
    Error. *)
Inductive Status : Type :=
| OPTIMAL
| INFEASIBLE
| UNBOUNDED
| SUBOPTIMAL
| ERROR.

Definition Status_eqb (a b : Status) : bool :=
  match a, b with
  | OPTIMAL, OPTIMAL | INFEASIBLE, INFEASIBLE | UNBOUNDED, UNBOUNDED
  | SUBOPTIMAL, SUBOPTIMAL | ERROR, ERROR => true
  | _, _ => false
  end.

Section Report.

Variable V : Type.

(** What [model.optimize()] leaves behind: the status, and the values the
    solver holds ([None] where gurobipy has no value to give, in which
    case reading the attribute raises [AttributeError]). *)
Record solved : Type :=
  Solved { status : Status; X : V -> option Q; objVal : option Q }.

(** What the result section of a script does: it reads attributes of the
    solved model and prints. A printed line is its format string and the
    values interpolated into it, in order. *)
Inductive out : Type :=
| ReadX (v : V)
| ReadObjVal
| ReadStatus
| Print (fmt : string) (args : list Q)
| PrintStatus (fmt : string) (s : Status).

Definition print (fmt : string) (args : list Q) : script out unit :=
  emit (Print fmt args).

Definition printStatus (fmt : string) (s : Status) : script out unit :=
  emit (PrintStatus fmt s).

Definition getX (r : solved) (v : V) : script out Q :=
  emit (ReadX v) ;;
  match X r v with
  | Some q => ret q
  | None => raise AttributeError
  end.

Definition getObjVal (r : solved) : script out Q :=
  emit ReadObjVal ;;
  match objVal r with
  | Some q => ret q
  | None => raise AttributeError
  end.

Definition getStatus (r : solved) : script out Status :=
  emit ReadStatus ;; ret (status r).

(** The lines printed, and whether a solved value was read. *)
Fixpoint printed (o : list out) : list (string * list Q) :=
  match o with
  | [] => []
  | Print f a :: o' => (f, a) :: printed o'
  | _ :: o' => printed o'
  end.

(** The status codes printed. *)
Fixpoint reported (o : list out) : list Status :=
  match o with
  | [] => []
  | PrintStatus _ s :: o' => s :: reported o'
  | _ :: o' => reported o'
  end.

Definition is_value_read (e : out) : bool :=
  match e with
  | ReadX _ | ReadObjVal => true
  | _ => false
  end.

Definition reads_values (o : list out) : bool := existsb is_value_read o.

End Report.

Arguments ReadObjVal {V}.
Arguments ReadStatus {V}.
Arguments Print {V} fmt args.
Arguments PrintStatus {V} fmt s.
Arguments print {V} fmt args.
Arguments printStatus {V} fmt s.

Local Open Scope string_scope.

(** ** Stage 1: pairwise disjunctive ordering (Strategy A) *)

Module Stage1.

Inductive var : Type :=
| S (i k : nat)
| C (i k : nat)
| Cmax
| X (i k j l : nat).

Section Build.

Variable jobs : jobdict.
Variable machines : list nat.
Variable bigM : Q.

Definition declare_vars : script (cmd var) unit :=
  for_ jobs (fun '(i, r) =>
    for_ (enumerate r) (fun '(k, (m, p)) =>
      addVar (S i k) CONTINUOUS 0 ;;
      addVar (C i k) CONTINUOUS 0)) ;;
  addVar Cmax CONTINUOUS 0.

(** 1. Completion time definition. *)
Definition completion : script (cmd var) unit :=
  for_ jobs (fun '(i, r) =>
    for_ (enumerate r) (fun '(k, (m, p)) =>
      addConstr (Constr (Var (C i k)) EQ (Add (Var (S i k)) (Const p))))).

(** 2. Job operation order. *)
Definition job_order : script (cmd var) unit :=
  for_ jobs (fun '(i, r) =>
    for_ (range (length r - 1)) (fun k =>
      addConstr (Constr (Var (S i (k + 1))) GE (Var (C i k))))).

(** [[(i, k) for i in jobs for k, (mm, _) in enumerate(jobs[i]) if mm == m]]. *)
Definition ops_on (m : nat) : list (nat * nat) :=
  flat_map (fun '(i, r) =>
    flat_map (fun '(k, (mm, _)) => if Nat.eqb mm m then [(i, k)] else [])
             (enumerate r)) jobs.

(** The body of the two inner loops for the positions [a < b] of [ops]. *)
Definition disjunction (ops : list (nat * nat)) (a b : nat)
  : script (cmd var) unit :=
  let '(i, k) := nth a ops (0, 0)%nat in
  let '(j, l) := nth b ops (0, 0)%nat in
  let x := X i k j l in
  addVar x BINARY 0 ;;
  addConstr (Constr (Var (S i k)) GE
               (Sub (Var (C j l)) (Scale bigM (Sub (Const 1) (Var x))))) ;;
  addConstr (Constr (Var (S j l)) GE
               (Sub (Var (C i k)) (Scale bigM (Var x)))).

(** 3. Machine non-overlap, for one machine. *)
Definition non_overlap_on (m : nat) : script (cmd var) unit :=
  let ops := ops_on m in
  for_ (range (length ops)) (fun a =>
    for_ (range2 (a + 1) (length ops)) (fun b =>
      disjunction ops a b)).

Definition non_overlap : script (cmd var) unit :=
  for_ machines non_overlap_on.

(** 4. Makespan definition. [last_op] is [-1] for an empty route, and
    [C[i, -1]] is not a key of [C]. *)
Definition makespan : script (cmd var) unit :=
  for_ jobs (fun '(i, r) =>
    match r with
    | [] => raise KeyError
    | _ :: _ =>
        let last_op := (length r - 1)%nat in
        addConstr (Constr (Var Cmax) GE (Var (C i last_op)))
    end).

Definition build : script (cmd var) unit :=
  declare_vars ;;
  completion ;;
  job_order ;;
  non_overlap ;;
  makespan ;;
  setObjective (Var Cmax).

End Build.

(** Print Results. *)
Definition report (jobs : jobdict) (r : solved var) : script (out var) unit :=
  print "\nOptimal Schedule:" [] ;;
  for_ jobs (fun '(i, rt) =>
    for_ (range (length rt)) (fun k =>
      s <- getX r (S i k) ;;
      c <- getX r (C i k) ;;
      print "Job {i} Operation {k}: Start = {S[i, k].X}, End = {C[i, k].X}"
            [Qn i; Qn k; s; c])) ;;
  cmax <- getX r Cmax ;;
  print "\nOptimal Makespan = {Cmax.X}" [cmax].

(** The data of the script. *)
Definition jobs : jobdict :=
  [ (1%nat, [(1%nat, 3); (2%nat, 2)]) ;
    (2%nat, [(2%nat, 2); (1%nat, 1)]) ].
Definition machines : list nat := [1; 2]%nat.
Definition bigM : Q := 1000.

Definition model : list (cmd var) := calls (build jobs machines bigM).

End Stage1.

(** ** Stage 2: single-stage assignment (Strategy B) *)

Module Stage2.

Inductive var : Type :=
| x (j k t : nat)
| S (j k : nat)
| Cmax.

Section Build.

Variable jobs : jobdict.
Variable machines : list nat.
Variable num_stages : nat.

Definition declare_vars : script (cmd var) unit :=
  for_ jobs (fun '(j, r) =>
    for_ (range (length r)) (fun k =>
      for_ (range num_stages) (fun t =>
        addVar (x j k t) BINARY 0))) ;;
  for_ jobs (fun '(j, r) =>
    for_ (range (length r)) (fun k =>
      addVar (S j k) CONTINUOUS 0)) ;;
  addVar Cmax CONTINUOUS 0.

(** Ensure each operation is assigned exactly one stage. *)
Definition assign : script (cmd var) unit :=
  for_ jobs (fun '(j, r) =>
    for_ (range (length r)) (fun k =>
      addConstrNamed ("assign_" ++ str j ++ "_" ++ str k)
        (Constr (quicksum (map (fun t => Var (x j k t)) (range num_stages)))
                EQ (Const 1)))).

(** The sequencing inequality of operations [k] and [k + 1] of job [j].
    Both generator expressions bind their own loop variable. *)
Definition seq_constr (j k : nat) : constr var :=
  Constr
    (quicksum (map (fun t_prime => Scale (Qn t_prime) (Var (x j (k + 1) t_prime)))
                   (range num_stages)))
    GE
    (quicksum (map (fun t => Scale (Qn (t + 1)) (Var (x j k t)))
                   (range num_stages))).

(** Enforce sequential operations for each job across stages. The [t]
    of the outer loop is not the [t] of the generator expression. *)
Definition sequencing : script (cmd var) unit :=
  for_ jobs (fun '(j, r) =>
    for_ (range (length r - 1)) (fun k =>
      for_ (range num_stages) (fun t =>
        addConstrNamed ("seq_" ++ str j ++ "_" ++ str k) (seq_constr j k)))).

(** Machine capacity. *)
Definition capacity : script (cmd var) unit :=
  for_ machines (fun m =>
    for_ (range num_stages) (fun t =>
      addConstrNamed ("mach_" ++ str m ++ "_" ++ str t)
        (Constr
           (quicksum
              (flat_map (fun '(j, r) =>
                 flat_map (fun '(k, (machine, _)) =>
                   if Nat.eqb machine m then [Var (x j k t)] else [])
                   (enumerate r)) jobs))
           LE (Const 1)))).

(** Start times from assigned stages and processing times. *)
Definition start_times : script (cmd var) unit :=
  for_ jobs (fun '(j, r) =>
    for_ (enumerate r) (fun '(k, (m, p)) =>
      addConstrNamed ("starttime_" ++ str j ++ "_" ++ str k)
        (Constr (Var (S j k)) EQ
           (quicksum (map (fun t => Scale (Qn t * p) (Var (x j k t)))
                          (range num_stages)))))).

(** Makespan. [jobs[j][-1]] on an empty route is an [IndexError]. *)
Definition makespan : script (cmd var) unit :=
  for_ jobs (fun '(j, r) =>
    let last_op_index := (length r - 1)%nat in
    match r with
    | [] => raise IndexError
    | _ :: _ =>
        let processing_time := snd (nth last_op_index r (0%nat, 0)) in
        addConstrNamed ("makespan_" ++ str j)
          (Constr (Var Cmax) GE
             (Add (Var (S j last_op_index)) (Const processing_time)))
    end).

Definition build : script (cmd var) unit :=
  declare_vars ;;
  assign ;;
  sequencing ;;
  capacity ;;
  start_times ;;
  makespan ;;
  setObjective (Var Cmax).

(** Output results. *)
Definition report (r : solved var) : script (out var) unit :=
  for_ jobs (fun '(j, rt) =>
    for_ (range (length rt)) (fun k =>
      for_ (range num_stages) (fun t =>
        v <- getX r (x j k t) ;;
        when (Qgtb v (1 # 2))
          (print "Job {j} Operation {k} starts at stage {t}, time {t * jobs[j][k][1]}"
                 [Qn j; Qn k; Qn t; Qn t * snd (nth k rt (0%nat, 0))])))) ;;
  cmax <- getX r Cmax ;;
  print "Optimized makespan: {Cmax.X}" [cmax].

End Build.

(** The data of the script. [machines] is the set literal [{1, 2}], walked
    in the order 1, 2; the script's [bigM = 10000] is used nowhere. *)
Definition jobs : jobdict :=
  [ (1%nat, [(1%nat, 3); (2%nat, 2)]) ;
    (2%nat, [(2%nat, 2); (1%nat, 1)]) ;
    (3%nat, [(1%nat, 2); (2%nat, 1)]) ].
Definition machines : list nat := [1; 2]%nat.
Definition num_stages : nat := 10.

Definition model : list (cmd var) := calls (build jobs machines num_stages).

End Stage2.

(** ** Stage 3: stage-indexed machine availability (Strategy C) *)

Module Stage3.

Inductive var : Type :=
| Theta (k m : nat)
| eta (k i t : nat)
| Cmax.

Section Build.

Variable routes : jobdict.

Definition jobs : list nat := map fst routes.
Definition machines : list nat := machines_of routes.
Definition K : nat := count_ops routes.

(** The three assignments that follow the [routes] literal. *)
Definition catalog : script (cmd var) (list nat * list nat * nat) :=
  ret (jobs, machines, K).

Definition ops : list (nat * nat) := all_ops routes.

Definition declare_vars : script (cmd var) unit :=
  for_ (range (K + 1)) (fun k =>
    for_ machines (fun m => addVar (Theta k m) CONTINUOUS 0)) ;;
  for_ (range K) (fun k =>
    for_ ops (fun '(i, t) => addVar (eta k i t) BINARY 0)) ;;
  addVar Cmax CONTINUOUS 0.

(** (1) One operation scheduled per stage. *)
Definition one_per_stage : script (cmd var) unit :=
  for_ (range K) (fun k =>
    addConstr (Constr (quicksum (map (fun '(i, t) => Var (eta k i t)) ops))
                      EQ (Const 1))).

(** (2) Each operation executed exactly once. *)
Definition each_once : script (cmd var) unit :=
  for_ ops (fun '(i, t) =>
    addConstr (Constr (quicksum (map (fun k => Var (eta k i t)) (range K)))
                      EQ (Const 1))).

(** The work credited to machine [m] at stage [k]. *)
Definition load (k m : nat) : expr var :=
  quicksum
    (map (fun '(i, t) => Scale (snd (op_at routes i t)) (Var (eta k i t)))
         (filter (fun '(i, t) => Nat.eqb (fst (op_at routes i t)) m) ops)).

(** (3) Theta recursion: machine availability. *)
Definition recursion : script (cmd var) unit :=
  for_ (range K) (fun k =>
    for_ machines (fun m =>
      addConstr (Constr (Var (Theta (k + 1) m)) GE
                        (Add (Var (Theta k m)) (load k m))))).

(** (4) Makespan. *)
Definition makespan : script (cmd var) unit :=
  for_ ops (fun '(i, t) =>
    let m := fst (op_at routes i t) in
    addConstr (Constr (Var Cmax) GE (Var (Theta K m)))).

(** The precedence inequality of operation [t] of job [i] at stage [k2]. *)
Definition precedence_constr (i t k2 : nat) : constr var :=
  Constr (quicksum (map (fun k1 => Var (eta k1 i (t - 1))) (range (k2 + 1))))
         GE (Var (eta k2 i t)).

(** (5) Precedence constraints. *)
Definition precedence : script (cmd var) unit :=
  for_ routes (fun '(i, r) =>
    for_ (range2 1 (length r)) (fun t =>
      for_ (range K) (fun k2 =>
        addConstr (precedence_constr i t k2)))).

Definition build : script (cmd var) unit :=
  catalog ;;
  declare_vars ;;
  one_per_stage ;;
  each_once ;;
  recursion ;;
  makespan ;;
  precedence ;;
  setObjective (Var Cmax).

(** The schedule display loop. *)
Definition show_schedule (r : solved var) : script (out var) unit :=
  for_ (range K) (fun k =>
    for_ ops (fun '(i, t) =>
      v <- getX r (eta k i t) ;;
      when (Qgtb v (1 # 2))
        (let job_id := i in
         let op_index := t in
         let machine_id := fst (op_at routes job_id op_index) in
         let processing_time := snd (op_at routes job_id op_index) in
         print "Stage {k+1}: Job {job_id}'s operation {op_index+1} on Machine {machine_id} for {processing_time} units"
               [Qn (k + 1); Qn job_id; Qn (op_index + 1); Qn machine_id;
                processing_time]))).

Definition show_theta (r : solved var) : script (out var) unit :=
  for_ (range (K + 1)) (fun k =>
    for_ machines (fun m =>
      v <- getX r (Theta k m) ;;
      when (Qgtb v 0)
        (v' <- getX r (Theta k m) ;;
         print "Theta[{k}, {m}] = {Theta[k, m].X}" [Qn k; Qn m; v']))).

(** Display results. *)
Definition report (r : solved var) : script (out var) unit :=
  st <- getStatus r ;;
  if Status_eqb st OPTIMAL then
    print "\nOptimal solution found:" [] ;;
    obj <- getObjVal r ;;
    print "Makespan (Cmax) = {model.objVal}" [obj] ;;
    print "\nSchedule:" [] ;;
    show_schedule r ;;
    print "\nMachine busy times (Theta):" [] ;;
    show_theta r
  else
    print "\nNo optimal solution found." [] ;;
    st' <- getStatus r ;;
    printStatus "Status code: {model.status}" st'.

End Build.

(** The data of the script. *)
Definition routes : jobdict :=
  [ (1%nat, [(5%nat, 0.65); (3%nat, 0.514); (7%nat, 0.64); (2%nat, 0.202);
             (1%nat, 0.202); (4%nat, 0.24); (6%nat, 0.29)]) ;
    (2%nat, [(3%nat, 0.722); (2%nat, 0.338); (1%nat, 0.242); (8%nat, 0.242);
             (7%nat, 0.2); (4%nat, 0.2); (6%nat, 0.338); (5%nat, 0.578)]) ;
    (3%nat, [(2%nat, 0.089); (6%nat, 0.117); (1%nat, 0.185); (3%nat, 0.485);
             (5%nat, 0.185); (8%nat, 0.369); (4%nat, 0.117); (7%nat, 0.089)]) ;
    (4%nat, [(6%nat, 0.061); (2%nat, 0.061); (5%nat, 0.265); (3%nat, 0.025);
             (1%nat, 0.013); (4%nat, 0.025)]) ;
    (5%nat, [(5%nat, 0.392); (6%nat, 0.128); (2%nat, 0.05); (3%nat, 0.128);
             (1%nat, 0.072); (4%nat, 0.072)]) ;
    (6%nat, [(2%nat, 0.02); (5%nat, 0.244); (4%nat, 0.052); (3%nat, 0.052);
             (1%nat, 0.052); (6%nat, 0.01)]) ;
    (7%nat, [(5%nat, 0.269); (4%nat, 0.185); (6%nat, 0.06); (2%nat, 0.065);
             (1%nat, 0.029); (7%nat, 0.029); (3%nat, 0.017)]) ;
    (8%nat, [(3%nat, 0.074); (5%nat, 0.074); (2%nat, 0.034); (1%nat, 0.034);
             (4%nat, 0.29); (6%nat, 0.02)]) ].

End Stage3.

(** ** Stage 4: exact Big-M precedence with waiting times (Strategy D) *)

Module Stage4.

Inductive var : Type :=
| Theta (k m : nat)
| eta (k i t : nat)
| Cmax
| W (i t : nat)
| Cjob (i : nat).

Section Build.

Variable routes : jobdict.

Definition jobs : list nat := map fst routes.
Definition machines : list nat := machines_of routes.
Definition K : nat := count_ops routes.
Definition S : nat := K.

(** Safe Big-M. *)
Definition total_proc : Q := sum_durations routes.
Definition M : Q := total_proc.

Definition catalog : script (cmd var) (list nat * list nat * nat) :=
  ret (jobs, machines, K).

Definition declare_vars : script (cmd var) unit :=
  for_ (range (S + 1)) (fun k =>
    for_ machines (fun m => addVar (Theta k m) CONTINUOUS 0)) ;;
  for_ (range S) (fun k =>
    for_ routes (fun '(i, r) =>
      for_ (range (length r)) (fun t => addVar (eta k i t) BINARY 0))) ;;
  addVar Cmax CONTINUOUS 0 ;;
  for_ routes (fun '(i, r) =>
    for_ (range (length r - 1)) (fun t => addVar (W i t) CONTINUOUS 0)) ;;
  for_ routes (fun '(i, r) => addVar (Cjob i) CONTINUOUS 0).

(** Theta[0,m] = 0. *)
Definition initial : script (cmd var) unit :=
  for_ machines (fun m =>
    addConstr (Constr (Var (Theta 0 m)) EQ (Const 0))).

(** The operations of machine [m], as [eta] terms of stage [k] weighted
    by [w]. *)
Definition on_machine (w : operation -> expr var -> expr var) (k m : nat)
  : list (expr var) :=
  flat_map (fun '(i, r) =>
    flat_map (fun t =>
      if Nat.eqb (fst (nth t r (0%nat, 0))) m
      then [w (nth t r (0%nat, 0)) (Var (eta k i t))] else [])
      (range (length r))) routes.

(** Machine capacity per stage. *)
Definition capacity : script (cmd var) unit :=
  for_ (range S) (fun k =>
    for_ machines (fun m =>
      addConstr (Constr (quicksum (on_machine (fun _ e => e) k m))
                        LE (Const 1)))).

(** Each op executed exactly once. *)
Definition each_once : script (cmd var) unit :=
  for_ routes (fun '(i, r) =>
    for_ (range (length r)) (fun t =>
      addConstr (Constr (quicksum (map (fun k => Var (eta k i t)) (range S)))
                        EQ (Const 1)))).

(** Theta recursion. *)
Definition recursion : script (cmd var) unit :=
  for_ (range S) (fun k =>
    for_ machines (fun m =>
      addConstr
        (Constr (Var (Theta (k + 1) m)) GE
           (Add (Var (Theta k m))
                (quicksum (on_machine (fun o e => Scale (snd o) e) k m)))))).

(** Makespan lower bound. *)
Definition makespan : script (cmd var) unit :=
  for_ machines (fun m =>
    addConstr (Constr (Var Cmax) GE (Var (Theta S m)))).

(** [M * (2 - eta[k1, i, t] - eta[k2, i, t+1])]. *)
Definition slack (i t k1 k2 : nat) : expr var :=
  Scale M (Sub (Sub (Const 2) (Var (eta k1 i t))) (Var (eta k2 i (t + 1)))).

(** The Big-M precedence inequality of operations [t], [t + 1] of job
    [i], on machines [m1], [m2], for the stage pair [(k1, k2)]. *)
Definition precedence_constr (i t m1 m2 k1 k2 : nat) : constr var :=
  Constr (Add (Var (Theta k2 m2)) (slack i t k1 k2))
         GE (Var (Theta (k1 + 1) m1)).

(** Exact precedence with Big-M. *)
Definition precedence : script (cmd var) unit :=
  for_ routes (fun '(i, r) =>
    for_ (range (length r - 1)) (fun t =>
      let m1 := fst (nth t r (0%nat, 0)) in
      let m2 := fst (nth (t + 1) r (0%nat, 0)) in
      for_ (range S) (fun k1 =>
        for_ (range S) (fun k2 =>
          addConstr (precedence_constr i t m1 m2 k1 k2))))).

(** Waiting linearization. *)
Definition waiting : script (cmd var) unit :=
  for_ routes (fun '(i, r) =>
    for_ (range (length r - 1)) (fun t =>
      let m1 := fst (nth t r (0%nat, 0)) in
      let m2 := fst (nth (t + 1) r (0%nat, 0)) in
      for_ (range S) (fun k1 =>
        for_ (range S) (fun k2 =>
          addConstr
            (Constr (Add (Var (W i t)) (slack i t k1 k2))
                    GE
                    (Sub (Var (Theta k2 m2)) (Var (Theta (k1 + 1) m1)))))))).

(** Job completion. [routes[i][-1]] on an empty route is an
    [IndexError]. *)
Definition job_completion : script (cmd var) unit :=
  for_ routes (fun '(i, r) =>
    let last := (length r - 1)%nat in
    match r with
    | [] => raise IndexError
    | _ :: _ =>
        let m_last := fst (nth last r (0%nat, 0)) in
        for_ (range S) (fun k =>
          addConstr
            (Constr (Add (Var (Cjob i))
                         (Scale M (Sub (Const 1) (Var (eta k i last)))))
                    GE (Var (Theta (k + 1) m_last)))) ;;
        addConstr (Constr (Var Cmax) GE (Var (Cjob i)))
    end).

Definition w1 : Q := 1.
Definition w2 : Q := 0.1.
Definition w3 : Q := 0.05.

(** Objective: weighted sum. *)
Definition obj : expr var :=
  Add (Add (Scale w1 (Var Cmax))
           (Scale w2 (quicksum (map (fun i => Var (Cjob i)) jobs))))
      (Scale w3
         (quicksum
            (flat_map (fun '(i, r) =>
               map (fun t => Var (W i t)) (range (length r - 1))) routes))).

(** The whole construction. [model.update()] and the output flag change
    nothing in the model and are left out. *)
Definition build : script (cmd var) unit :=
  catalog ;;
  declare_vars ;;
  initial ;;
  capacity ;;
  each_once ;;
  recursion ;;
  makespan ;;
  precedence ;;
  waiting ;;
  job_completion ;;
  setObjective obj.

(** The operations placed in stage [k]: the list [scheduled] of the
    display loop, each entry [(i, t, machine, p)]. *)
Definition scheduled (r : solved var) (k : nat)
  : script (out var) (list (nat * nat * nat * Q)) :=
  gather routes (fun '(i, rt) =>
    gather (range (length rt)) (fun t =>
      v <- getX r (eta k i t) ;;
      ret (if Qgtb v (1 # 2)
           then [(i, t, fst (nth t rt (0%nat, 0)), snd (nth t rt (0%nat, 0)))]
           else []))).

Definition show_schedule (r : solved var) : script (out var) unit :=
  print "Schedule (stage -> operations):" [] ;;
  for_ (range S) (fun k =>
    sch <- scheduled r k ;;
    match sch with
    | [] => ret tt
    | _ :: _ =>
        print " Stage {k+1}: " [Qn (k + 1)] ;;
        print "Job{job}-Op{op+1} (M{m}, p={p})"
          (flat_map (fun '(job, op, m, p) => [Qn job; Qn (op + 1); Qn m; p])
                    sch)
    end).

Definition show_tables (r : solved var) : script (out var) unit :=
  print "\nTheta table:" [] ;;
  for_ (range (S + 1)) (fun k =>
    for_ machines (fun m =>
      v <- getX r (Theta k m) ;;
      print " Theta[{k},{m}] = {Theta[k,m].X:.1f}" [Qn k; Qn m; v])) ;;
  print "\nWaiting W[i,t]:" [] ;;
  for_ routes (fun '(i, rt) =>
    for_ (range (length rt - 1)) (fun t =>
      v <- getX r (W i t) ;;
      print " W[{i},{t}] = {W[i,t].X:.3f}" [Qn i; Qn t; v])) ;;
  print "\nJob completion Cjob[i]:" [] ;;
  for_ routes (fun '(i, rt) =>
    v <- getX r (Cjob i) ;;
    print " Cjob[{i}] = {Cjob[i].X:.3f}" [Qn i; v]).

(** Print solution. *)
Definition report (r : solved var) : script (out var) unit :=
  st <- getStatus r ;;
  if Status_eqb st OPTIMAL then
    print "\nOptimal solution found:" [] ;;
    o <- getObjVal r ;;
    c <- getX r Cmax ;;
    print "Objective = {model.objVal:.3f}, Cmax = {Cmax.X:.3f}\n" [o; c] ;;
    show_schedule r ;;
    show_tables r
  else
    st' <- getStatus r ;;
    printStatus "No optimal solution found. Status:" st'.

End Build.

(** The data of the script. *)
Definition routes : jobdict :=
  [ (1%nat, [(1%nat, 3); (2%nat, 2)]) ;
    (2%nat, [(2%nat, 2); (1%nat, 4)]) ].

Definition model : list (cmd var) := calls (build routes).

End Stage4.

Close Scope string_scope.

(** * Vocabulary of the design document *)

(** The position pairs [(a, b)] with [a < b < n]: the unordered pairs of
    [n] operations, each once. *)
Definition unordered_pairs (n : nat) : list (nat * nat) :=
  flat_map (fun a => map (fun b => (a, b)) (seq (a + 1) (n - (a + 1)))) (seq 0 n).

(** Strategy A, one pair of operations [opa], [opb] of a machine: one
    ordering indicator [x] and the disjunctive pair
    [start(a) >= completion(b) - BigM (1 - x)],
    [start(b) >= completion(a) - BigM x]. *)
Definition disjunctive_pair (bigM : Q) (opa opb : nat * nat)
  : list (cmd Stage1.var) :=
  let x := Stage1.X (fst opa) (snd opa) (fst opb) (snd opb) in
  let start o := Var (Stage1.S (fst o) (snd o)) in
  let completion o := Var (Stage1.C (fst o) (snd o)) in
  [ AddVar x BINARY 0 ;
    AddConstr None
      (Constr (start opa) GE
         (Sub (completion opb) (Scale bigM (Sub (Const 1) (Var x))))) ;
    AddConstr None
      (Constr (start opb) GE (Sub (completion opa) (Scale bigM (Var x)))) ].

(** The schedule of the design document for the two-job instance: job 2 on
    M2 during [0,2], job 1 on M1 during [0,3], job 1 on M2 during [3,5],
    job 2 on M1 during [3,4]. *)
Definition schedule_A : valuation Stage1.var := fun v =>
  match v with
  | Stage1.S 1 0 => 0 | Stage1.C 1 0 => 3
  | Stage1.S 1 1 => 3 | Stage1.C 1 1 => 5
  | Stage1.S 2 0 => 0 | Stage1.C 2 0 => 2
  | Stage1.S 2 1 => 3 | Stage1.C 2 1 => 4
  | Stage1.Cmax => 5
  | Stage1.X 1 1 2 0 => 1
  | _ => 0
  end.

(** Strategy B with the sequencing inequality of a consecutive operation
    pair issued once, instead of once per round of the stage loop. *)
Definition sequencing_once (jobs : jobdict) (num_stages : nat)
  : script (cmd Stage2.var) unit :=
  for_ jobs (fun '(j, r) =>
    for_ (range (length r - 1)) (fun k =>
      addConstrNamed ("seq_" ++ str j ++ "_" ++ str k)%string
                     (Stage2.seq_constr num_stages j k))).

Definition build_once (jobs : jobdict) (machines : list nat) (num_stages : nat)
  : script (cmd Stage2.var) unit :=
  Stage2.declare_vars jobs num_stages ;;
  Stage2.assign jobs num_stages ;;
  sequencing_once jobs num_stages ;;
  Stage2.capacity jobs machines num_stages ;;
  Stage2.start_times jobs num_stages ;;
  Stage2.makespan jobs ;;
  setObjective (Var Stage2.Cmax).

(** The operations of all routes with their data: job, index in the route,
    and the [(machine, duration)] found there. *)
Definition placed_ops (routes : jobdict) : list (nat * nat * operation) :=
  flat_map (fun '(i, r) =>
    map (fun t => (i, t, nth t r (0%nat, 0))) (range (length r))) routes.

(** The work machine [m] receives at stage [k] when [x k i t] tells whether
    operation [t] of job [i] is placed at stage [k]. *)
Definition stage_load (routes : jobdict) (x : nat -> nat -> nat -> Q)
  (k m : nat) : Q :=
  qsum (map (fun e => snd (snd e) * x k (fst (fst e)) (snd (fst e)))
            (filter (fun e => Nat.eqb (fst (snd e)) m) (placed_ops routes))).

(** The cumulative busy time of machine [m] through stage [k]: what
    [Theta[k, m]] is when [Theta[0, m] = 0] and every step of the recursion
    is taken with equality. *)
Fixpoint busy_time (routes : jobdict) (x : nat -> nat -> nat -> Q)
  (k m : nat) : Q :=
  match k with
  | O => 0
  | Datatypes.S k' => busy_time routes x k' m + stage_load routes x k' m
  end.

(** A feasible point of the stage 4 model of the script's data: both first
    operations in stage 0, both second operations in stage 1. *)
Definition schedule_D : valuation Stage4.var := fun v =>
  match v with
  | Stage4.Theta 0 _ => 0
  | Stage4.Theta 1 _ => 3
  | Stage4.Theta _ 1 => 7
  | Stage4.Theta _ 2 => 5
  | Stage4.Theta _ _ => 0
  | Stage4.eta 0 1 0 => 1
  | Stage4.eta 0 2 0 => 1
  | Stage4.eta 1 1 1 => 1
  | Stage4.eta 1 2 1 => 1
  | Stage4.eta _ _ _ => 0
  | Stage4.Cmax => 7
  | Stage4.W _ _ => 0
  | Stage4.Cjob 1 => 5
  | Stage4.Cjob 2 => 7
  | Stage4.Cjob _ => 0
  end.

(** A point of the stage 3 model of the script's data: operation number
    [n] in the order of [ops] holds stage [n], and every machine starts
    with availability 1 instead of 0. *)
Definition slot_C (i t : nat) : nat :=
  (match i with
   | 1 => 0 | 2 => 7 | 3 => 15 | 4 => 23 | 5 => 29 | 6 => 35 | 7 => 41
   | _ => 48
   end + t)%nat.

Definition drift_C : valuation Stage3.var := fun v =>
  match v with
  | Stage3.Theta k _ => Qn k + 1
  | Stage3.eta k i t => if Nat.eqb k (slot_C i t) then 1 else 0
  | Stage3.Cmax => 55
  end.

(** A call that adds a constraint or sets the objective, as opposed to one
    that declares a variable. *)
Definition no_declaration {V} (c : cmd V) : Prop :=
  match c with
  | AddVar _ _ _ => False
  | _ => True
  end.

(** Job data with a negative duration and an empty route. *)
Definition bad_routes : jobdict :=
  [ (1%nat, [(1%nat, -3)]) ; (2%nat, []) ].

(** A solve that ended infeasible: the solver holds no values. *)
Definition infeasible_A : solved Stage1.var :=
  Solved INFEASIBLE (fun _ => None) None.

(** One job of two operations, and solved values that give its first
    operation both stages and its second operation none. *)
Definition two_ops : jobdict := [ (1%nat, [(1%nat, 1); (2%nat, 1)]) ].

Definition doubled_values : valuation Stage3.var := fun v =>
  match v with
  | Stage3.eta 0 1 0 => 1
  | Stage3.eta 1 1 0 => 1
  | Stage3.Cmax => 2
  | _ => 0
  end.

Definition doubled_C : solved Stage3.var :=
  Solved OPTIMAL (fun v => Some (doubled_values v)) (Some 2).

(** The solver's answer that holds [schedule_D]. *)
Definition solved_D : solved Stage4.var :=
  Solved OPTIMAL (fun v => Some (schedule_D v)) (Some 7).

(** Whether some job of the dictionary has no operation at all. *)
Definition has_empty_route (jobs : jobdict) : bool :=
  existsb (fun jr => match snd jr with [] => true | _ :: _ => false end) jobs.

(** A call other than [setObjective]. *)
Definition no_objective {V} (c : cmd V) : Prop :=
  match c with
  | SetObjective _ => False
  | _ => True
  end.

(** A feasible point of the stage 2 model of the script's data: jobs 1 and
    2 take stages 0 and 1, job 3 takes stages 2 and 3. *)
Definition schedule_B : valuation Stage2.var := fun v =>
  match v with
  | Stage2.x 1 0 0 => 1 | Stage2.x 1 1 1 => 1
  | Stage2.x 2 0 0 => 1 | Stage2.x 2 1 1 => 1
  | Stage2.x 3 0 2 => 1 | Stage2.x 3 1 3 => 1
  | Stage2.x _ _ _ => 0
  | Stage2.S 1 1 => 2
  | Stage2.S 2 1 => 1
  | Stage2.S 3 0 => 4
  | Stage2.S 3 1 => 3
  | Stage2.S _ _ => 0
  | Stage2.Cmax => 4
  end.

(** The total duration of the operations that run on machine [m]. *)
Definition machine_work (routes : jobdict) (m : nat) : Q :=
  qsum (map (fun e => snd (snd e))
            (filter (fun e => Nat.eqb (fst (snd e)) m) (placed_ops routes))).

(** A feasible point of the stage 3 model of [two_ops]: the first
    operation at stage 0, the second at stage 1. *)
Definition schedule_C : valuation Stage3.var := fun v =>
  match v with
  | Stage3.eta 0 1 0 => 1
  | Stage3.eta 1 1 1 => 1
  | Stage3.eta _ _ _ => 0
  | Stage3.Theta 0 _ => 0
  | Stage3.Theta 1 1 => 1
  | Stage3.Theta 1 _ => 0
  | Stage3.Theta _ _ => 1
  | Stage3.Cmax => 1
  end.

(** [max(l, default=0)] floored at 0: the largest of the values and 0. *)
Definition qmax (l : list Q) : Q :=
  fold_right (fun a b => if Qle_bool a b then b else a) 0 l.

(** The largest total duration a machine has to run. *)
Definition max_work (routes : jobdict) : Q :=
  qmax (map (machine_work routes) (machines_of routes)).

(** The placement that runs the operations one per stage in the order of
    [ops]: job after job, each job in route order. *)
Definition stage_in_order (routes : jobdict) (k i t : nat) : Q :=
  match nth_error (all_ops routes) k with
  | Some (i', t') => if Nat.eqb i' i && Nat.eqb t' t then 1 else 0
  | None => 0
  end.

(** The point of the stage 3 model that places the operations in order,
    lets every machine be available exactly when its work so far is done,
    and takes the largest machine work as [Cmax]. *)
Definition in_order (routes : jobdict) : valuation Stage3.var := fun v =>
  match v with
  | Stage3.eta k i t => stage_in_order routes k i t
  | Stage3.Theta k m => busy_time routes (stage_in_order routes) k m
  | Stage3.Cmax => max_work routes
  end.

(** The duration of the operation that stands at place [k] of [ops]. *)
Definition duration_in_order (routes : jobdict) (k : nat) : Q :=
  match nth_error (all_ops routes) k with
  | Some (i, t) => snd (op_at routes i t)
  | None => 0
  end.

(** The time at which stage [k] begins when the operations run one after
    another, in the order of [ops]. *)
Definition elapsed (routes : jobdict) (k : nat) : Q :=
  qsum (map (duration_in_order routes) (range k)).

(** The point of the stage 4 model that runs the operations one after
    another, one per stage: every machine is available at the time the
    stage begins; the makespan, the job completions and the waiting
    variables take the total duration. *)
Definition in_series (routes : jobdict) : valuation Stage4.var := fun v =>
  match v with
  | Stage4.eta k i t => stage_in_order routes k i t
  | Stage4.Theta k _ => elapsed routes k
  | Stage4.Cmax => sum_durations routes
  | Stage4.W _ _ => sum_durations routes
  | Stage4.Cjob _ => sum_durations routes
  end.

(** The start value that the stage 2 model gives an operation placed in
    order: the sum of [t * p * x[j, k, t]] over the stages. *)
Definition start_in_order (jobs : jobdict) (n j k : nat) : Q :=
  qsum (map (fun t => Qn t * snd (op_at jobs j k) * stage_in_order jobs t j k)
            (range n)).

(** The point of the stage 2 model that gives the operations the stages
    0, 1, 2, ... in the order of the job data: job after job, each job in
    route order. *)
Definition in_stages (jobs : jobdict) (n : nat) : valuation Stage2.var :=
  fun v =>
  match v with
  | Stage2.x j k t => stage_in_order jobs t j k
  | Stage2.S j k => start_in_order jobs n j k
  | Stage2.Cmax =>
      qmax (map (fun jr =>
                   start_in_order jobs n (fst jr) (length (snd jr) - 1)
                   + snd (nth (length (snd jr) - 1) (snd jr) (0%nat, 0)))
                jobs)
  end.

(** The start of an operation when the operations run one after another
    in the order of the job data: the time elapsed at its place. *)
Definition start_in_series (jobs : jobdict) (i k : nat) : Q :=
  qsum (map (fun t => elapsed jobs t * stage_in_order jobs t i k)
            (range (count_ops jobs))).

(** The point of the stage 1 model that runs the operations one after
    another: no ordering binary is set, and [Cmax] is the total
    duration. *)
Definition one_by_one (jobs : jobdict) : valuation Stage1.var := fun v =>
  match v with
  | Stage1.S i k => start_in_series jobs i k
  | Stage1.C i k => start_in_series jobs i k + snd (op_at jobs i k)
  | Stage1.Cmax => sum_durations jobs
  | Stage1.X _ _ _ _ => 0
  end.

(** What a display loop finds when it walks [l] and shows the entries
    whose solved value is above 0.5: the first such entry. *)
Definition shown {A} (f : A -> Q) (l : list A) (d : A) : A :=
  match find (fun a => Qgtb (f a) (1 # 2)) l with
  | Some a => a
  | None => d
  end.




(** Two jobs whose only operations share machine 3, a machine that the
    machine list of stage 1, [[1, 2]], does not hold; and values that run
    both operations during [[0, 1]]. *)
Definition unlisted_machine : jobdict :=
  [ (1%nat, [(3%nat, 1)]) ; (2%nat, [(3%nat, 1)]) ].

Definition both_at_once : valuation Stage1.var := fun v =>
  match v with
  | Stage1.S _ _ => 0
  | Stage1.C _ _ => 1
  | Stage1.Cmax => 1
  | Stage1.X _ _ _ _ => 0
  end.

(** * Properties *)

Unset Implicit Arguments.

(** ** The script monad *)

Lemma bind_ok {W A B} (m : script W A) (f : A -> script W B) w a :
  m = (w, inr a) -> bind m f = (w ++ calls (f a), outcome (f a)).
Proof.
  intros ->. unfold bind, calls, outcome. now destruct (f a).
Qed.

Lemma script_eta {W A} (m : script W A) : m = (calls m, outcome m).
Proof. now destruct m. Qed.

(** A loop whose body never raises issues the calls of its rounds, in
    order. *)
Lemma for_ok {W A} (l : list A) (body : A -> script W unit) :
  (forall x, In x l -> outcome (body x) = inr tt) ->
  for_ l body = (flat_map (fun x => calls (body x)) l, inr tt).
Proof.
  induction l as [|x l IH]; intros H; simpl; [reflexivity|].
  rewrite (bind_ok (body x) _ (calls (body x)) tt).
  - rewrite IH by (intros; apply H; now right). reflexivity.
  - rewrite (script_eta (body x)) at 1. f_equal. apply H. now left.
Qed.

(** ** Feasible regions *)

Lemma satb_sat V (rho : valuation V) (c : constr V) :
  satb rho c = true <-> sat rho c.
Proof.
  unfold satb, sat. destruct (rel c).
  - apply Qle_bool_iff.
  - apply Qle_bool_iff.
  - apply Qeq_bool_iff.
Qed.

Lemma respectsb_respects V (rho : valuation V) (c : cmd V) :
  respectsb rho c = true <-> respects rho c.
Proof.
  destruct c as [v [|] lb|n k|e]; simpl.
  - apply Qle_bool_iff.
  - rewrite orb_true_iff, !Qeq_bool_iff. tauto.
  - apply satb_sat.
  - tauto.
Qed.

Lemma feasibleb_feasible V (rho : valuation V) (m : list (cmd V)) :
  feasibleb rho m = true <-> feasible rho m.
Proof.
  unfold feasibleb, feasible. rewrite forallb_forall, Forall_forall.
  split; intros H c Hc; apply respectsb_respects; auto.
Qed.

Lemma feasible_app V (rho : valuation V) (m1 m2 : list (cmd V)) :
  feasible rho (m1 ++ m2) <-> feasible rho m1 /\ feasible rho m2.
Proof. apply Forall_app. Qed.

Lemma feasible_in V (rho : valuation V) (m : list (cmd V)) c :
  feasible rho m -> In c m -> respects rho c.
Proof. unfold feasible. rewrite Forall_forall. auto. Qed.

Lemma eval_quicksum V (rho : valuation V) (l : list (expr V)) :
  eval rho (quicksum l) == qsum (map (eval rho) l).
Proof.
  induction l as [|e l IH]; simpl; [reflexivity|]. now rewrite IH.
Qed.

(** ** Strategy A *)

Lemma flat_map_flat_map {A B C} (f : B -> list C) (g : A -> list B) l :
  flat_map f (flat_map g l) = flat_map (fun x => flat_map f (g x)) l.
Proof.
  induction l as [|x l IH]; simpl; [reflexivity|].
  now rewrite flat_map_app, IH.
Qed.

Lemma flat_map_map {A B C} (f : B -> list C) (g : A -> B) l :
  flat_map f (map g l) = flat_map (fun x => f (g x)) l.
Proof. induction l as [|x l IH]; simpl; [reflexivity|]. now rewrite IH. Qed.

Lemma disjunction_ok bigM ops a b :
  Stage1.disjunction bigM ops a b
  = (disjunctive_pair bigM (nth a ops (0, 0)%nat) (nth b ops (0, 0)%nat), inr tt).
Proof.
  unfold Stage1.disjunction, disjunctive_pair.
  destruct (nth a ops (0, 0)%nat) as [i k], (nth b ops (0, 0)%nat) as [j l].
  reflexivity.
Qed.

Lemma in_unordered_pairs n a b :
  In (a, b) (unordered_pairs n) <-> (a < b < n)%nat.
Proof.
  unfold unordered_pairs. rewrite in_flat_map. split.
  - intros [a' [Ha Hb]]. apply in_map_iff in Hb. destruct Hb as [b' [E Hb]].
    inversion E; subst. apply in_seq in Ha, Hb. lia.
  - intros H. exists a. split; [apply in_seq; lia|].
    apply in_map_iff. exists b. split; [reflexivity|apply in_seq; lia].
Qed.

Lemma NoDup_unordered_pairs n : NoDup (unordered_pairs n).
Proof.
  unfold unordered_pairs.
  assert (G : forall l, NoDup l ->
    NoDup (flat_map (fun a => map (fun b => (a, b)) (seq (a + 1) (n - (a + 1)))) l)).
  { induction l as [|a l IH]; intros Hl; simpl; [constructor|].
    inversion Hl; subst. apply NoDup_app; repeat split.
    - apply Injective_map_NoDup; [|apply seq_NoDup].
      intros x y E. now inversion E.
    - now apply IH.
    - intros [a' b'] Hin Hin'. apply in_map_iff in Hin. destruct Hin as [b0 [E _]].
      inversion E; subst. apply in_flat_map in Hin'. destruct Hin' as [a0 [Ha0 Hb0]].
      apply in_map_iff in Hb0. destruct Hb0 as [b1 [E1 _]]. inversion E1; subst.
      contradiction. }
  apply G, seq_NoDup.
Qed.

(** The operations of a machine are pairwise distinct when the job ids
    are, as the keys of a dictionary are. *)
Lemma NoDup_map_filter {A B} (g : A -> B) (p : A -> bool) (l : list A) :
  NoDup (map g l) -> NoDup (map g (filter p l)).
Proof.
  induction l as [|a l IH]; intros H; simpl; [constructor|].
  simpl in H. inversion H as [|? ? Hn Hl]; subst.
  destruct (p a); simpl; [|now apply IH].
  constructor; [|now apply IH].
  intros Hin. apply Hn. apply in_map_iff in Hin. destruct Hin as [x [E Hx]].
  apply filter_In in Hx. apply in_map_iff. exists x. tauto.
Qed.

Lemma enumerate_indices {A} (l : list A) :
  map fst (enumerate l) = seq 0 (length l).
Proof.
  unfold enumerate. generalize 0%nat.
  induction l as [|a l IH]; intros s; simpl; [reflexivity|]. now rewrite IH.
Qed.

Lemma ops_of_route_on (m i : nat) (r : route) :
  flat_map (fun '(k, (mm, _)) => if Nat.eqb mm m then [(i, k)] else [])
           (enumerate r)
  = map (fun k => (i, k))
        (map fst (filter (fun e => Nat.eqb (fst (snd e)) m) (enumerate r))).
Proof.
  induction (enumerate r) as [|[k [mm p]] l IH]; simpl; [reflexivity|].
  destruct (Nat.eqb mm m); simpl; now rewrite IH.
Qed.

Lemma in_combine_seq {A} (l : list A) (s k : nat) (a : A) :
  In (k, a) (combine (seq s (length l)) l)
  <-> (s <= k)%nat /\ nth_error l (k - s) = Some a.
Proof.
  revert s. induction l as [|b l IH]; intros s; simpl.
  - split; [intros []|]. intros [_ H]. destruct (k - s)%nat; discriminate H.
  - rewrite IH. split.
    + intros [E|[Hk Hn]].
      * inversion E; subst. rewrite Nat.sub_diag. auto.
      * split; [lia|]. replace (k - s)%nat with (Datatypes.S (k - Datatypes.S s)) by lia.
        exact Hn.
    + intros [Hk Hn]. destruct (Nat.eq_dec k s) as [->|Hne].
      * rewrite Nat.sub_diag in Hn. simpl in Hn. inversion Hn. now left.
      * right. split; [lia|].
        replace (k - s)%nat with (Datatypes.S (k - Datatypes.S s)) in Hn by lia.
        exact Hn.
Qed.

(** [enumerate(l)] pairs each position with the element found there. *)
Lemma in_enumerate {A} (l : list A) (k : nat) (a : A) :
  In (k, a) (enumerate l) <-> nth_error l k = Some a.
Proof.
  unfold enumerate. rewrite in_combine_seq, Nat.sub_0_r.
  split; [tauto|]. intros H. split; [lia|exact H].
Qed.

(** The operation list of machine [m], [[(i, k) for i in jobs for k, (mm, _)
    in enumerate(jobs[i]) if mm == m]], holds exactly the operations whose
    route entry names [m]. *)
Lemma in_ops_on (jobs : jobdict) (m i k : nat) :
  In (i, k) (Stage1.ops_on jobs m)
  <-> exists r p, In (i, r) jobs /\ nth_error r k = Some (m, p).
Proof.
  unfold Stage1.ops_on. rewrite in_flat_map. split.
  - intros [[j r] [Hj H]]. apply in_flat_map in H.
    destruct H as [[k' [mm p]] [He H]].
    destruct (Nat.eqb mm m) eqn:E; [|contradiction].
    destruct H as [H|[]]. inversion H; subst. apply Nat.eqb_eq in E. subst.
    apply in_enumerate in He. now exists r, p.
  - intros [r [p [Hj Hk]]]. exists (i, r). split; [exact Hj|].
    apply in_flat_map. exists (k, (m, p)). split; [now apply in_enumerate|].
    rewrite Nat.eqb_refl. now left.
Qed.

(** Two distinct entries of a list stand at two positions [a < b]. *)
Lemma two_positions {A} (l : list A) (d x y : A) :
  In x l -> In y l -> x <> y ->
  exists a b, (a < b < length l)%nat
    /\ ((nth a l d = x /\ nth b l d = y) \/ (nth a l d = y /\ nth b l d = x)).
Proof.
  intros Hx Hy Hne.
  destruct (In_nth l x d Hx) as [a [Ha Ea]].
  destruct (In_nth l y d Hy) as [b [Hb Eb]].
  destruct (Nat.lt_total a b) as [H|[H|H]].
  - exists a, b. split; [lia|]. left. auto.
  - exfalso. apply Hne. subst b. congruence.
  - exists b, a. split; [lia|]. right. auto.
Qed.

Lemma NoDup_ops_on (jobs : jobdict) (m : nat) :
  NoDup (map fst jobs) -> NoDup (Stage1.ops_on jobs m).
Proof.
  unfold Stage1.ops_on.
  induction jobs as [|[i r] jobs IH]; intros H; simpl; [constructor|].
  simpl in H. inversion H as [|? ? Hn Hl]; subst.
  rewrite ops_of_route_on. apply NoDup_app; repeat split.
  - apply Injective_map_NoDup; [intros x y E; now inversion E|].
    apply NoDup_map_filter. rewrite enumerate_indices. apply seq_NoDup.
  - now apply IH.
  - intros [i' k] Hin Hin'. apply in_map_iff in Hin. destruct Hin as [k0 [E _]].
    inversion E; subst. apply in_flat_map in Hin'.
    destruct Hin' as [[j r'] [Hj Hk]]. rewrite ops_of_route_on in Hk.
    apply in_map_iff in Hk. destruct Hk as [k1 [E1 _]]. inversion E1; subst.
    apply Hn. apply in_map_iff. now exists (i', r').
Qed.

Lemma non_overlap_on_calls (jobs : jobdict) (bigM : Q) (m : nat) :
  Stage1.non_overlap_on jobs bigM m
  = (flat_map (fun ab =>
       disjunctive_pair bigM (nth (fst ab) (Stage1.ops_on jobs m) (0, 0)%nat)
                             (nth (snd ab) (Stage1.ops_on jobs m) (0, 0)%nat))
       (unordered_pairs (length (Stage1.ops_on jobs m))),
     inr tt).
Proof.
  unfold Stage1.non_overlap_on. set (ops := Stage1.ops_on jobs m).
  assert (In_ok : forall a,
    for_ (range2 (a + 1) (length ops)) (fun b => Stage1.disjunction bigM ops a b)
    = (flat_map (fun b => disjunctive_pair bigM (nth a ops (0,0)%nat) (nth b ops (0,0)%nat))
                (range2 (a + 1) (length ops)), inr tt)).
  { intros a. rewrite for_ok.
    - f_equal. apply flat_map_ext. intros b. now rewrite disjunction_ok.
    - intros b _. now rewrite disjunction_ok. }
  rewrite for_ok.
  - f_equal. unfold unordered_pairs, range, range2.
    rewrite flat_map_flat_map. rewrite Nat.sub_0_r.
    apply flat_map_ext. intros a. cbv beta.
    specialize (In_ok a). unfold range2 in In_ok. rewrite In_ok.
    unfold calls; simpl fst. now rewrite flat_map_map.
  - intros a _. now rewrite In_ok.
Qed.

(** C1, as the script has it. Strategy A, machine non-overlap. The
    operation list [ops] of a machine [m] holds exactly the operations
    whose route entry names [m]. For a machine [m] the loop body issues,
    for each unordered pair of positions [a < b] of [ops] (each pair once,
    and nothing else), one binary ordering indicator [x] followed by the
    two constraints [start(a) >= completion(b) - BigM (1 - x)] and
    [start(b) >= completion(a) - BigM x]; any two distinct operations of
    [m] stand at one such pair of positions; it never raises. The loop
    walks the [machines] list and issues the calls of each listed machine
    in turn, so a machine that the list does not hold gets no call. With
    distinct job ids the operations of a machine are pairwise distinct, so
    that distinct pairs get distinct indicators; a machine with at most
    one operation issues nothing. On the script's own data the list holds
    exactly the machines that the operations name. *)
Theorem strategyA_disjunctive_pairs
  (jobs : jobdict) (machines : list nat) (bigM : Q) (m : nat) :
  let ops := Stage1.ops_on jobs m in
  (forall i k, In (i, k) ops
     <-> exists r p, In (i, r) jobs /\ nth_error r k = Some (m, p))
  /\ Stage1.non_overlap_on jobs bigM m
     = (flat_map (fun ab =>
          let x := Stage1.X (fst (nth (fst ab) ops (0, 0)%nat))
                            (snd (nth (fst ab) ops (0, 0)%nat))
                            (fst (nth (snd ab) ops (0, 0)%nat))
                            (snd (nth (snd ab) ops (0, 0)%nat)) in
          let start o := Var (Stage1.S (fst o) (snd o)) in
          let completion o := Var (Stage1.C (fst o) (snd o)) in
          [ AddVar x BINARY 0 ;
            AddConstr None
              (Constr (start (nth (fst ab) ops (0, 0)%nat)) GE
                 (Sub (completion (nth (snd ab) ops (0, 0)%nat))
                      (Scale bigM (Sub (Const 1) (Var x))))) ;
            AddConstr None
              (Constr (start (nth (snd ab) ops (0, 0)%nat)) GE
                 (Sub (completion (nth (fst ab) ops (0, 0)%nat))
                      (Scale bigM (Var x)))) ])
          (unordered_pairs (length ops)),
        inr tt)
  /\ NoDup (unordered_pairs (length ops))
  /\ (forall a b,
        In (a, b) (unordered_pairs (length ops)) <-> (a < b < length ops)%nat)
  /\ (forall o1 o2, In o1 ops -> In o2 ops -> o1 <> o2 ->
        exists a b, (a < b < length ops)%nat
          /\ ((nth a ops (0, 0)%nat = o1 /\ nth b ops (0, 0)%nat = o2)
              \/ (nth a ops (0, 0)%nat = o2 /\ nth b ops (0, 0)%nat = o1)))
  /\ Stage1.non_overlap jobs machines bigM
     = (flat_map (fun m' => calls (Stage1.non_overlap_on jobs bigM m')) machines,
        inr tt)
  /\ (NoDup (map fst jobs) -> NoDup ops)
  /\ ((length ops <= 1)%nat -> calls (Stage1.non_overlap_on jobs bigM m) = [])
  /\ (forall m', In m' Stage1.machines <-> In m' (machines_of Stage1.jobs)).
Proof.
  intros ops.
  split; [intros i k; apply in_ops_on|].
  split; [apply non_overlap_on_calls|].
  split; [apply NoDup_unordered_pairs|].
  split; [intros a b; apply in_unordered_pairs|].
  split; [intros o1 o2; apply two_positions|].
  split.
  - unfold Stage1.non_overlap. apply for_ok.
    intros m' _. now rewrite non_overlap_on_calls.
  - split; [apply NoDup_ops_on|]. split.
    + intros Hle. rewrite non_overlap_on_calls. unfold calls; simpl fst. fold ops.
      destruct (unordered_pairs (length ops)) as [|[a b] l] eqn:P; [reflexivity|].
      assert (H : In (a, b) (unordered_pairs (length ops))) by (rewrite P; now left).
      apply in_unordered_pairs in H. lia.
    + intros m'.
      assert (E : machines_of Stage1.jobs = Stage1.machines) by reflexivity.
      rewrite E. tauto.
Qed.

Lemma strategyA_disjunctive_pairs_witness :
  In (2%nat, 1%nat) (Stage1.ops_on Stage1.jobs 1)
  /\ NoDup (Stage1.ops_on Stage1.jobs 1)
  /\ calls (Stage1.non_overlap_on Stage1.jobs Stage1.bigM 3) = [].
Proof.
  split; [|split].
  - apply (strategyA_disjunctive_pairs Stage1.jobs Stage1.machines Stage1.bigM 1).
    exists [(2%nat, 2); (1%nat, 1)], 1. split; [right; now left|reflexivity].
  - apply (strategyA_disjunctive_pairs Stage1.jobs Stage1.machines Stage1.bigM 1).
    simpl. repeat constructor; simpl; intuition discriminate.
  - apply (strategyA_disjunctive_pairs Stage1.jobs Stage1.machines Stage1.bigM 3).
    vm_compute. lia.
Defined.

(** C1, as the claim has it: "for every machine". Two operations share
    machine 3, which the machine list [[1, 2]] of the script does not
    hold: the script runs to its end, issues no call for the pair (no
    ordering indicator, no disjunctive constraint), and its model accepts
    values that run both operations at the same time. *)
Lemma strategyA_unlisted_machine_gets_no_pair :
  Stage1.ops_on unlisted_machine 3 = [(1, 0); (2, 0)]%nat
  /\ calls (Stage1.non_overlap unlisted_machine Stage1.machines Stage1.bigM) = []
  /\ outcome (Stage1.build unlisted_machine Stage1.machines Stage1.bigM) = inr tt
  /\ feasible both_at_once
       (calls (Stage1.build unlisted_machine Stage1.machines Stage1.bigM)).
Proof.
  split; [reflexivity|]. split; [reflexivity|]. split; [reflexivity|].
  apply feasibleb_feasible. vm_compute. reflexivity.
Qed.

(** The calls of the stage 1 script on its own data, in order. *)
Lemma strategyA_instance_model :
  Stage1.model
  = [ AddVar (Stage1.S 1 0) CONTINUOUS 0; AddVar (Stage1.C 1 0) CONTINUOUS 0;
      AddVar (Stage1.S 1 1) CONTINUOUS 0; AddVar (Stage1.C 1 1) CONTINUOUS 0;
      AddVar (Stage1.S 2 0) CONTINUOUS 0; AddVar (Stage1.C 2 0) CONTINUOUS 0;
      AddVar (Stage1.S 2 1) CONTINUOUS 0; AddVar (Stage1.C 2 1) CONTINUOUS 0;
      AddVar Stage1.Cmax CONTINUOUS 0;
      AddConstr None
        (Constr (Var (Stage1.C 1 0)) EQ (Add (Var (Stage1.S 1 0)) (Const 3)));
      AddConstr None
        (Constr (Var (Stage1.C 1 1)) EQ (Add (Var (Stage1.S 1 1)) (Const 2)));
      AddConstr None
        (Constr (Var (Stage1.C 2 0)) EQ (Add (Var (Stage1.S 2 0)) (Const 2)));
      AddConstr None
        (Constr (Var (Stage1.C 2 1)) EQ (Add (Var (Stage1.S 2 1)) (Const 1)));
      AddConstr None (Constr (Var (Stage1.S 1 1)) GE (Var (Stage1.C 1 0)));
      AddConstr None (Constr (Var (Stage1.S 2 1)) GE (Var (Stage1.C 2 0)));
      AddVar (Stage1.X 1 0 2 1) BINARY 0;
      AddConstr None
        (Constr (Var (Stage1.S 1 0)) GE
           (Sub (Var (Stage1.C 2 1))
                (Scale 1000 (Sub (Const 1) (Var (Stage1.X 1 0 2 1))))));
      AddConstr None
        (Constr (Var (Stage1.S 2 1)) GE
           (Sub (Var (Stage1.C 1 0)) (Scale 1000 (Var (Stage1.X 1 0 2 1)))));
      AddVar (Stage1.X 1 1 2 0) BINARY 0;
      AddConstr None
        (Constr (Var (Stage1.S 1 1)) GE
           (Sub (Var (Stage1.C 2 0))
                (Scale 1000 (Sub (Const 1) (Var (Stage1.X 1 1 2 0))))));
      AddConstr None
        (Constr (Var (Stage1.S 2 0)) GE
           (Sub (Var (Stage1.C 1 1)) (Scale 1000 (Var (Stage1.X 1 1 2 0)))));
      AddConstr None (Constr (Var Stage1.Cmax) GE (Var (Stage1.C 1 1)));
      AddConstr None (Constr (Var Stage1.Cmax) GE (Var (Stage1.C 2 1)));
      SetObjective (Var Stage1.Cmax) ].
Proof. reflexivity. Qed.

(** Splits the feasibility of a listed model into what each call demands. *)
Ltac split_feasible H :=
  unfold feasible in H;
  repeat match goal with
         | H : Forall _ (_ :: _) |- _ => inversion H; clear H; subst
         end;
  simpl in *; unfold sat in *; simpl in *.

(** C2. The two-job instance of the script, job 1 = [(M1,3),(M2,2)] and
    job 2 = [(M2,2),(M1,1)]: the script builds its model without raising,
    and the least makespan over the feasible region of that model is 5 (the
    schedule of the design document reaches it, and no feasible point has a
    smaller [Cmax]). *)
Theorem strategyA_instance_makespan :
  outcome (Stage1.build Stage1.jobs Stage1.machines Stage1.bigM) = inr tt
  /\ minimum Stage1.model 5.
Proof.
  split; [reflexivity|].
  exists (Var Stage1.Cmax). split; [reflexivity|]. split.
  - exists schedule_A. split; [|reflexivity].
    apply feasibleb_feasible. vm_compute. reflexivity.
  - intros rho H. rewrite strategyA_instance_model in H.
    split_feasible H. lra.
Qed.

(** The same instance with [bigM = 1]: the Big-M is too small to switch a
    disjunct off, both orders on machine 1 contradict the job orders, and
    the model has no feasible point at all. *)
Lemma strategyA_small_bigM_infeasible (rho : valuation Stage1.var) :
  feasible rho (calls (Stage1.build Stage1.jobs Stage1.machines 1)) -> False.
Proof.
  intros H. vm_compute calls in H. split_feasible H.
  match goal with
  | Hx : rho (Stage1.X 1 0 2 1) == 0 \/ _ |- _ => destruct Hx as [E|E]
  end; rewrite E in *; lra.
Qed.

Lemma infeasible_has_violation V (rho : valuation V) (m : list (cmd V)) :
  feasibleb rho m = false -> exists c, In c m /\ respectsb rho c = false.
Proof.
  unfold feasibleb. induction m as [|c m IH]; simpl; [discriminate|].
  destruct (respectsb rho c) eqn:E; simpl.
  - intros H. destruct (IH H) as [c' [Hin Hc']]. exists c'. auto.
  - intros _. exists c. auto.
Qed.

(** Whatever values the variables take under [bigM = 1], some call of the
    script is violated. *)
Lemma strategyA_small_bigM_violated (rho : valuation Stage1.var) :
  exists c, In c (calls (Stage1.build Stage1.jobs Stage1.machines 1))
            /\ respectsb rho c = false.
Proof.
  apply infeasible_has_violation.
  destruct (feasibleb rho (calls (Stage1.build Stage1.jobs Stage1.machines 1)))
    eqn:E; [|reflexivity].
  apply feasibleb_feasible in E. destruct (strategyA_small_bigM_infeasible rho E).
Qed.

(** ** Sequencing of script fragments *)

Lemma calls_seq {W A} (m : script W A) (k : script W unit) (a : A) :
  outcome m = inr a -> calls (m ;; k) = calls m ++ calls k.
Proof.
  intros H. rewrite (bind_ok m _ (calls m) a); [reflexivity|].
  rewrite <- H. apply script_eta.
Qed.

Lemma outcome_seq {W A} (m : script W A) (k : script W unit) (a : A) :
  outcome m = inr a -> outcome (m ;; k) = outcome k.
Proof.
  intros H. rewrite (bind_ok m _ (calls m) a); [reflexivity|].
  rewrite <- H. apply script_eta.
Qed.

Lemma for_outcome_ok {W A} (l : list A) (body : A -> script W unit) :
  (forall x, In x l -> outcome (body x) = inr tt) ->
  outcome (for_ l body) = inr tt.
Proof. intros H. now rewrite for_ok. Qed.

(** Discharges "this fragment never raises" for loops of model calls. *)
Ltac never_raises :=
  repeat first
    [ reflexivity
    | progress intros
    | match goal with x : (_ * _)%type |- _ => destruct x end
    | progress cbv beta iota
    | apply for_outcome_ok ].

(** ** Strategy B *)

Lemma declare_vars2_ok jobs n : outcome (Stage2.declare_vars jobs n) = inr tt.
Proof.
  unfold Stage2.declare_vars.
  rewrite (outcome_seq _ _ tt) by never_raises.
  rewrite (outcome_seq _ _ tt) by never_raises.
  reflexivity.
Qed.

Lemma assign2_ok jobs n : outcome (Stage2.assign jobs n) = inr tt.
Proof. unfold Stage2.assign. never_raises. Qed.

Lemma flat_map_const_repeat {A} (c : A) (n : nat) :
  flat_map (fun _ : nat => [c]) (range n) = repeat c n.
Proof.
  unfold range, range2. rewrite Nat.sub_0_r. generalize 0%nat.
  induction n as [|n IH]; intros s; simpl; [reflexivity|]. now rewrite IH.
Qed.

Lemma flat_map_single {A B} (f : A -> B) (l : list A) :
  flat_map (fun x => [f x]) l = map f l.
Proof. induction l as [|x l IH]; simpl; [reflexivity|]. now rewrite IH. Qed.

Lemma sequencing_calls jobs n :
  Stage2.sequencing jobs n
  = (flat_map (fun jr =>
       flat_map (fun k =>
         repeat (AddConstr (Some ("seq_" ++ str (fst jr) ++ "_" ++ str k)%string)
                           (Stage2.seq_constr n (fst jr) k)) n)
         (range (length (snd jr) - 1))) jobs,
     inr tt).
Proof.
  unfold Stage2.sequencing. rewrite for_ok by never_raises.
  f_equal. apply flat_map_ext. intros [j r]. cbn [fst snd].
  rewrite for_ok by never_raises. unfold calls at 1. cbn [fst].
  apply flat_map_ext. intros k.
  rewrite for_ok by never_raises. unfold calls at 1. cbn [fst].
  exact (flat_map_const_repeat _ n).
Qed.

Lemma sequencing_once_calls jobs n :
  sequencing_once jobs n
  = (flat_map (fun jr =>
       map (fun k =>
         AddConstr (Some ("seq_" ++ str (fst jr) ++ "_" ++ str k)%string)
                   (Stage2.seq_constr n (fst jr) k))
         (range (length (snd jr) - 1))) jobs,
     inr tt).
Proof.
  unfold sequencing_once. rewrite for_ok by never_raises.
  f_equal. apply flat_map_ext. intros [j r]. cbn [fst snd].
  rewrite for_ok by never_raises. unfold calls at 1. cbn [fst].
  exact (flat_map_single _ _).
Qed.

Lemma feasible_flat_map V A (rho : valuation V) (f : A -> list (cmd V)) l :
  feasible rho (flat_map f l) <-> forall x, In x l -> feasible rho (f x).
Proof.
  unfold feasible. rewrite Forall_flat_map, Forall_forall. reflexivity.
Qed.

Lemma seq_constr_no_stage rho j k : sat rho (Stage2.seq_constr 0 j k).
Proof. unfold sat. simpl. lra. Qed.

Lemma feasible_repeat V (rho : valuation V) (c : cmd V) n :
  feasible rho (repeat c (Datatypes.S n)) <-> respects rho c.
Proof.
  unfold feasible. split.
  - intros H. simpl in H. now inversion H.
  - intros H. apply Forall_forall. intros c' Hc. apply repeat_spec in Hc. now subst.
Qed.

Lemma sequencing_region rho jobs n :
  feasible rho (calls (Stage2.sequencing jobs n))
  <-> feasible rho (calls (sequencing_once jobs n)).
Proof.
  rewrite sequencing_calls, sequencing_once_calls. unfold calls. cbn [fst].
  rewrite !feasible_flat_map.
  split; intros H jr Hjr; specialize (H jr Hjr).
  - apply Forall_forall. intros c Hc. apply in_map_iff in Hc.
    destruct Hc as [k [<- Hk]].
    destruct n as [|n]; [apply seq_constr_no_stage|].
    rewrite feasible_flat_map in H. specialize (H k Hk).
    now apply feasible_repeat in H.
  - apply feasible_flat_map. intros k Hk.
    destruct n as [|n]; [constructor|].
    apply feasible_repeat.
    unfold feasible in H. rewrite Forall_forall in H. apply H.
    apply in_map_iff. now exists k.
Qed.

(** C10. Strategy B, sequencing. The stage loop around the sequencing
    constraint issues, for each consecutive operation pair [(k, k + 1)] of
    a job [j], [num_stages] copies of one and the same named inequality
    (the generator expression binds its own [t]), which reads
    [sum_t' t' x[j,k+1,t'] >= sum_t (t+1) x[j,k,t]]; the model so built has
    the same feasible region as the model that issues the inequality once
    per consecutive pair. *)
Theorem strategyB_sequencing_copies
  (jobs : jobdict) (machines : list nat) (num_stages : nat) :
  Stage2.sequencing jobs num_stages
  = (flat_map (fun jr =>
       flat_map (fun k =>
         repeat (AddConstr (Some ("seq_" ++ str (fst jr) ++ "_" ++ str k)%string)
                           (Stage2.seq_constr num_stages (fst jr) k))
                num_stages)
         (range (length (snd jr) - 1))) jobs,
     inr tt)
  /\ (forall rho j k,
        sat rho (Stage2.seq_constr num_stages j k)
        <-> qsum (map (fun t => Qn (t + 1) * rho (Stage2.x j k t)) (range num_stages))
            <= qsum (map (fun t' => Qn t' * rho (Stage2.x j (k + 1) t'))
                         (range num_stages)))
  /\ (forall rho,
        feasible rho (calls (Stage2.build jobs machines num_stages))
        <-> feasible rho (calls (build_once jobs machines num_stages)))
  /\ outcome (Stage2.build jobs machines num_stages)
     = outcome (build_once jobs machines num_stages).
Proof.
  split; [apply sequencing_calls|]. split.
  - intros rho j k. unfold sat, Stage2.seq_constr. cbn [rel lhs rhs].
    rewrite !eval_quicksum, !map_map. cbn [eval]. reflexivity.
  - assert (Hs : outcome (Stage2.sequencing jobs num_stages) = inr tt)
      by now rewrite sequencing_calls.
    assert (Ho : outcome (sequencing_once jobs num_stages) = inr tt)
      by now rewrite sequencing_once_calls.
    split.
    + intros rho. unfold Stage2.build, build_once.
      rewrite (calls_seq (Stage2.declare_vars jobs num_stages) _ tt)
        by apply declare_vars2_ok.
      rewrite (calls_seq (Stage2.assign jobs num_stages) _ tt)
        by apply assign2_ok.
      rewrite (calls_seq (Stage2.sequencing jobs num_stages) _ tt) by exact Hs.
      rewrite (calls_seq (Stage2.declare_vars jobs num_stages) _ tt)
        by apply declare_vars2_ok.
      rewrite (calls_seq (Stage2.assign jobs num_stages) _ tt)
        by apply assign2_ok.
      rewrite (calls_seq (sequencing_once jobs num_stages) _ tt) by exact Ho.
      rewrite !feasible_app, sequencing_region. reflexivity.
    + unfold Stage2.build, build_once.
      rewrite (outcome_seq (Stage2.declare_vars jobs num_stages) _ tt)
        by apply declare_vars2_ok.
      rewrite (outcome_seq (Stage2.assign jobs num_stages) _ tt)
        by apply assign2_ok.
      rewrite (outcome_seq (Stage2.sequencing jobs num_stages) _ tt) by exact Hs.
      rewrite (outcome_seq (Stage2.declare_vars jobs num_stages) _ tt)
        by apply declare_vars2_ok.
      rewrite (outcome_seq (Stage2.assign jobs num_stages) _ tt)
        by apply assign2_ok.
      rewrite (outcome_seq (sequencing_once jobs num_stages) _ tt) by exact Ho.
      reflexivity.
Qed.

Lemma in_calls_l {W A B} (m : script W A) (f : A -> script W B) (c : W) :
  In c (calls m) -> In c (calls (bind m f)).
Proof.
  destruct m as [w [e|a]]; unfold calls; simpl; [auto|].
  destruct (f a) as [w' r]. simpl. intros H. apply in_or_app. now left.
Qed.

Lemma in_calls_r {W A} (m : script W A) (k : script W unit) (a : A) (c : W) :
  outcome m = inr a -> In c (calls k) -> In c (calls (m ;; k)).
Proof.
  intros H Hc. rewrite (calls_seq m k a H). apply in_or_app. now right.
Qed.

Lemma in_for_calls {W A} (l : list A) (body : A -> script W unit) (c : W) :
  (forall x, In x l -> outcome (body x) = inr tt) ->
  In c (calls (for_ l body)) <-> exists x, In x l /\ In c (calls (body x)).
Proof.
  intros H. rewrite for_ok by exact H. unfold calls at 1. cbn [fst].
  apply in_flat_map.
Qed.

(** ** Strategy C *)

Lemma catalog3_ok routes :
  outcome (Stage3.catalog routes)
  = inr (Stage3.jobs routes, Stage3.machines routes, Stage3.K routes).
Proof. reflexivity. Qed.

Lemma declare_vars3_ok routes : outcome (Stage3.declare_vars routes) = inr tt.
Proof.
  unfold Stage3.declare_vars.
  rewrite (outcome_seq _ _ tt) by never_raises.
  rewrite (outcome_seq _ _ tt) by never_raises.
  reflexivity.
Qed.

Lemma one_per_stage3_ok routes : outcome (Stage3.one_per_stage routes) = inr tt.
Proof. unfold Stage3.one_per_stage. never_raises. Qed.

Lemma each_once3_ok routes : outcome (Stage3.each_once routes) = inr tt.
Proof. unfold Stage3.each_once. never_raises. Qed.

Lemma recursion3_ok routes : outcome (Stage3.recursion routes) = inr tt.
Proof. unfold Stage3.recursion. never_raises. Qed.

Lemma makespan3_ok routes : outcome (Stage3.makespan routes) = inr tt.
Proof. unfold Stage3.makespan. never_raises. Qed.

Lemma precedence3_ok routes : outcome (Stage3.precedence routes) = inr tt.
Proof. unfold Stage3.precedence. never_raises. Qed.

(** The script of stage 3 never raises, whatever the routes. *)
Lemma build3_ok routes : outcome (Stage3.build routes) = inr tt.
Proof.
  unfold Stage3.build.
  rewrite (outcome_seq _ _ _ (catalog3_ok routes)).
  rewrite (outcome_seq _ _ tt (declare_vars3_ok routes)).
  rewrite (outcome_seq _ _ tt (one_per_stage3_ok routes)).
  rewrite (outcome_seq _ _ tt (each_once3_ok routes)).
  rewrite (outcome_seq _ _ tt (recursion3_ok routes)).
  rewrite (outcome_seq _ _ tt (makespan3_ok routes)).
  rewrite (outcome_seq _ _ tt (precedence3_ok routes)).
  reflexivity.
Qed.

Lemma build3_calls routes :
  calls (Stage3.build routes)
  = calls (Stage3.declare_vars routes) ++ calls (Stage3.one_per_stage routes)
    ++ calls (Stage3.each_once routes) ++ calls (Stage3.recursion routes)
    ++ calls (Stage3.makespan routes) ++ calls (Stage3.precedence routes)
    ++ [SetObjective (Var Stage3.Cmax)].
Proof.
  unfold Stage3.build.
  rewrite (calls_seq _ _ _ (catalog3_ok routes)).
  rewrite (calls_seq _ _ tt (declare_vars3_ok routes)).
  rewrite (calls_seq _ _ tt (one_per_stage3_ok routes)).
  rewrite (calls_seq _ _ tt (each_once3_ok routes)).
  rewrite (calls_seq _ _ tt (recursion3_ok routes)).
  rewrite (calls_seq _ _ tt (makespan3_ok routes)).
  rewrite (calls_seq _ _ tt (precedence3_ok routes)).
  reflexivity.
Qed.

Lemma precedence3_calls routes :
  calls (Stage3.precedence routes)
  = flat_map (fun jr =>
      flat_map (fun t =>
        map (fun k2 => AddConstr None (Stage3.precedence_constr (fst jr) t k2))
            (range (Stage3.K routes)))
        (range2 1 (length (snd jr)))) routes.
Proof.
  unfold Stage3.precedence. rewrite for_ok by never_raises.
  unfold calls at 1. cbn [fst].
  apply flat_map_ext. intros [i r]. cbn [fst snd].
  rewrite for_ok by never_raises. unfold calls at 1. cbn [fst].
  apply flat_map_ext. intros t.
  rewrite for_ok by never_raises. unfold calls at 1. cbn [fst].
  exact (flat_map_single _ _).
Qed.

(** C4. Strategy C, precedence. For every job [i] with route [r], every
    operation index [t] from the second on ([1 <= t < len r], predecessor
    [t - 1]) and every stage [k2 < K], the script adds the constraint
    [sum_{k1 <= k2} eta[k1,i,t-1] >= eta[k2,i,t]]; a valuation satisfies it
    exactly when the number of stages up to [k2] given to the predecessor
    is at least the successor's indicator at [k2]; and the precedence loop
    adds nothing else. *)
Theorem strategyC_precedence
  (routes : jobdict) (i : nat) (r : route) (t k2 : nat) :
  In (i, r) routes -> (1 <= t < length r)%nat -> (k2 < count_ops routes)%nat ->
  let c := Constr (quicksum (map (fun k1 => Var (Stage3.eta k1 i (t - 1)))
                                 (seq 0 (k2 + 1))))
                  GE (Var (Stage3.eta k2 i t)) in
  In (AddConstr None c) (calls (Stage3.build routes))
  /\ (forall rho,
        sat rho c
        <-> rho (Stage3.eta k2 i t)
            <= qsum (map (fun k1 => rho (Stage3.eta k1 i (t - 1))) (seq 0 (k2 + 1))))
  /\ calls (Stage3.precedence routes)
     = flat_map (fun jr =>
         flat_map (fun t' =>
           map (fun k2' =>
             AddConstr None
               (Constr (quicksum (map (fun k1 => Var (Stage3.eta k1 (fst jr) (t' - 1)))
                                      (seq 0 (k2' + 1))))
                       GE (Var (Stage3.eta k2' (fst jr) t'))))
             (seq 0 (count_ops routes)))
           (seq 1 (length (snd jr) - 1))) routes.
Proof.
  intros Hi Ht Hk c. split; [|split].
  - rewrite build3_calls. rewrite precedence3_calls.
    do 5 (apply in_or_app; right). apply in_or_app; left.
    apply in_flat_map. exists (i, r). split; [exact Hi|]. cbn [fst snd].
    apply in_flat_map. exists t. split; [apply in_seq; lia|].
    apply in_map_iff. exists k2. split.
    + unfold Stage3.precedence_constr, c, range, range2.
      now rewrite Nat.sub_0_r.
    + unfold range, range2, Stage3.K. apply in_seq. lia.
  - intros rho. unfold sat, c. cbn [rel lhs rhs].
    rewrite eval_quicksum, map_map. cbn [eval]. reflexivity.
  - rewrite precedence3_calls. unfold range, range2, Stage3.K.
    rewrite Nat.sub_0_r. apply flat_map_ext. intros jr.
    apply flat_map_ext. intros t'. apply map_ext. intros k2'.
    unfold Stage3.precedence_constr, range, range2. now rewrite Nat.sub_0_r.
Qed.

Lemma strategyC_precedence_witness :
  In (AddConstr None
        (Constr (quicksum [Var (Stage3.eta 0 1 0); Var (Stage3.eta 1 1 0);
                           Var (Stage3.eta 2 1 0)])
                GE (Var (Stage3.eta 2 1 1))))
     (calls (Stage3.build Stage3.routes)).
Proof.
  apply (strategyC_precedence Stage3.routes 1 (snd (nth 0 Stage3.routes (0%nat, [])))
           1 2).
  - simpl. now left.
  - simpl. lia.
  - vm_compute. lia.
Defined.

(** ** Strategy D *)

Lemma catalog4_ok routes :
  outcome (Stage4.catalog routes)
  = inr (Stage4.jobs routes, Stage4.machines routes, Stage4.K routes).
Proof. reflexivity. Qed.

Lemma declare_vars4_ok routes : outcome (Stage4.declare_vars routes) = inr tt.
Proof.
  unfold Stage4.declare_vars.
  rewrite (outcome_seq _ _ tt) by never_raises.
  rewrite (outcome_seq _ _ tt) by never_raises.
  rewrite (outcome_seq _ _ tt) by never_raises.
  rewrite (outcome_seq _ _ tt) by never_raises.
  never_raises.
Qed.

Lemma initial4_ok routes : outcome (Stage4.initial routes) = inr tt.
Proof. unfold Stage4.initial. never_raises. Qed.

Lemma capacity4_ok routes : outcome (Stage4.capacity routes) = inr tt.
Proof. unfold Stage4.capacity. never_raises. Qed.

Lemma each_once4_ok routes : outcome (Stage4.each_once routes) = inr tt.
Proof. unfold Stage4.each_once. never_raises. Qed.

Lemma recursion4_ok routes : outcome (Stage4.recursion routes) = inr tt.
Proof. unfold Stage4.recursion. never_raises. Qed.

Lemma makespan4_ok routes : outcome (Stage4.makespan routes) = inr tt.
Proof. unfold Stage4.makespan. never_raises. Qed.

Lemma precedence4_ok routes : outcome (Stage4.precedence routes) = inr tt.
Proof. unfold Stage4.precedence. never_raises. Qed.

Lemma waiting4_ok routes : outcome (Stage4.waiting routes) = inr tt.
Proof. unfold Stage4.waiting. never_raises. Qed.

(** The calls of stage 4 up to the job-completion loop, the only place
    where the script can raise. *)
Lemma build4_calls routes :
  calls (Stage4.build routes)
  = calls (Stage4.declare_vars routes) ++ calls (Stage4.initial routes)
    ++ calls (Stage4.capacity routes) ++ calls (Stage4.each_once routes)
    ++ calls (Stage4.recursion routes) ++ calls (Stage4.makespan routes)
    ++ calls (Stage4.precedence routes) ++ calls (Stage4.waiting routes)
    ++ calls (Stage4.job_completion routes ;; setObjective (Stage4.obj routes)).
Proof.
  unfold Stage4.build.
  rewrite (calls_seq _ _ _ (catalog4_ok routes)).
  rewrite (calls_seq _ _ tt (declare_vars4_ok routes)).
  rewrite (calls_seq _ _ tt (initial4_ok routes)).
  rewrite (calls_seq _ _ tt (capacity4_ok routes)).
  rewrite (calls_seq _ _ tt (each_once4_ok routes)).
  rewrite (calls_seq _ _ tt (recursion4_ok routes)).
  rewrite (calls_seq _ _ tt (makespan4_ok routes)).
  rewrite (calls_seq _ _ tt (precedence4_ok routes)).
  rewrite (calls_seq _ _ tt (waiting4_ok routes)).
  reflexivity.
Qed.

Lemma precedence4_calls routes :
  calls (Stage4.precedence routes)
  = flat_map (fun jr =>
      flat_map (fun t =>
        flat_map (fun k1 =>
          map (fun k2 =>
            AddConstr None
              (Stage4.precedence_constr routes (fst jr) t
                 (fst (nth t (snd jr) (0%nat, 0)))
                 (fst (nth (t + 1) (snd jr) (0%nat, 0))) k1 k2))
            (range (Stage4.S routes)))
          (range (Stage4.S routes)))
        (range (length (snd jr) - 1))) routes.
Proof.
  unfold Stage4.precedence. rewrite for_ok by never_raises.
  unfold calls at 1. cbn [fst].
  apply flat_map_ext. intros [i r]. cbn [fst snd].
  rewrite for_ok by never_raises. unfold calls at 1. cbn [fst].
  apply flat_map_ext. intros t. cbv zeta.
  rewrite for_ok by never_raises. unfold calls at 1. cbn [fst].
  apply flat_map_ext. intros k1.
  rewrite for_ok by never_raises. unfold calls at 1. cbn [fst].
  exact (flat_map_single _ _).
Qed.

Lemma in_range n k : In k (range n) <-> (k < n)%nat.
Proof. unfold range, range2. rewrite in_seq. lia. Qed.

Lemma in_precedence4 routes i r t k1 k2 :
  In (i, r) routes -> (t + 1 < length r)%nat ->
  (k1 < count_ops routes)%nat -> (k2 < count_ops routes)%nat ->
  In (AddConstr None
        (Stage4.precedence_constr routes i t
           (fst (nth t r (0%nat, 0))) (fst (nth (t + 1) r (0%nat, 0))) k1 k2))
     (calls (Stage4.build routes)).
Proof.
  intros Hi Ht Hk1 Hk2. rewrite build4_calls, precedence4_calls.
  do 6 (apply in_or_app; right). apply in_or_app; left.
  apply in_flat_map. exists (i, r). split; [exact Hi|]. cbn [fst snd].
  apply in_flat_map. exists t. split; [apply in_range; unfold route, operation in *; lia|].
  apply in_flat_map. exists k1. split; [apply in_range; exact Hk1|].
  apply in_map_iff. exists k2. split; [reflexivity|apply in_range; exact Hk2].
Qed.

(** ** Sums of rationals *)

Lemma qsum_app l1 l2 : qsum (l1 ++ l2) == qsum l1 + qsum l2.
Proof.
  induction l1 as [|a l1 IH]; simpl; [lra|]. rewrite IH. lra.
Qed.

Lemma qsum_map_add {A} (f g : A -> Q) l :
  qsum (map (fun a => f a + g a) l) == qsum (map f l) + qsum (map g l).
Proof.
  induction l as [|a l IH]; simpl; [lra|]. rewrite IH. lra.
Qed.


Lemma qsum_map_eq {A} (f g : A -> Q) l :
  (forall a, In a l -> f a == g a) -> qsum (map f l) == qsum (map g l).
Proof.
  induction l as [|a l IH]; intros H; simpl; [lra|].
  rewrite (H a) by now left. rewrite IH; [lra|]. intros; apply H; now right.
Qed.

Lemma qsum_nonneg {A} (f : A -> Q) l :
  (forall a, In a l -> 0 <= f a) -> 0 <= qsum (map f l).
Proof.
  induction l as [|a l IH]; intros H; simpl; [lra|].
  assert (0 <= f a) by (apply H; now left).
  assert (0 <= qsum (map f l)) by (apply IH; intros; apply H; now right).
  lra.
Qed.

Lemma qsum_filter_le {A} (f : A -> Q) (p : A -> bool) l :
  (forall a, In a l -> 0 <= f a) ->
  qsum (map f (filter p l)) <= qsum (map f l).
Proof.
  induction l as [|a l IH]; intros H; simpl; [lra|].
  assert (0 <= f a) by (apply H; now left).
  assert (qsum (map f (filter p l)) <= qsum (map f l))
    by (apply IH; intros; apply H; now right).
  destruct (p a); simpl; lra.
Qed.


Lemma qsum_in_le {A} (f : A -> Q) l a :
  (forall b, In b l -> 0 <= f b) -> In a l -> f a <= qsum (map f l).
Proof.
  induction l as [|b l IH]; intros H Ha; [contradiction|]. simpl.
  assert (0 <= f b) by (apply H; now left).
  assert (0 <= qsum (map f l)) by (apply qsum_nonneg; intros; apply H; now right).
  destruct Ha as [->|Ha]; [lra|].
  assert (f a <= qsum (map f l)) by (apply IH; [intros; apply H; now right|exact Ha]).
  lra.
Qed.

Lemma range_S n : range (Datatypes.S n) = range n ++ [n].
Proof. unfold range, range2. rewrite !Nat.sub_0_r. now rewrite seq_S. Qed.

(** A partial sum of non-negative terms is below the whole sum. *)
Lemma qsum_range_mono (f : nat -> Q) k n :
  (k <= n)%nat -> (forall j, (j < n)%nat -> 0 <= f j) ->
  qsum (map f (range k)) <= qsum (map f (range n)).
Proof.
  intros Hk Hf. induction n as [|n IH].
  - assert (k = 0)%nat by lia. subst. lra.
  - destruct (Nat.eq_dec k (Datatypes.S n)) as [->|Hne]; [lra|].
    rewrite range_S, map_app, qsum_app. simpl.
    assert (qsum (map f (range k)) <= qsum (map f (range n)))
      by (apply IH; [lia|intros; apply Hf; lia]).
    assert (0 <= f n) by (apply Hf; lia).
    lra.
Qed.

(** ** Busy time of a machine *)

Lemma map_nth_range {A} (l : list A) (d : A) :
  map (fun t => nth t l d) (range (length l)) = l.
Proof.
  unfold range, range2. rewrite Nat.sub_0_r.
  induction l as [|a l IH]; simpl; [reflexivity|].
  f_equal. rewrite <- seq_shift, map_map. exact IH.
Qed.

Lemma in_placed_ops routes i t o :
  In (i, t, o) (placed_ops routes)
  <-> exists r, In (i, r) routes /\ (t < length r)%nat /\ o = nth t r (0%nat, 0).
Proof.
  unfold placed_ops. rewrite in_flat_map. split.
  - intros [[i' r] [Hr H]]. apply in_map_iff in H. destruct H as [t' [E Ht]].
    inversion E; subst. exists r. rewrite in_range in Ht. auto.
  - intros [r [Hr [Ht ->]]]. exists (i, r). split; [exact Hr|].
    apply in_map_iff. exists t. split; [reflexivity|now apply in_range].
Qed.

Lemma placed_ops_durations routes :
  qsum (map (fun e => snd (snd e)) (placed_ops routes)) == sum_durations routes.
Proof.
  unfold placed_ops, sum_durations.
  induction routes as [|[i r] routes IH]; simpl; [reflexivity|].
  rewrite map_app, !qsum_app, IH. rewrite map_map. cbn [snd].
  rewrite <- (map_nth_range r (0%nat, 0)) at 2. rewrite map_map. reflexivity.
Qed.

(** The busy time, operation by operation: each operation of the machine
    counts its duration times the number of stages before [k] it holds. *)
Lemma busy_time_by_op routes x k m :
  busy_time routes x k m
  == qsum (map (fun e => snd (snd e)
                         * qsum (map (fun k' => x k' (fst (fst e)) (snd (fst e)))
                                     (range k)))
               (filter (fun e => Nat.eqb (fst (snd e)) m) (placed_ops routes))).
Proof.
  induction k as [|k IH]; cbn [busy_time].
  - symmetry. rewrite (qsum_map_eq _ (fun _ => 0)).
    + induction (filter _ _); simpl; [reflexivity|]. rewrite IHl. lra.
    + intros e _. unfold range, range2. simpl. lra.
  - rewrite IH. unfold stage_load. rewrite <- qsum_map_add.
    apply qsum_map_eq. intros e _.
    rewrite range_S, map_app, qsum_app. simpl. lra.
Qed.


Lemma placed_ops_nonneg routes :
  (forall i r mp, In (i, r) routes -> In mp r -> 0 <= snd mp) ->
  forall e, In e (placed_ops routes) -> 0 <= snd (snd e).
Proof.
  intros Hp [[i t] o] He. apply in_placed_ops in He.
  destruct He as [r [Hr [Ht ->]]]. apply (Hp i r); [exact Hr|]. now apply nth_In.
Qed.



Lemma flat_map_if_map {A B C} (p : B -> bool) (f : B -> C) (h : A -> B) l :
  flat_map (fun a => if p (h a) then [f (h a)] else []) l
  = map f (filter p (map h l)).
Proof.
  induction l as [|a l IH]; simpl; [reflexivity|].
  destruct (p (h a)); simpl; now rewrite IH.
Qed.

Lemma on_machine_placed routes w k m :
  Stage4.on_machine routes w k m
  = map (fun e => w (snd e) (Var (Stage4.eta k (fst (fst e)) (snd (fst e)))))
        (filter (fun e => Nat.eqb (fst (snd e)) m) (placed_ops routes)).
Proof.
  unfold Stage4.on_machine, placed_ops.
  induction routes as [|[i r] routes IH]; [reflexivity|].
  cbn [flat_map]. rewrite filter_app, map_app. f_equal; [|exact IH].
  exact (flat_map_if_map (fun e => Nat.eqb (fst (snd e)) m)
           (fun e => w (snd e) (Var (Stage4.eta k (fst (fst e)) (snd (fst e)))))
           (fun t => (i, t, nth t r (0%nat, 0))) (range (length r))).
Qed.

(** The load term of the recursion of stage 4 is the stage load under the
    placement the valuation gives. *)
Lemma eval_load4 routes rho k m :
  eval rho (quicksum (Stage4.on_machine routes (fun o e => Scale (snd o) e) k m))
  == stage_load routes (fun k i t => rho (Stage4.eta k i t)) k m.
Proof.
  rewrite eval_quicksum, on_machine_placed, map_map. unfold stage_load.
  apply qsum_map_eq. intros e _. reflexivity.
Qed.

Lemma eta_declared4 routes i r t k :
  In (i, r) routes -> (t < length r)%nat -> (k < count_ops routes)%nat ->
  In (AddVar (Stage4.eta k i t) BINARY 0) (calls (Stage4.build routes)).
Proof.
  intros Hi Ht Hk. rewrite build4_calls. apply in_or_app; left.
  unfold Stage4.declare_vars.
  apply (in_calls_r _ _ tt); [never_raises|]. apply in_calls_l.
  apply in_for_calls; [never_raises|]. exists k. split; [now apply in_range|].
  apply in_for_calls; [never_raises|]. exists (i, r). split; [exact Hi|].
  apply in_for_calls; [never_raises|]. exists t. split; [now apply in_range|].
  now left.
Qed.

Lemma each_once_added4 routes i r t :
  In (i, r) routes -> (t < length r)%nat ->
  In (AddConstr None
        (Constr (quicksum (map (fun k => Var (Stage4.eta k i t))
                               (range (count_ops routes))))
                EQ (Const 1)))
     (calls (Stage4.build routes)).
Proof.
  intros Hi Ht. rewrite build4_calls. do 3 (apply in_or_app; right).
  apply in_or_app; left. unfold Stage4.each_once.
  apply in_for_calls; [never_raises|]. exists (i, r). split; [exact Hi|].
  apply in_for_calls; [never_raises|]. exists t. split; [now apply in_range|].
  now left.
Qed.

Lemma initial_added4 routes m :
  In m (machines_of routes) ->
  In (AddConstr None (Constr (Var (Stage4.Theta 0 m)) EQ (Const 0)))
     (calls (Stage4.build routes)).
Proof.
  intros Hm. rewrite build4_calls. apply in_or_app; right.
  apply in_or_app; left. unfold Stage4.initial.
  apply in_for_calls; [never_raises|]. exists m. split; [exact Hm|]. now left.
Qed.

Lemma recursion_added4 routes k m :
  (k < count_ops routes)%nat -> In m (machines_of routes) ->
  In (AddConstr None
        (Constr (Var (Stage4.Theta (k + 1) m)) GE
           (Add (Var (Stage4.Theta k m))
                (quicksum (Stage4.on_machine routes
                             (fun o e => Scale (snd o) e) k m)))))
     (calls (Stage4.build routes)).
Proof.
  intros Hk Hm. rewrite build4_calls. do 4 (apply in_or_app; right).
  apply in_or_app; left. unfold Stage4.recursion.
  apply in_for_calls; [never_raises|]. exists k. split; [now apply in_range|].
  apply in_for_calls; [never_raises|]. exists m. split; [exact Hm|]. now left.
Qed.

(** In a feasible point of the stage 4 model every placement indicator is
    0 or 1 and every operation holds exactly one stage. *)
Lemma placement_feasible4 routes rho :
  feasible rho (calls (Stage4.build routes)) ->
  (forall i t o j, In (i, t, o) (placed_ops routes) ->
     (j < count_ops routes)%nat ->
     rho (Stage4.eta j i t) == 0 \/ rho (Stage4.eta j i t) == 1)
  /\ (forall i t o, In (i, t, o) (placed_ops routes) ->
        qsum (map (fun j => rho (Stage4.eta j i t)) (range (count_ops routes))) == 1).
Proof.
  intros F. split.
  - intros i t o j He Hj. apply in_placed_ops in He. destruct He as [r [Hr [Ht _]]].
    exact (feasible_in _ _ _ _ F (eta_declared4 routes i r t j Hr Ht Hj)).
  - intros i t o He. apply in_placed_ops in He. destruct He as [r [Hr [Ht _]]].
    pose proof (feasible_in _ _ _ _ F (each_once_added4 routes i r t Hr Ht)) as H.
    cbn [respects] in H. unfold sat in H. cbn [rel lhs rhs] in H.
    rewrite eval_quicksum, map_map in H. exact H.
Qed.

(** In a feasible point of the stage 4 model [Theta[k, m]] is at least the
    busy time of machine [m] through stage [k]. *)
Lemma theta_at_least_busy4 routes rho k m :
  feasible rho (calls (Stage4.build routes)) ->
  In m (machines_of routes) -> (k <= count_ops routes)%nat ->
  busy_time routes (fun k i t => rho (Stage4.eta k i t)) k m
  <= rho (Stage4.Theta k m).
Proof.
  intros F Hm. induction k as [|k IH]; intros Hk; cbn [busy_time].
  - pose proof (feasible_in _ _ _ _ F (initial_added4 routes m Hm)) as H.
    cbn [respects] in H. unfold sat in H. cbn [rel lhs rhs eval] in H. lra.
  - assert (Hk' : (k < count_ops routes)%nat) by lia.
    pose proof (feasible_in _ _ _ _ F (recursion_added4 routes k m Hk' Hm)) as H.
    cbn [respects] in H. unfold sat in H. cbn [rel lhs rhs] in H.
    cbn [eval] in H. rewrite eval_load4 in H.
    replace (Datatypes.S k) with (k + 1)%nat by lia.
    assert (busy_time routes (fun k i t => rho (Stage4.eta k i t)) k m
            <= rho (Stage4.Theta k m)) by (apply IH; lia).
    lra.
Qed.

(** *** The derived machine set *)

Lemma in_insert_sorted x m l : In x (insert_sorted m l) <-> x = m \/ In x l.
Proof.
  induction l as [|y l IH]; simpl; [intuition congruence|].
  destruct (Nat.ltb m y); [simpl; intuition congruence|].
  destruct (Nat.eqb m y) eqn:E.
  - apply Nat.eqb_eq in E. subst. simpl. intuition congruence.
  - simpl. rewrite IH. intuition congruence.
Qed.

Lemma in_sorted_set x l : In x (sorted_set l) <-> In x l.
Proof.
  induction l as [|y l IH]; simpl; [reflexivity|].
  rewrite in_insert_sorted, IH. intuition congruence.
Qed.

(** A machine is in the derived machine set exactly when some operation of
    some route runs on it. *)
Lemma in_machines_of routes m :
  In m (machines_of routes)
  <-> exists i r p, In (i, r) routes /\ In (m, p) r.
Proof.
  unfold machines_of. rewrite in_sorted_set, in_flat_map. split.
  - intros [[i r] [Hr Hm]]. cbn [snd] in Hm. apply in_map_iff in Hm.
    destruct Hm as [[m' p] [E Hmp]]. cbn [fst] in E. subst.
    now exists i, r, p.
  - intros [i [r [p [Hr Hm]]]]. exists (i, r). split; [exact Hr|].
    cbn [snd]. apply in_map_iff. now exists (m, p).
Qed.

(** The machine set of stages 3 and 4, [sorted({m for ops in
    routes.values() for (m, _) in ops})], holds exactly the machines that
    some operation of some route names. *)
Lemma machine_set_exact (routes : jobdict) (m : nat) :
  In m (Stage3.machines routes) <-> exists i r p, In (i, r) routes /\ In (m, p) r.
Proof. exact (in_machines_of routes m). Qed.

Lemma machine_of_op routes i r t :
  In (i, r) routes -> (t < length r)%nat ->
  In (fst (nth t r (0%nat, 0))) (machines_of routes).
Proof.
  intros Hr Ht. apply in_machines_of.
  exists i, r, (snd (nth t r (0%nat, 0))). split; [exact Hr|].
  rewrite <- surjective_pairing. now apply nth_In.
Qed.


Lemma schedule_D_feasible : feasible schedule_D Stage4.model.
Proof. apply feasibleb_feasible. vm_compute. reflexivity. Qed.

Lemma routes4_nonneg :
  forall j r' mp, In (j, r') Stage4.routes -> In mp r' -> 0 <= snd mp.
Proof.
  intros j r' mp Hr Hmp. unfold Stage4.routes in Hr. simpl in Hr.
  destruct Hr as [E|[E|[]]]; inversion E; subst; simpl in Hmp;
    destruct Hmp as [<-|[<-|[]]]; simpl; lra.
Qed.





(** ** Machine availability in Strategies C and D *)

Lemma eval_quicksum_nonneg V (rho : valuation V) (l : list (expr V)) :
  (forall e, In e l -> 0 <= eval rho e) -> 0 <= eval rho (quicksum l).
Proof.
  intros H. rewrite eval_quicksum.
  rewrite <- (map_id (map (eval rho) l)). apply qsum_nonneg.
  intros q Hq. apply in_map_iff in Hq. destruct Hq as [e [<- He]]. now apply H.
Qed.

Lemma binary_nonneg (q : Q) : q == 0 \/ q == 1 -> 0 <= q.
Proof. intros [H|H]; rewrite H; lra. Qed.

Lemma in_all_ops routes i t :
  In (i, t) (all_ops routes) <-> exists r, In (i, r) routes /\ (t < length r)%nat.
Proof.
  unfold all_ops. rewrite in_flat_map. split.
  - intros [[i' r] [Hr H]]. apply in_map_iff in H. destruct H as [t' [E Ht]].
    inversion E; subst. exists r. rewrite in_range in Ht. auto.
  - intros [r [Hr Ht]]. exists (i, r). split; [exact Hr|].
    apply in_map_iff. exists t. split; [reflexivity|now apply in_range].
Qed.

Lemma route_of_in routes i :
  route_of routes i = [] \/ In (i, route_of routes i) routes.
Proof.
  unfold route_of. destruct (find _ routes) as [[j r]|] eqn:E; [|now left].
  right. apply find_some in E. destruct E as [Hin Heq]. cbn [fst] in Heq.
  apply Nat.eqb_eq in Heq. subst. exact Hin.
Qed.

Lemma op_at_nonneg routes i t :
  (forall j r mp, In (j, r) routes -> In mp r -> 0 <= snd mp) ->
  0 <= snd (op_at routes i t).
Proof.
  intros Hp. unfold op_at.
  destruct (nth_in_or_default t (route_of routes i) (0%nat, 0)) as [H|H].
  - destruct (route_of_in routes i) as [E|Hr].
    + rewrite E in H. contradiction.
    + exact (Hp i _ _ Hr H).
  - rewrite H. simpl. lra.
Qed.

Lemma eta_declared3 routes i t k :
  In (i, t) (all_ops routes) -> (k < count_ops routes)%nat ->
  In (AddVar (Stage3.eta k i t) BINARY 0) (calls (Stage3.build routes)).
Proof.
  intros Hi Hk. rewrite build3_calls. apply in_or_app; left.
  unfold Stage3.declare_vars.
  apply (in_calls_r _ _ tt); [never_raises|]. apply in_calls_l.
  apply in_for_calls; [never_raises|]. exists k. split; [now apply in_range|].
  apply in_for_calls; [never_raises|]. exists (i, t). split; [exact Hi|].
  now left.
Qed.

Lemma theta_declared3 routes k m :
  (k <= count_ops routes)%nat -> In m (machines_of routes) ->
  In (AddVar (Stage3.Theta k m) CONTINUOUS 0) (calls (Stage3.build routes)).
Proof.
  intros Hk Hm. rewrite build3_calls. apply in_or_app; left.
  unfold Stage3.declare_vars. apply in_calls_l.
  apply in_for_calls; [never_raises|]. exists k.
  split; [apply in_range; unfold Stage3.K; lia|].
  apply in_for_calls; [never_raises|]. exists m. split; [exact Hm|]. now left.
Qed.

Lemma recursion_added3 routes k m :
  (k < count_ops routes)%nat -> In m (machines_of routes) ->
  In (AddConstr None
        (Constr (Var (Stage3.Theta (k + 1) m)) GE
           (Add (Var (Stage3.Theta k m)) (Stage3.load routes k m))))
     (calls (Stage3.build routes)).
Proof.
  intros Hk Hm. rewrite build3_calls. do 3 (apply in_or_app; right).
  apply in_or_app; left. unfold Stage3.recursion.
  apply in_for_calls; [never_raises|]. exists k. split; [now apply in_range|].
  apply in_for_calls; [never_raises|]. exists m. split; [exact Hm|]. now left.
Qed.

Lemma load3_nonneg routes rho k m :
  (forall j r mp, In (j, r) routes -> In mp r -> 0 <= snd mp) ->
  feasible rho (calls (Stage3.build routes)) ->
  (k < count_ops routes)%nat ->
  0 <= eval rho (Stage3.load routes k m).
Proof.
  intros Hp F Hk. unfold Stage3.load. apply eval_quicksum_nonneg.
  intros e He. apply in_map_iff in He. destruct He as [[i t] [<- Hit]].
  apply filter_In in Hit. destruct Hit as [Hit _]. cbn [eval].
  pose proof (feasible_in _ _ _ _ F (eta_declared3 routes i t k Hit Hk)) as Hb.
  cbn [respects] in Hb. apply binary_nonneg in Hb.
  pose proof (op_at_nonneg routes i t Hp). nra.
Qed.

Lemma load4_nonneg routes rho k m :
  (forall j r mp, In (j, r) routes -> In mp r -> 0 <= snd mp) ->
  feasible rho (calls (Stage4.build routes)) ->
  (k < count_ops routes)%nat ->
  0 <= stage_load routes (fun k i t => rho (Stage4.eta k i t)) k m.
Proof.
  intros Hp F Hk. unfold stage_load. apply qsum_nonneg.
  intros [[i t] o] He. apply filter_In in He. destruct He as [He _].
  cbn [fst snd].
  destruct (placement_feasible4 routes rho F) as [Hbin _].
  pose proof (binary_nonneg _ (Hbin i t o k He Hk)).
  pose proof (placed_ops_nonneg routes Hp _ He) as Hd. cbn [snd] in Hd. nra.
Qed.

(** C5, as the scripts have it. With non-negative durations: in every
    feasible point of the Strategy D model, [Theta[0,m] = 0] for every
    machine and [Theta[k+1,m] >= Theta[k,m]] for every stage and machine;
    in every feasible point of the Strategy C model [Theta] is
    non-decreasing in the same way, but its first value is only bounded
    below, [Theta[0,m] >= 0]: that script adds no constraint that fixes
    it. *)
Theorem theta_initial_and_monotone (routes : jobdict) :
  (forall j r mp, In (j, r) routes -> In mp r -> 0 <= snd mp) ->
  (forall rho, feasible rho (calls (Stage4.build routes)) ->
     forall m, In m (machines_of routes) ->
       rho (Stage4.Theta 0 m) == 0
       /\ forall k, (k < count_ops routes)%nat ->
            rho (Stage4.Theta k m) <= rho (Stage4.Theta (k + 1) m))
  /\ (forall rho, feasible rho (calls (Stage3.build routes)) ->
        forall m, In m (machines_of routes) ->
          0 <= rho (Stage3.Theta 0 m)
          /\ forall k, (k < count_ops routes)%nat ->
               rho (Stage3.Theta k m) <= rho (Stage3.Theta (k + 1) m)).
Proof.
  intros Hp. split; intros rho F m Hm; split.
  - pose proof (feasible_in _ _ _ _ F (initial_added4 routes m Hm)) as H.
    cbn [respects] in H. unfold sat in H. cbn [rel lhs rhs eval] in H. exact H.
  - intros k Hk.
    pose proof (feasible_in _ _ _ _ F (recursion_added4 routes k m Hk Hm)) as H.
    cbn [respects] in H. unfold sat in H. cbn [rel lhs rhs] in H.
    cbn [eval] in H. rewrite eval_load4 in H.
    pose proof (load4_nonneg routes rho k m Hp F Hk). lra.
  - pose proof (feasible_in _ _ _ _ F
                  (theta_declared3 routes 0 m (Nat.le_0_l _) Hm)) as H.
    exact H.
  - intros k Hk.
    pose proof (feasible_in _ _ _ _ F (recursion_added3 routes k m Hk Hm)) as H.
    cbn [respects] in H. unfold sat in H. cbn [rel lhs rhs] in H.
    cbn [eval] in H.
    pose proof (load3_nonneg routes rho k m Hp F Hk). lra.
Qed.

Lemma theta_initial_and_monotone_witness :
  schedule_D (Stage4.Theta 0 1) == 0
  /\ schedule_D (Stage4.Theta 1 1) <= schedule_D (Stage4.Theta (1 + 1) 1).
Proof.
  destruct (theta_initial_and_monotone Stage4.routes routes4_nonneg) as [H _].
  assert (Hm : In 1%nat (machines_of Stage4.routes)) by (vm_compute; auto).
  destruct (H schedule_D schedule_D_feasible 1%nat Hm) as [H0 Hk].
  split; [exact H0|]. apply Hk. vm_compute. lia.
Defined.

(** Strategy C leaves [Theta[0,m]] free: the script's own model has a
    feasible point where machine 1 starts with availability 1. *)
Lemma strategyC_theta0_not_forced :
  feasible drift_C (calls (Stage3.build Stage3.routes))
  /\ In 1%nat (Stage3.machines Stage3.routes)
  /\ drift_C (Stage3.Theta 0 1) == 1.
Proof.
  split; [|split].
  - apply feasibleb_feasible. vm_compute. reflexivity.
  - vm_compute. auto.
  - reflexivity.
Qed.

(** ** Where variables are declared *)

Lemma in_calls_bind_inv {W A B} (m : script W A) (f : A -> script W B) (c : W) :
  In c (calls (bind m f)) -> In c (calls m) \/ exists a, In c (calls (f a)).
Proof.
  destruct m as [w [e|a]]; unfold calls; simpl; [auto|].
  destruct (f a) as [w' r] eqn:E. simpl. intros H. apply in_app_or in H.
  destruct H as [H|H]; [now left|]. right. exists a. now rewrite E.
Qed.

Lemma in_for_calls_inv {W A} (l : list A) (body : A -> script W unit) (c : W) :
  In c (calls (for_ l body)) -> exists x, In x l /\ In c (calls (body x)).
Proof.
  induction l as [|x l IH]; simpl; [intros []|].
  intros H. apply in_calls_bind_inv in H. destruct H as [H|[_ H]].
  - exists x. auto.
  - destruct (IH H) as [y [Hy Hc]]. exists y. auto.
Qed.

Lemma calls_bind_Forall {W A B} (P : W -> Prop)
  (m : script W A) (f : A -> script W B) :
  Forall P (calls m) -> (forall a, Forall P (calls (f a))) ->
  Forall P (calls (bind m f)).
Proof.
  intros Hm Hf. apply Forall_forall. intros c Hc.
  apply in_calls_bind_inv in Hc. destruct Hc as [Hc|[a Hc]].
  - rewrite Forall_forall in Hm. auto.
  - specialize (Hf a). rewrite Forall_forall in Hf. auto.
Qed.

Lemma calls_for_Forall {W A} (P : W -> Prop) (l : list A)
  (body : A -> script W unit) :
  (forall x, In x l -> Forall P (calls (body x))) ->
  Forall P (calls (for_ l body)).
Proof.
  intros H. apply Forall_forall. intros c Hc.
  apply in_for_calls_inv in Hc. destruct Hc as [x [Hx Hc]].
  specialize (H x Hx). rewrite Forall_forall in H. auto.
Qed.

(** Discharges "this fragment declares no variable". *)
Ltac declares_nothing :=
  repeat first
    [ progress intros
    | match goal with x : (_ * _)%type |- _ => destruct x end
    | progress cbv beta iota zeta
    | apply calls_for_Forall
    | apply calls_bind_Forall
    | match goal with |- Forall _ (calls (match ?r with _ => _ end)) => destruct r end
    | solve [repeat constructor] ].

Lemma constraints_only3 routes c :
  In c (calls (Stage3.one_per_stage routes) ++ calls (Stage3.each_once routes)
        ++ calls (Stage3.recursion routes) ++ calls (Stage3.makespan routes)
        ++ calls (Stage3.precedence routes) ++ [SetObjective (Var Stage3.Cmax)]) ->
  no_declaration c.
Proof.
  revert c. apply Forall_forall. rewrite !Forall_app. repeat split.
  - unfold Stage3.one_per_stage. declares_nothing.
  - unfold Stage3.each_once. declares_nothing.
  - unfold Stage3.recursion. declares_nothing.
  - unfold Stage3.makespan. declares_nothing.
  - unfold Stage3.precedence. declares_nothing.
  - repeat constructor.
Qed.

(** Stage 3 declares [eta[k,i,t]] exactly for the stages [k < K] and the
    operations [(i, t)] of the routes. *)
Lemma eta_slots3 routes k i t lb :
  In (AddVar (Stage3.eta k i t) BINARY lb) (calls (Stage3.build routes))
  <-> lb = 0 /\ (k < count_ops routes)%nat /\ In (i, t) (all_ops routes).
Proof.
  split.
  - rewrite build3_calls. intros H. apply in_app_or in H. destruct H as [H|H].
    + unfold Stage3.declare_vars in H.
      apply in_calls_bind_inv in H. destruct H as [H|[_ H]].
      * apply in_for_calls_inv in H. destruct H as [k' [_ H]].
        apply in_for_calls_inv in H. destruct H as [m [_ H]].
        destruct H as [H|[]]. discriminate H.
      * apply in_calls_bind_inv in H. destruct H as [H|[_ H]].
        -- apply in_for_calls_inv in H. destruct H as [k' [Hk H]].
           apply in_for_calls_inv in H. destruct H as [[i' t'] [Hit H]].
           destruct H as [H|[]]. inversion H; subst.
           apply in_range in Hk. auto.
        -- destruct H as [H|[]]. discriminate H.
    + apply constraints_only3 in H. contradiction.
  - intros [-> [Hk Hit]]. now apply eta_declared3.
Qed.

Lemma eta_slots4 routes k i t lb :
  In (AddVar (Stage4.eta k i t) BINARY lb) (calls (Stage4.build routes))
  <-> lb = 0 /\ (k < count_ops routes)%nat /\ In (i, t) (all_ops routes).
Proof.
  split.
  - unfold Stage4.build. intros H.
    apply in_calls_bind_inv in H. destruct H as [[]|[_ H]].
    apply in_calls_bind_inv in H. destruct H as [H|[_ H]].
    + unfold Stage4.declare_vars in H.
      apply in_calls_bind_inv in H. destruct H as [H|[_ H]].
      { apply in_for_calls_inv in H. destruct H as [k' [_ H]].
        apply in_for_calls_inv in H. destruct H as [m [_ H]].
        destruct H as [H|[]]. discriminate H. }
      apply in_calls_bind_inv in H. destruct H as [H|[_ H]].
      { apply in_for_calls_inv in H. destruct H as [k' [Hk H]].
        apply in_for_calls_inv in H. destruct H as [[i' r] [Hr H]].
        apply in_for_calls_inv in H. destruct H as [t' [Ht H]].
        destruct H as [H|[]]. inversion H; subst.
        apply in_range in Hk, Ht. split; [reflexivity|]. split; [exact Hk|].
        apply in_all_ops. now exists r. }
      apply in_calls_bind_inv in H. destruct H as [H|[_ H]].
      { destruct H as [H|[]]. discriminate H. }
      apply in_calls_bind_inv in H. destruct H as [H|[_ H]].
      { apply in_for_calls_inv in H. destruct H as [[i' r] [_ H]].
        apply in_for_calls_inv in H. destruct H as [t' [_ H]].
        destruct H as [H|[]]. discriminate H. }
      apply in_for_calls_inv in H. destruct H as [[i' r] [_ H]].
      destruct H as [H|[]]. discriminate H.
    + exfalso. revert H.
      assert (G : Forall no_declaration
                (calls (Stage4.initial routes ;; Stage4.capacity routes ;;
                        Stage4.each_once routes ;; Stage4.recursion routes ;;
                        Stage4.makespan routes ;; Stage4.precedence routes ;;
                        Stage4.waiting routes ;; Stage4.job_completion routes ;;
                        setObjective (Stage4.obj routes)))).
      { unfold Stage4.initial, Stage4.capacity, Stage4.each_once,
          Stage4.recursion, Stage4.makespan, Stage4.precedence, Stage4.waiting,
          Stage4.job_completion.
        declares_nothing. }
      rewrite Forall_forall in G. intros H. exact (G _ H).
  - intros [-> [Hk Hit]]. apply in_all_ops in Hit. destruct Hit as [r [Hr Ht]].
    now apply (eta_declared4 routes i r t k).
Qed.

Lemma x_slots2 jobs machines n j k t lb :
  In (AddVar (Stage2.x j k t) BINARY lb) (calls (Stage2.build jobs machines n))
  <-> lb = 0 /\ (t < n)%nat /\ In (j, k) (all_ops jobs).
Proof.
  split.
  - unfold Stage2.build. intros H.
    apply in_calls_bind_inv in H. destruct H as [H|[_ H]].
    + unfold Stage2.declare_vars in H.
      apply in_calls_bind_inv in H. destruct H as [H|[_ H]].
      { apply in_for_calls_inv in H. destruct H as [[j' r] [Hr H]].
        apply in_for_calls_inv in H. destruct H as [k' [Hk H]].
        apply in_for_calls_inv in H. destruct H as [t' [Ht H]].
        destruct H as [H|[]]. inversion H; subst.
        apply in_range in Hk, Ht. split; [reflexivity|]. split; [exact Ht|].
        apply in_all_ops. now exists r. }
      apply in_calls_bind_inv in H. destruct H as [H|[_ H]].
      { apply in_for_calls_inv in H. destruct H as [[j' r] [_ H]].
        apply in_for_calls_inv in H. destruct H as [k' [_ H]].
        destruct H as [H|[]]. discriminate H. }
      destruct H as [H|[]]. discriminate H.
    + exfalso. revert H.
      assert (G : Forall no_declaration
                (calls (Stage2.assign jobs n ;; Stage2.sequencing jobs n ;;
                        Stage2.capacity jobs machines n ;;
                        Stage2.start_times jobs n ;; Stage2.makespan jobs ;;
                        setObjective (Var Stage2.Cmax)))).
      { unfold Stage2.assign, Stage2.sequencing, Stage2.capacity,
          Stage2.start_times, Stage2.makespan.
        declares_nothing. }
      rewrite Forall_forall in G. intros H. exact (G _ H).
  - intros [-> [Ht Hjk]]. apply in_all_ops in Hjk. destruct Hjk as [r [Hr Hk]].
    unfold Stage2.build. apply in_calls_l. unfold Stage2.declare_vars.
    apply in_calls_l.
    apply in_for_calls; [never_raises|]. exists (j, r). split; [exact Hr|].
    apply in_for_calls; [never_raises|]. exists k. split; [now apply in_range|].
    apply in_for_calls; [never_raises|]. exists t. split; [now apply in_range|].
    now left.
Qed.

(** C6, as the scripts have it. Strategies C and D take the number of
    stage slots from the data: [eta[k,i,t]] is declared exactly for the
    stages [k < K], with [K] the total operation count (and [S = K] in
    Strategy D). Strategy B declares [x[j,k,t]] exactly for the stages
    [t < num_stages], where [num_stages] is the constant 10 of the script,
    not derived from the operation count (6 for its data). *)
Theorem stage_slots (routes : jobdict) (machines : list nat) (num_stages : nat) :
  (forall k i t lb,
     In (AddVar (Stage3.eta k i t) BINARY lb) (calls (Stage3.build routes))
     <-> lb = 0 /\ (k < count_ops routes)%nat /\ In (i, t) (all_ops routes))
  /\ (forall k i t lb,
        In (AddVar (Stage4.eta k i t) BINARY lb) (calls (Stage4.build routes))
        <-> lb = 0 /\ (k < count_ops routes)%nat /\ In (i, t) (all_ops routes))
  /\ Stage4.S routes = count_ops routes
  /\ (forall j k t lb,
        In (AddVar (Stage2.x j k t) BINARY lb)
           (calls (Stage2.build routes machines num_stages))
        <-> lb = 0 /\ (t < num_stages)%nat /\ In (j, k) (all_ops routes))
  /\ Stage2.num_stages = 10%nat
  /\ count_ops Stage2.jobs = 6%nat.
Proof.
  split; [intros; apply eta_slots3|].
  split; [intros; apply eta_slots4|].
  split; [reflexivity|].
  split; [intros; apply x_slots2|].
  split; reflexivity.
Qed.

(** Strategy B uses more stage slots than there are operations: stage 9 is
    declared for the first operation of job 1 although the script's data
    holds 6 operations. *)
Lemma strategyB_slots_exceed_operations :
  In (AddVar (Stage2.x 1 0 9) BINARY 0) Stage2.model
  /\ count_ops Stage2.jobs = 6%nat
  /\ length (filter (fun c => match c with
                              | AddVar (Stage2.x 1 0 _) _ _ => true
                              | _ => false
                              end) Stage2.model) = 10%nat.
Proof.
  split; [|split; [reflexivity|vm_compute; reflexivity]].
  apply x_slots2. split; [reflexivity|]. split; [unfold Stage2.num_stages; lia|].
  vm_compute. auto.
Qed.

(** ** What the scripts can raise *)

Lemma bind_outcome_inv {W A B} (m : script W A) (f : A -> script W B) (e : exn) :
  outcome (bind m f) = inl e -> outcome m = inl e \/ exists a, outcome (f a) = inl e.
Proof.
  destruct m as [w [e'|a]].
  - unfold outcome, bind. simpl. intros H. left. now inversion H.
  - intros H. right. exists a. unfold outcome, bind in H.
    destruct (f a) as [w' r]. exact H.
Qed.

Lemma for_outcome_inv {W A} (l : list A) (body : A -> script W unit) (e : exn) :
  outcome (for_ l body) = inl e -> exists x, In x l /\ outcome (body x) = inl e.
Proof.
  induction l as [|x l IH]; simpl; [discriminate|].
  intros H. apply bind_outcome_inv in H. destruct H as [H|[_ H]].
  - exists x. auto.
  - destruct (IH H) as [y [Hy Hb]]. exists y. auto.
Qed.

(** Traces an exception back to the statement that raised it. *)
Ltac trace_exn :=
  repeat match goal with
    | H : outcome (bind _ _) = inl _ |- _ =>
        apply bind_outcome_inv in H; destruct H as [H|[? H]]
    | H : outcome (for_ _ _) = inl _ |- _ =>
        apply for_outcome_inv in H; destruct H as [? [_ H]]
    | x : (_ * _)%type |- _ => destruct x
    | H : outcome (match ?r with _ => _ end) = inl _ |- _ => destruct r
    | H : outcome _ = inl _ |- _ => progress cbv beta iota zeta in H
    | H : outcome _ = inl _ |- _ => discriminate H
    end.

Lemma build1_not_malformed jobs machines bigM :
  outcome (Stage1.build jobs machines bigM) <> inl MalformedRoute.
Proof.
  intros H. unfold Stage1.build, Stage1.declare_vars, Stage1.completion,
    Stage1.job_order, Stage1.non_overlap, Stage1.makespan in H.
  trace_exn.
  rewrite non_overlap_on_calls in H. discriminate H.
Qed.

Lemma build2_not_malformed jobs machines n :
  outcome (Stage2.build jobs machines n) <> inl MalformedRoute.
Proof.
  intros H. unfold Stage2.build, Stage2.declare_vars, Stage2.assign,
    Stage2.sequencing, Stage2.capacity, Stage2.start_times, Stage2.makespan in H.
  trace_exn.
Qed.

Lemma build4_not_malformed routes :
  outcome (Stage4.build routes) <> inl MalformedRoute.
Proof.
  intros H. unfold Stage4.build, Stage4.catalog, Stage4.declare_vars,
    Stage4.initial, Stage4.capacity, Stage4.each_once, Stage4.recursion,
    Stage4.makespan, Stage4.precedence, Stage4.waiting, Stage4.job_completion in H.
  trace_exn.
Qed.

Lemma count_ops_all_ops routes : count_ops routes = length (all_ops routes).
Proof.
  unfold count_ops, all_ops. induction routes as [|[i r] routes IH]; [reflexivity|].
  cbn [map nsum fold_right flat_map snd]. rewrite length_app, length_map.
  unfold nsum in IH. rewrite IH. unfold range, range2.
  now rewrite length_seq, Nat.sub_0_r.
Qed.

(** C7, as the scripts have it. Deriving the job list, the machine set and
    the operation count [K] from the job data never fails and checks
    nothing: the three values are computed whatever the durations and
    route lengths are ([K] is the number of operations, a machine belongs
    to the set exactly when some operation names it), the stage 3 script
    then builds its whole model without raising, and no script ever raises
    [MalformedRoute]. *)
Theorem catalog_accepts_any_data
  (routes : jobdict) (machines : list nat) (bigM : Q) (num_stages : nat) :
  Stage3.catalog routes
  = ([], inr (map fst routes, machines_of routes, count_ops routes))
  /\ Stage4.catalog routes
     = ([], inr (map fst routes, machines_of routes, count_ops routes))
  /\ count_ops routes = length (all_ops routes)
  /\ (forall m, In m (machines_of routes)
                <-> exists i r p, In (i, r) routes /\ In (m, p) r)
  /\ outcome (Stage3.build routes) = inr tt
  /\ outcome (Stage1.build routes machines bigM) <> inl MalformedRoute
  /\ outcome (Stage2.build routes machines num_stages) <> inl MalformedRoute
  /\ outcome (Stage4.build routes) <> inl MalformedRoute.
Proof.
  split; [reflexivity|]. split; [reflexivity|].
  split; [apply count_ops_all_ops|].
  split; [apply in_machines_of|].
  split; [apply build3_ok|].
  split; [apply build1_not_malformed|].
  split; [apply build2_not_malformed|apply build4_not_malformed].
Qed.

(** Job data with a negative duration and an empty route is taken as it
    is: the catalogue is derived, and the stage 3 script goes on to issue
    all 9 calls of its model. *)
Lemma malformed_routes_accepted :
  Stage3.catalog bad_routes = ([], inr ([1; 2], [1], 1))%nat
  /\ outcome (Stage3.build bad_routes) = inr tt
  /\ length (calls (Stage3.build bad_routes)) = 9%nat
  /\ outcome (Stage1.build [(1%nat, [(1%nat, -3)])] [1%nat] 1000) = inr tt.
Proof. repeat split; vm_compute; reflexivity. Qed.

(** An empty route does stop stages 1, 2 and 4, late and with the
    exception of the failing subscript: the last-operation lookup of the
    makespan (or job completion) loop. *)
Lemma empty_route_raises_late :
  outcome (Stage1.build bad_routes [1%nat] 1000) = inl KeyError
  /\ outcome (Stage2.build bad_routes [1%nat] 10) = inl IndexError
  /\ outcome (Stage4.build bad_routes) = inl IndexError
  /\ calls (Stage1.build bad_routes [1%nat] 1000) <> [].
Proof. repeat split; vm_compute; try reflexivity. discriminate. Qed.

(** ** Reporting the result *)

Lemma report_unsolved3 routes (r : solved Stage3.var) :
  status r <> OPTIMAL ->
  Stage3.report routes r
  = ([ReadStatus; Print "\nNo optimal solution found." []; ReadStatus;
      PrintStatus "Status code: {model.status}" (status r)], inr tt).
Proof.
  intros H. unfold Stage3.report, getStatus.
  destruct (status r) eqn:E; [contradiction| | | |]; reflexivity.
Qed.

Lemma report_unsolved4 routes (r : solved Stage4.var) :
  status r <> OPTIMAL ->
  Stage4.report routes r
  = ([ReadStatus; ReadStatus;
      PrintStatus "No optimal solution found. Status:" (status r)], inr tt).
Proof.
  intros H. unfold Stage4.report, getStatus.
  destruct (status r) eqn:E; [contradiction| | | |]; reflexivity.
Qed.

(** The status guard of the result sections. Strategies C and D read
    solved values only under the status [OPTIMAL]: for any other status (infeasible and
    unbounded among them) the result section reads no value, prints no
    schedule line, and prints the status instead. Strategies A and B never
    consult the status: their result section does the same reads and
    prints whatever the status is. *)
Theorem report_checks_status
  (routes : jobdict) (num_stages : nat)
  (r3 : solved Stage3.var) (r4 : solved Stage4.var) :
  status r3 <> OPTIMAL -> status r4 <> OPTIMAL ->
  (Stage3.report routes r3
   = ([ReadStatus; Print "\nNo optimal solution found." []; ReadStatus;
       PrintStatus "Status code: {model.status}" (status r3)], inr tt)
   /\ reads_values (calls (Stage3.report routes r3)) = false
   /\ reported (calls (Stage3.report routes r3)) = [status r3])
  /\ (Stage4.report routes r4
      = ([ReadStatus; ReadStatus;
          PrintStatus "No optimal solution found. Status:" (status r4)], inr tt)
      /\ reads_values (calls (Stage4.report routes r4)) = false
      /\ reported (calls (Stage4.report routes r4)) = [status r4])
  /\ (forall st st' x o,
        Stage1.report routes (Solved st x o) = Stage1.report routes (Solved st' x o))
  /\ (forall st st' x o,
        Stage2.report routes num_stages (Solved st x o)
        = Stage2.report routes num_stages (Solved st' x o)).
Proof.
  intros H3 H4.
  split; [rewrite (report_unsolved3 routes r3 H3); repeat split|].
  split; [rewrite (report_unsolved4 routes r4 H4); repeat split|].
  split; intros; reflexivity.
Qed.

Lemma report_checks_status_witness :
  reads_values
    (calls (Stage3.report Stage3.routes (Solved INFEASIBLE (fun _ => None) None)))
  = false
  /\ reported
       (calls (Stage4.report Stage4.routes (Solved UNBOUNDED (fun _ => None) None)))
     = [UNBOUNDED].
Proof.
  destruct (report_checks_status Stage3.routes 10
              (Solved INFEASIBLE (fun _ => None) None)
              (Solved UNBOUNDED (fun _ => None) None)) as [[_ [H _]] [[_ [_ H']] _]].
  - simpl. discriminate.
  - simpl. discriminate.
  - split; [exact H|exact H'].
Defined.

(** C8. Strategy A under an infeasible status (as the solver gives for
    this job data once [bigM] is 1, see [strategyA_small_bigM_infeasible]):
    the result section announces an optimal schedule and goes straight to
    reading the first start time, which raises [AttributeError]; the
    status is neither looked at nor printed. *)
Lemma strategyA_reads_without_status :
  Stage1.report Stage1.jobs infeasible_A
  = ([Print "\nOptimal Schedule:" []; ReadX (Stage1.S 1 0)], inl AttributeError)
  /\ reads_values (calls (Stage1.report Stage1.jobs infeasible_A)) = true
  /\ reported (calls (Stage1.report Stage1.jobs infeasible_A)) = [].
Proof. repeat split. Qed.

(** ** Reading the schedule back *)

Lemma printed_app {V} (a b : list (out V)) :
  printed (a ++ b) = printed a ++ printed b.
Proof.
  induction a as [|e a IH]; simpl; [reflexivity|].
  destruct e; simpl; now rewrite IH.
Qed.

Lemma printed_flat_map {V A} (f : A -> list (out V)) (l : list A) :
  printed (flat_map f l) = flat_map (fun x => printed (f x)) l.
Proof.
  induction l as [|x l IH]; simpl; [reflexivity|].
  now rewrite printed_app, IH.
Qed.

Lemma gather_ok {W A B} (l : list A) (body : A -> script W (list B))
  (g : A -> list B) :
  (forall x, In x l -> outcome (body x) = inr (g x)) ->
  gather l body = (flat_map (fun x => calls (body x)) l, inr (flat_map g l)).
Proof.
  induction l as [|x l IH]; intros H; simpl; [reflexivity|].
  rewrite (bind_ok (body x) _ (calls (body x)) (g x)).
  - rewrite IH by (intros; apply H; now right).
    unfold bind, calls, outcome, ret. cbn [fst snd]. now rewrite app_nil_r.
  - rewrite (script_eta (body x)) at 1. f_equal. apply H. now left.
Qed.

Lemma gather_outcome_inv {W A B} (l : list A) (body : A -> script W (list B))
  (e : exn) :
  outcome (gather l body) = inl e -> exists x, In x l /\ outcome (body x) = inl e.
Proof.
  induction l as [|x l IH]; simpl; [discriminate|].
  intros H. apply bind_outcome_inv in H. destruct H as [H|[here H]].
  - exists x. auto.
  - apply bind_outcome_inv in H. destruct H as [H|[rest H]]; [|discriminate H].
    destruct (IH H) as [y [Hy Hb]]. exists y. auto.
Qed.

Lemma getX_available {V} (r : solved V) (rho : valuation V) (v : V) :
  (forall v, X r v = Some (rho v)) -> getX r v = ([ReadX v], inr (rho v)).
Proof. intros H. unfold getX. now rewrite H. Qed.

Lemma show_schedule3_lines routes (r : solved Stage3.var) rho :
  (forall v, X r v = Some (rho v)) ->
  Stage3.show_schedule routes r
  = (flat_map (fun k =>
       flat_map (fun it =>
         ReadX (Stage3.eta k (fst it) (snd it))
         :: (if Qgtb (rho (Stage3.eta k (fst it) (snd it))) (1 # 2)
             then [Print "Stage {k+1}: Job {job_id}'s operation {op_index+1} on Machine {machine_id} for {processing_time} units"
                         [Qn (k + 1); Qn (fst it); Qn (snd it + 1);
                          Qn (fst (op_at routes (fst it) (snd it)));
                          snd (op_at routes (fst it) (snd it))]]
             else []))
         (all_ops routes))
       (range (count_ops routes)),
     inr tt).
Proof.
  intros Hx. unfold Stage3.show_schedule.
  assert (Hb : forall k it,
    (let '(i, t) := it in
     v <- getX r (Stage3.eta k i t) ;;
     when (Qgtb v (1 # 2))
       (print "Stage {k+1}: Job {job_id}'s operation {op_index+1} on Machine {machine_id} for {processing_time} units"
              [Qn (k + 1); Qn i; Qn (t + 1); Qn (fst (op_at routes i t));
               snd (op_at routes i t)]))
    = (ReadX (Stage3.eta k (fst it) (snd it))
       :: (if Qgtb (rho (Stage3.eta k (fst it) (snd it))) (1 # 2)
           then [Print "Stage {k+1}: Job {job_id}'s operation {op_index+1} on Machine {machine_id} for {processing_time} units"
                       [Qn (k + 1); Qn (fst it); Qn (snd it + 1);
                        Qn (fst (op_at routes (fst it) (snd it)));
                        snd (op_at routes (fst it) (snd it))]]
           else []),
       inr tt)).
  { intros k [i t]. cbn [fst snd]. rewrite (getX_available r rho _ Hx).
    unfold bind, when. destruct (Qgtb _ _); reflexivity. }
  rewrite for_ok.
  - f_equal. apply flat_map_ext. intros k. rewrite for_ok.
    + unfold calls at 1. cbn [fst]. apply flat_map_ext. intros it.
      cbv zeta. rewrite (Hb k it). reflexivity.
    + intros it _. cbv zeta. now rewrite (Hb k it).
  - intros k _. apply for_outcome_ok. intros it _. cbv zeta. now rewrite (Hb k it).
Qed.

Lemma scheduled4_entries routes (r : solved Stage4.var) rho k :
  (forall v, X r v = Some (rho v)) ->
  outcome (Stage4.scheduled routes r k)
  = inr (flat_map (fun jr =>
           flat_map (fun t =>
             if Qgtb (rho (Stage4.eta k (fst jr) t)) (1 # 2)
             then [(fst jr, t, fst (nth t (snd jr) (0%nat, 0)),
                    snd (nth t (snd jr) (0%nat, 0)))]
             else [])
             (range (length (snd jr)))) routes).
Proof.
  intros Hx. unfold Stage4.scheduled.
  rewrite (gather_ok _ _
    (fun jr => flat_map (fun t =>
       if Qgtb (rho (Stage4.eta k (fst jr) t)) (1 # 2)
       then [(fst jr, t, fst (nth t (snd jr) (0%nat, 0)),
              snd (nth t (snd jr) (0%nat, 0)))]
       else []) (range (length (snd jr))))); [reflexivity|].
  intros [i rt] _. cbn [fst snd].
  rewrite (gather_ok _ _
    (fun t => if Qgtb (rho (Stage4.eta k i t)) (1 # 2)
              then [(i, t, fst (nth t rt (0%nat, 0)), snd (nth t rt (0%nat, 0)))]
              else [])); [reflexivity|].
  intros t _. rewrite (getX_available r rho _ Hx). reflexivity.
Qed.

Lemma getX_raises {V} (r : solved V) (v : V) (e : exn) :
  outcome (getX r v) = inl e -> e = AttributeError.
Proof.
  unfold getX. destruct (X r v); unfold outcome; simpl; intros H;
    [discriminate H|now inversion H].
Qed.

Lemma getObjVal_raises {V} (r : solved V) (e : exn) :
  outcome (getObjVal r) = inl e -> e = AttributeError.
Proof.
  unfold getObjVal. destruct (objVal r); unfold outcome; simpl; intros H;
    [discriminate H|now inversion H].
Qed.

(** Traces an exception of a result section back to the read that raised
    it. *)
Ltac trace_read :=
  repeat match goal with
    | H : outcome (getX _ _) = inl _ |- _ => apply getX_raises in H
    | H : outcome (getObjVal _) = inl _ |- _ => apply getObjVal_raises in H
    | H : outcome (bind _ _) = inl _ |- _ =>
        apply bind_outcome_inv in H; destruct H as [H|[? H]]
    | H : outcome (for_ _ _) = inl _ |- _ =>
        apply for_outcome_inv in H; destruct H as [? [_ H]]
    | H : outcome (gather _ _) = inl _ |- _ =>
        apply gather_outcome_inv in H; destruct H as [? [_ H]]
    | x : (_ * _)%type |- _ => destruct x
    | H : outcome (match ?r with _ => _ end) = inl _ |- _ => destruct r
    | H : outcome (if ?c then _ else _) = inl _ |- _ => destruct c
    | H : outcome _ = inl _ |- _ => progress cbv beta iota zeta in H
    | H : outcome _ = inl _ |- _ => discriminate H
    end.

(** The result section of stage 3 can only stop on a value the solver
    does not hold. *)
Lemma report3_raises routes (r : solved Stage3.var) (e : exn) :
  outcome (Stage3.report routes r) = inl e -> e = AttributeError.
Proof.
  intros H. unfold Stage3.report, Stage3.show_schedule, Stage3.show_theta,
    getStatus, when in H.
  trace_read; assumption.
Qed.

Lemma report4_raises routes (r : solved Stage4.var) (e : exn) :
  outcome (Stage4.report routes r) = inl e -> e = AttributeError.
Proof.
  intros H. unfold Stage4.report, Stage4.show_schedule, Stage4.show_tables,
    Stage4.scheduled, getStatus in H.
  trace_read; assumption.
Qed.

(** C9, as the scripts have it. With the solved values at hand, the
    schedule display of Strategy C prints, stage by stage and in the order
    of [ops], one line for each indicator [eta[k,i,t]] above 0.5, and the
    display of Strategy D collects per stage the operations whose
    indicator is above 0.5. Nothing is validated: an operation with no
    indicator above 0.5 is left out, one with several is listed once per
    stage, and the result section never raises [InconsistentSolution]
    (its only exception is the [AttributeError] of a value the solver does
    not hold). *)
Theorem extraction_lists_truthy_indicators
  (routes : jobdict) (k : nat)
  (r3 : solved Stage3.var) (rho3 : valuation Stage3.var)
  (r4 : solved Stage4.var) (rho4 : valuation Stage4.var) :
  (forall v, X r3 v = Some (rho3 v)) ->
  (forall v, X r4 v = Some (rho4 v)) ->
  outcome (Stage3.show_schedule routes r3) = inr tt
  /\ printed (calls (Stage3.show_schedule routes r3))
     = flat_map (fun k' =>
         flat_map (fun it =>
           if Qgtb (rho3 (Stage3.eta k' (fst it) (snd it))) (1 # 2)
           then [("Stage {k+1}: Job {job_id}'s operation {op_index+1} on Machine {machine_id} for {processing_time} units"%string,
                  [Qn (k' + 1); Qn (fst it); Qn (snd it + 1);
                   Qn (fst (op_at routes (fst it) (snd it)));
                   snd (op_at routes (fst it) (snd it))])]
           else [])
           (all_ops routes))
         (range (count_ops routes))
  /\ outcome (Stage4.scheduled routes r4 k)
     = inr (flat_map (fun jr =>
              flat_map (fun t =>
                if Qgtb (rho4 (Stage4.eta k (fst jr) t)) (1 # 2)
                then [(fst jr, t, fst (nth t (snd jr) (0%nat, 0)),
                       snd (nth t (snd jr) (0%nat, 0)))]
                else [])
                (range (length (snd jr)))) routes)
  /\ (forall r e, outcome (Stage3.report routes r) = inl e -> e = AttributeError)
  /\ (forall r e, outcome (Stage4.report routes r) = inl e -> e = AttributeError).
Proof.
  intros H3 H4.
  split; [now rewrite (show_schedule3_lines routes r3 rho3 H3)|].
  split.
  - rewrite (show_schedule3_lines routes r3 rho3 H3). unfold calls. cbn [fst].
    rewrite printed_flat_map. apply flat_map_ext. intros k'.
    rewrite printed_flat_map. apply flat_map_ext. intros it.
    cbn [printed]. destruct (Qgtb _ _); reflexivity.
  - split; [exact (scheduled4_entries routes r4 rho4 k H4)|].
    split; [exact (report3_raises routes)|exact (report4_raises routes)].
Qed.

Lemma extraction_lists_truthy_indicators_witness :
  outcome (Stage3.show_schedule two_ops doubled_C) = inr tt
  /\ outcome (Stage4.scheduled two_ops solved_D 0) = inr [(1%nat, 0%nat, 1%nat, 1)].
Proof.
  destruct (extraction_lists_truthy_indicators two_ops 0
              doubled_C doubled_values solved_D schedule_D)
    as [H [_ [H' _]]]; [reflexivity|reflexivity|].
  split; [exact H|]. rewrite H'. vm_compute. reflexivity.
Defined.

(** No validation: solved values that give the first operation of the job
    both stages and the second operation none are displayed as they are,
    and the result section ends normally. *)
Lemma double_placement_is_displayed :
  outcome (Stage3.report two_ops doubled_C) = inr tt
  /\ printed (calls (Stage3.show_schedule two_ops doubled_C))
     = [("Stage {k+1}: Job {job_id}'s operation {op_index+1} on Machine {machine_id} for {processing_time} units"%string,
         [1; 1; 1; 1; 1]);
        ("Stage {k+1}: Job {job_id}'s operation {op_index+1} on Machine {machine_id} for {processing_time} units"%string,
         [2; 1; 1; 1; 1])].
Proof. split; vm_compute; reflexivity. Qed.

(** ** Strategy A: what a feasible point is *)



(** [never_raises] for loops over operations. *)
Ltac never_raises_ops :=
  repeat first
    [ reflexivity
    | progress intros
    | progress unfold operation, route in *
    | match goal with x : (_ * _)%type |- _ => destruct x end
    | progress cbv beta iota
    | apply for_outcome_ok ].

Lemma declare_vars1_ok jobs : outcome (Stage1.declare_vars jobs) = inr tt.
Proof.
  unfold Stage1.declare_vars.
  rewrite (outcome_seq _ _ tt) by never_raises_ops. reflexivity.
Qed.

Lemma completion1_ok jobs : outcome (Stage1.completion jobs) = inr tt.
Proof. unfold Stage1.completion. never_raises_ops. Qed.

Lemma job_order1_ok jobs : outcome (Stage1.job_order jobs) = inr tt.
Proof. unfold Stage1.job_order. never_raises_ops. Qed.

Lemma non_overlap1_ok jobs machines bigM :
  outcome (Stage1.non_overlap jobs machines bigM) = inr tt.
Proof.
  unfold Stage1.non_overlap. apply for_outcome_ok.
  intros m _. now rewrite non_overlap_on_calls.
Qed.

Lemma build1_calls jobs machines bigM :
  calls (Stage1.build jobs machines bigM)
  = calls (Stage1.declare_vars jobs) ++ calls (Stage1.completion jobs)
    ++ calls (Stage1.job_order jobs)
    ++ calls (Stage1.non_overlap jobs machines bigM)
    ++ calls (Stage1.makespan jobs ;; setObjective (Var Stage1.Cmax)).
Proof.
  unfold Stage1.build.
  rewrite (calls_seq _ _ tt (declare_vars1_ok jobs)).
  rewrite (calls_seq _ _ tt (completion1_ok jobs)).
  rewrite (calls_seq _ _ tt (job_order1_ok jobs)).
  rewrite (calls_seq _ _ tt (non_overlap1_ok jobs machines bigM)).
  reflexivity.
Qed.


Lemma start_declared1 jobs machines bigM i r k o :
  In (i, r) jobs -> nth_error r k = Some o ->
  In (AddVar (Stage1.S i k) CONTINUOUS 0) (calls (Stage1.build jobs machines bigM)).
Proof.
  intros Hi Hk. rewrite build1_calls. apply in_or_app; left.
  unfold Stage1.declare_vars. apply in_calls_l.
  apply in_for_calls; [never_raises_ops|]. exists (i, r). split; [exact Hi|].
  apply in_for_calls; [never_raises_ops|]. exists (k, o).
  split; [now apply in_enumerate|]. destruct o as [m p]. now left.
Qed.

Lemma completion_added1 jobs machines bigM i r k m p :
  In (i, r) jobs -> nth_error r k = Some (m, p) ->
  In (AddConstr None
        (Constr (Var (Stage1.C i k)) EQ (Add (Var (Stage1.S i k)) (Const p))))
     (calls (Stage1.build jobs machines bigM)).
Proof.
  intros Hi Hk. rewrite build1_calls. apply in_or_app; right.
  apply in_or_app; left. unfold Stage1.completion.
  apply in_for_calls; [never_raises_ops|]. exists (i, r). split; [exact Hi|].
  apply in_for_calls; [never_raises_ops|]. exists (k, (m, p)).
  split; [now apply in_enumerate|]. now left.
Qed.

Lemma job_order_added1 jobs machines bigM i r k :
  In (i, r) jobs -> (k + 1 < length r)%nat ->
  In (AddConstr None (Constr (Var (Stage1.S i (k + 1))) GE (Var (Stage1.C i k))))
     (calls (Stage1.build jobs machines bigM)).
Proof.
  intros Hi Hk. rewrite build1_calls. do 2 (apply in_or_app; right).
  apply in_or_app; left. unfold Stage1.job_order.
  apply in_for_calls; [never_raises_ops|]. exists (i, r). split; [exact Hi|].
  apply in_for_calls; [never_raises_ops|]. exists k.
  split; [apply in_range; unfold route, operation in *; lia|]. now left.
Qed.

Lemma disjunction_added1 jobs machines bigM m a b c :
  In m machines -> (a < b < length (Stage1.ops_on jobs m))%nat ->
  In c (disjunctive_pair bigM (nth a (Stage1.ops_on jobs m) (0, 0)%nat)
                              (nth b (Stage1.ops_on jobs m) (0, 0)%nat)) ->
  In c (calls (Stage1.build jobs machines bigM)).
Proof.
  intros Hm Hab Hc. rewrite build1_calls. do 3 (apply in_or_app; right).
  apply in_or_app; left. unfold Stage1.non_overlap.
  apply in_for_calls; [intros m' _; now rewrite non_overlap_on_calls|].
  exists m. split; [exact Hm|]. rewrite non_overlap_on_calls.
  unfold calls. cbn [fst]. apply in_flat_map. exists (a, b).
  split; [now apply in_unordered_pairs|exact Hc].
Qed.

Lemma no_empty_route_in jobs i (r : route) :
  has_empty_route jobs = false -> In (i, r) jobs -> r <> [].
Proof.
  unfold has_empty_route. induction jobs as [|[j r'] jobs IH]; simpl; [tauto|].
  intros H [E|Hin].
  - inversion E; subst. destruct r; [discriminate H|discriminate].
  - destruct r'; [discriminate H|]. now apply IH.
Qed.

Lemma makespan_added1 jobs machines bigM i r :
  has_empty_route jobs = false -> In (i, r) jobs ->
  In (AddConstr None
        (Constr (Var Stage1.Cmax) GE (Var (Stage1.C i (length r - 1)))))
     (calls (Stage1.build jobs machines bigM)).
Proof.
  intros He Hi. rewrite build1_calls. do 4 (apply in_or_app; right).
  apply in_calls_l. unfold Stage1.makespan.
  assert (Hne : forall jr, In jr jobs -> snd jr <> []).
  { intros [j r'] Hjr E. cbn [snd] in E. subst r'. unfold has_empty_route in He.
    assert (existsb (fun jr => match snd jr with [] => true | _ :: _ => false end) jobs
            = true); [|congruence].
    apply existsb_exists. exists (j, []). split; [exact Hjr|reflexivity]. }
  apply in_for_calls.
  - intros [j r'] Hj. specialize (Hne _ Hj). cbn [snd] in Hne.
    destruct r'; [contradiction|reflexivity].
  - exists (i, r). split; [exact Hi|]. specialize (Hne _ Hi). cbn [snd] in Hne.
    destruct r; [contradiction|now left].
Qed.

Lemma schedule_A_feasible : feasible schedule_A Stage1.model.
Proof. apply feasibleb_feasible. vm_compute. reflexivity. Qed.

Lemma firstn_snoc {A} (l : list A) (k : nat) (a : A) :
  nth_error l k = Some a -> firstn (k + 1) l = firstn k l ++ [a].
Proof.
  revert k. induction l as [|b l IH]; intros [|k] H; simpl in *; try discriminate.
  - now inversion H.
  - f_equal. now apply IH.
Qed.

Section FeasibleA.

Variable jobs : jobdict.
Variable machines : list nat.
Variable bigM : Q.
Variable rho : valuation Stage1.var.
Hypothesis F : feasible rho (calls (Stage1.build jobs machines bigM)).

Lemma start_nonneg1 i r k o :
  In (i, r) jobs -> nth_error r k = Some o -> 0 <= rho (Stage1.S i k).
Proof.
  intros Hi Hk.
  exact (feasible_in _ _ _ _ F (start_declared1 jobs machines bigM i r k o Hi Hk)).
Qed.

Lemma completion_eq1 i r k m p :
  In (i, r) jobs -> nth_error r k = Some (m, p) ->
  rho (Stage1.C i k) == rho (Stage1.S i k) + p.
Proof.
  intros Hi Hk.
  exact (feasible_in _ _ _ _ F (completion_added1 jobs machines bigM i r k m p Hi Hk)).
Qed.

Lemma job_order1 i r k :
  In (i, r) jobs -> (k + 1 < length r)%nat ->
  rho (Stage1.C i k) <= rho (Stage1.S i (k + 1)).
Proof.
  intros Hi Hk.
  exact (feasible_in _ _ _ _ F (job_order_added1 jobs machines bigM i r k Hi Hk)).
Qed.

(** The two Big-M inequalities of a pair and the value of its indicator. *)
Lemma disjunction1 m a b :
  In m machines -> (a < b < length (Stage1.ops_on jobs m))%nat ->
  let oa := nth a (Stage1.ops_on jobs m) (0, 0)%nat in
  let ob := nth b (Stage1.ops_on jobs m) (0, 0)%nat in
  let x := rho (Stage1.X (fst oa) (snd oa) (fst ob) (snd ob)) in
  (x == 0 \/ x == 1)
  /\ rho (Stage1.C (fst ob) (snd ob)) - bigM * (1 - x)
     <= rho (Stage1.S (fst oa) (snd oa))
  /\ rho (Stage1.C (fst oa) (snd oa)) - bigM * x
     <= rho (Stage1.S (fst ob) (snd ob)).
Proof.
  intros Hm Hab oa ob x.
  assert (Hin : forall c, In c (disjunctive_pair bigM oa ob) -> respects rho c).
  { intros c Hc. apply (feasible_in _ _ _ _ F).
    exact (disjunction_added1 jobs machines bigM m a b c Hm Hab Hc). }
  pose proof (Hin _ (or_introl eq_refl)) as Hx.
  pose proof (Hin _ (or_intror (or_introl eq_refl))) as H1.
  pose proof (Hin _ (or_intror (or_intror (or_introl eq_refl)))) as H2.
  cbn [respects] in Hx, H1, H2. unfold sat in H1, H2.
  cbn [rel lhs rhs eval] in H1, H2. auto.
Qed.

Lemma no_overlap1 m a b :
  In m machines -> (a < b < length (Stage1.ops_on jobs m))%nat ->
  let oa := nth a (Stage1.ops_on jobs m) (0, 0)%nat in
  let ob := nth b (Stage1.ops_on jobs m) (0, 0)%nat in
  rho (Stage1.C (fst ob) (snd ob)) <= rho (Stage1.S (fst oa) (snd oa))
  \/ rho (Stage1.C (fst oa) (snd oa)) <= rho (Stage1.S (fst ob) (snd ob)).
Proof.
  intros Hm Hab oa ob.
  destruct (disjunction1 m a b Hm Hab) as [Hx [H1 H2]].
  fold oa ob in Hx, H1, H2.
  destruct Hx as [E|E]; rewrite E in H1, H2; [right|left]; lra.
Qed.

Lemma cmax_bound1 i r :
  has_empty_route jobs = false -> In (i, r) jobs ->
  rho (Stage1.C i (length r - 1)) <= rho Stage1.Cmax.
Proof.
  intros He Hi.
  exact (feasible_in _ _ _ _ F (makespan_added1 jobs machines bigM i r He Hi)).
Qed.

(** An operation completes no earlier than the durations of its job up to
    and including it add up to. *)
Lemma completion_after_prefix i r k :
  In (i, r) jobs -> (k < length r)%nat ->
  qsum (map snd (firstn (k + 1) r)) <= rho (Stage1.C i k).
Proof.
  intros Hi. induction k as [|k IH]; intros Hk.
  - destruct r as [|[m p] r']; [simpl in Hk; lia|].
    pose proof (start_nonneg1 i _ 0%nat (m, p) Hi eq_refl) as Hs.
    pose proof (completion_eq1 i _ 0%nat m p Hi eq_refl) as He.
    simpl. rewrite He. lra.
  - destruct (nth_error r (Datatypes.S k)) as [[m p]|] eqn:E.
    + rewrite (firstn_snoc r (Datatypes.S k) (m, p) E), map_app, qsum_app.
      pose proof (completion_eq1 i r (Datatypes.S k) m p Hi E) as He.
      assert (Hk' : (k + 1 < length r)%nat) by (unfold route, operation in *; lia).
      pose proof (job_order1 i r k Hi Hk') as Hord.
      assert (IH' : qsum (map snd (firstn (k + 1) r)) <= rho (Stage1.C i k))
        by (apply IH; unfold route, operation in *; lia).
      replace (Datatypes.S k) with (k + 1)%nat in * by lia.
      unfold qsum at 2. cbn [map fold_right snd]. rewrite He.
      unfold route, operation in *. lra.
    + apply nth_error_None in E. unfold route, operation in *. lia.
Qed.

End FeasibleA.

(** Two distinct operations whose route entries name the same listed
    machine never overlap in a feasible point. *)
Lemma no_overlap_ops1 jobs machines bigM rho m i r k pa j r' l pb :
  feasible rho (calls (Stage1.build jobs machines bigM)) ->
  In m machines ->
  In (i, r) jobs -> nth_error r k = Some (m, pa) ->
  In (j, r') jobs -> nth_error r' l = Some (m, pb) ->
  (i, k) <> (j, l) ->
  rho (Stage1.C j l) <= rho (Stage1.S i k)
  \/ rho (Stage1.C i k) <= rho (Stage1.S j l).
Proof.
  intros F Hm Hi Hk Hj Hl Hne.
  assert (H1 : In (i, k) (Stage1.ops_on jobs m))
    by (apply in_ops_on; now exists r, pa).
  assert (H2 : In (j, l) (Stage1.ops_on jobs m))
    by (apply in_ops_on; now exists r', pb).
  destruct (two_positions _ (0, 0)%nat _ _ H1 H2 Hne)
    as [a [b [Hab [[Ea Eb]|[Ea Eb]]]]];
    pose proof (no_overlap1 jobs machines bigM rho F m a b Hm Hab) as H;
    cbv zeta in H; rewrite Ea, Eb in H; cbn [fst snd] in H; tauto.
Qed.

(** Every feasible point of the Strategy A model is a schedule: start
    times are non-negative, an operation completes its duration after it
    starts, the operations of a job follow one another, two distinct
    operations whose route entries name the same listed machine never
    overlap (whatever [bigM] is), and [Cmax] is at least the completion of
    every job's last operation. *)
Theorem strategyA_feasible_is_schedule
  (jobs : jobdict) (machines : list nat) (bigM : Q) (rho : valuation Stage1.var) :
  feasible rho (calls (Stage1.build jobs machines bigM)) ->
  (forall i r k m p, In (i, r) jobs -> nth_error r k = Some (m, p) ->
     0 <= rho (Stage1.S i k)
     /\ rho (Stage1.C i k) == rho (Stage1.S i k) + p)
  /\ (forall i r k, In (i, r) jobs -> (k + 1 < length r)%nat ->
        rho (Stage1.C i k) <= rho (Stage1.S i (k + 1)))
  /\ (forall m i r k pa j r' l pb, In m machines ->
        In (i, r) jobs -> nth_error r k = Some (m, pa) ->
        In (j, r') jobs -> nth_error r' l = Some (m, pb) ->
        (i, k) <> (j, l) ->
        rho (Stage1.C j l) <= rho (Stage1.S i k)
        \/ rho (Stage1.C i k) <= rho (Stage1.S j l))
  /\ (has_empty_route jobs = false ->
      forall i r, In (i, r) jobs ->
        rho (Stage1.C i (length r - 1)) <= rho Stage1.Cmax).
Proof.
  intros F. split; [|split; [|split]].
  - intros i r k m p Hi Hk. split.
    + exact (start_nonneg1 jobs machines bigM rho F i r k (m, p) Hi Hk).
    + exact (completion_eq1 jobs machines bigM rho F i r k m p Hi Hk).
  - exact (job_order1 jobs machines bigM rho F).
  - intros m i r k pa j r' l pb.
    exact (no_overlap_ops1 jobs machines bigM rho m i r k pa j r' l pb F).
  - intros He i r. exact (cmax_bound1 jobs machines bigM rho F i r He).
Qed.

Lemma strategyA_feasible_is_schedule_witness :
  (schedule_A (Stage1.C 2 1) <= schedule_A (Stage1.S 1 0)
   \/ schedule_A (Stage1.C 1 0) <= schedule_A (Stage1.S 2 1))
  /\ schedule_A (Stage1.C 1 0) <= schedule_A (Stage1.S 1 (0 + 1))
  /\ schedule_A (Stage1.C 2 (2 - 1)) <= schedule_A Stage1.Cmax.
Proof.
  destruct (strategyA_feasible_is_schedule Stage1.jobs Stage1.machines Stage1.bigM
              schedule_A schedule_A_feasible) as [_ [H [Hn H']]].
  split; [|split].
  - apply (Hn 1%nat 1%nat [(1%nat, 3); (2%nat, 2)] 0%nat 3
              2%nat [(2%nat, 2); (1%nat, 1)] 1%nat 1).
    + now left.
    + now left.
    + reflexivity.
    + right. now left.
    + reflexivity.
    + discriminate.
  - apply (H 1%nat [(1%nat, 3); (2%nat, 2)]); [now left|simpl; lia].
  - apply (H' eq_refl 2%nat [(2%nat, 2); (1%nat, 1)]). right. now left.
Defined.

(** In every feasible point of the Strategy A model the makespan is at
    least the total processing time of each job, whatever the signs of the
    durations and whatever [bigM]. *)
Theorem strategyA_makespan_covers_job
  (jobs : jobdict) (machines : list nat) (bigM : Q) (rho : valuation Stage1.var)
  (i : nat) (r : route) :
  feasible rho (calls (Stage1.build jobs machines bigM)) ->
  has_empty_route jobs = false -> In (i, r) jobs ->
  qsum (map snd r) <= rho Stage1.Cmax.
Proof.
  intros F He Hi.
  pose proof (cmax_bound1 jobs machines bigM rho F i r He Hi) as Hc.
  pose proof (no_empty_route_in jobs i r He Hi) as Hne.
  assert (Hk : (length r - 1 < length r)%nat).
  { destruct r; [contradiction|simpl; lia]. }
  assert (Hl : (length r - 1 + 1 = length r)%nat) by lia.
  pose proof (completion_after_prefix jobs machines bigM rho F i r
                (length r - 1) Hi Hk) as Hp.
  rewrite Hl, firstn_all in Hp. unfold route, operation in *. lra.
Qed.

Lemma strategyA_makespan_covers_job_witness :
  qsum (map snd [(1%nat, 3); (2%nat, 2)]) <= schedule_A Stage1.Cmax.
Proof.
  apply (strategyA_makespan_covers_job Stage1.jobs Stage1.machines Stage1.bigM
           schedule_A 1%nat).
  - exact schedule_A_feasible.
  - reflexivity.
  - now left.
Defined.

(** A feasible point exists only if [bigM] is at least the sum of the two
    durations of every pair of operations that share a listed machine: the
    disjunct that is switched off still holds with slack [bigM]. *)
Theorem strategyA_bigM_covers_pair
  (jobs : jobdict) (machines : list nat) (bigM : Q) (rho : valuation Stage1.var)
  (m a b : nat) (ra rb : route) (ma mb : nat) (pa pb : Q) :
  feasible rho (calls (Stage1.build jobs machines bigM)) ->
  In m machines -> (a < b < length (Stage1.ops_on jobs m))%nat ->
  In (fst (nth a (Stage1.ops_on jobs m) (0, 0)%nat), ra) jobs ->
  nth_error ra (snd (nth a (Stage1.ops_on jobs m) (0, 0)%nat)) = Some (ma, pa) ->
  In (fst (nth b (Stage1.ops_on jobs m) (0, 0)%nat), rb) jobs ->
  nth_error rb (snd (nth b (Stage1.ops_on jobs m) (0, 0)%nat)) = Some (mb, pb) ->
  pa + pb <= bigM.
Proof.
  intros F Hm Hab Hra Hpa Hrb Hpb.
  destruct (disjunction1 jobs machines bigM rho F m a b Hm Hab) as [Hx [H1 H2]].
  pose proof (completion_eq1 jobs machines bigM rho F _ ra _ ma pa Hra Hpa) as Ea.
  pose proof (completion_eq1 jobs machines bigM rho F _ rb _ mb pb Hrb Hpb) as Eb.
  destruct Hx as [E|E]; rewrite E in H1, H2; lra.
Qed.

Lemma strategyA_bigM_covers_pair_witness : 3 + 1 <= Stage1.bigM.
Proof.
  apply (strategyA_bigM_covers_pair Stage1.jobs Stage1.machines Stage1.bigM
           schedule_A 1%nat 0%nat 1%nat
           [(1%nat, 3); (2%nat, 2)] [(2%nat, 2); (1%nat, 1)] 1%nat 1%nat).
  - exact schedule_A_feasible.
  - now left.
  - vm_compute. lia.
  - now left.
  - reflexivity.
  - right. now left.
  - reflexivity.
Defined.

(** ** Where a script stops *)

Lemma seq_raises {W A B} (m : script W A) (f : A -> script W B) (e : exn) :
  outcome m = inl e ->
  outcome (bind m f) = inl e /\ calls (bind m f) = calls m.
Proof.
  destruct m as [w [e'|a]]; unfold outcome, calls; simpl; intros H;
    [|discriminate H].
  inversion H; subst. auto.
Qed.

Lemma objective_none {V} (l : list (cmd V)) :
  Forall no_objective l -> objective l = None.
Proof.
  induction l as [|c l IH]; intros H; [reflexivity|].
  inversion H as [|? ? Hc Hl]; subst. destruct c; simpl in *;
    [now apply IH|now apply IH|contradiction].
Qed.

Lemma objective_last {V} (l : list (cmd V)) (e : expr V) :
  Forall no_objective l -> objective (l ++ [SetObjective e]) = Some e.
Proof.
  induction l as [|c l IH]; intros H; [reflexivity|].
  inversion H as [|? ? Hc Hl]; subst. destruct c; simpl in *;
    [now apply IH|now apply IH|contradiction].
Qed.

(** Discharges "this fragment does not set the objective". *)
Ltac sets_nothing :=
  repeat first
    [ progress intros
    | progress unfold operation, route in *
    | match goal with x : (_ * _)%type |- _ => destruct x end
    | progress cbv beta iota zeta
    | apply calls_for_Forall
    | apply calls_bind_Forall
    | match goal with |- Forall _ (calls (match ?r with _ => _ end)) => destruct r end
    | solve [repeat constructor] ].



(** ** Indicators that add up to one *)

Lemma qsum_zero_all_zero {A} (f : A -> Q) (l : list A) :
  (forall a, In a l -> 0 <= f a) -> qsum (map f l) == 0 ->
  forall a, In a l -> f a == 0.
Proof.
  induction l as [|b l IH]; intros Hn Hs a Ha; [contradiction|].
  simpl in Hs.
  assert (0 <= f b) by (apply Hn; now left).
  assert (0 <= qsum (map f l)) by (apply qsum_nonneg; intros; apply Hn; now right).
  destruct Ha as [->|Ha]; [lra|].
  apply IH; [intros; apply Hn; now right|lra|exact Ha].
Qed.

(** Values that are 0 or 1 and add up to one: exactly one of them is 1. *)
Lemma binary_sum_one {A} (f : A -> Q) (l : list A) :
  (forall a, In a l -> f a == 0 \/ f a == 1) -> qsum (map f l) == 1 ->
  exists l1 x l2, l = l1 ++ x :: l2 /\ f x == 1
                  /\ forall y, In y (l1 ++ l2) -> f y == 0.
Proof.
  induction l as [|a l IH]; intros Hb Hs; [simpl in Hs; lra|].
  simpl in Hs. destruct (Hb a (or_introl eq_refl)) as [E|E].
  - destruct IH as [l1 [x [l2 [El [Hx Hz]]]]].
    + intros; apply Hb; now right.
    + lra.
    + exists (a :: l1), x, l2. split; [now rewrite El|]. split; [exact Hx|].
      intros y [<-|Hy]; [exact E|now apply Hz].
  - exists [], a, l. split; [reflexivity|]. split; [exact E|].
    cbn [app]. apply qsum_zero_all_zero; [|lra].
    intros b Hb'. apply binary_nonneg. apply Hb. now right.
Qed.

(** Values that are 0 or 1 and add up to at most one: no two of them are 1. *)
Lemma binary_sum_le_one {A} (f : A -> Q) (l : list A) (x y : A) :
  (forall a, In a l -> f a == 0 \/ f a == 1) -> qsum (map f l) <= 1 ->
  In x l -> In y l -> x <> y -> f x == 1 -> f y == 0.
Proof.
  intros Hb Hs Hx Hy Hne E.
  destruct (in_split x l Hx) as [l1 [l2 El]]. subst l.
  rewrite map_app, qsum_app in Hs. simpl in Hs.
  assert (Hy' : In y (l1 ++ l2)).
  { apply in_app_or in Hy. apply in_or_app.
    destruct Hy as [Hy|[Hy|Hy]]; [now left|congruence|now right]. }
  assert (Hn : forall a, In a (l1 ++ l2) -> 0 <= f a).
  { intros a Ha. apply binary_nonneg, Hb. apply in_app_or in Ha.
    apply in_or_app. destruct Ha; [now left|right; now right]. }
  assert (H1 : 0 <= qsum (map f l1))
    by (apply qsum_nonneg; intros; apply Hn, in_or_app; now left).
  assert (H2 : 0 <= qsum (map f l2))
    by (apply qsum_nonneg; intros; apply Hn, in_or_app; now right).
  apply (qsum_zero_all_zero f (l1 ++ l2) Hn); [|exact Hy'].
  rewrite map_app, qsum_app. lra.
Qed.

Lemma in_app_middle {A} (l1 l2 : list A) (x y : A) :
  In y (l1 ++ x :: l2) -> y <> x -> In y (l1 ++ l2).
Proof.
  intros H Hne. apply in_app_or in H. apply in_or_app.
  destruct H as [H|[H|H]]; [now left|congruence|now right].
Qed.

(** The same over stage indices: one stage holds the 1, every other stage
    holds 0. *)
Lemma one_stage (f : nat -> Q) (n : nat) :
  (forall t, (t < n)%nat -> f t == 0 \/ f t == 1) ->
  qsum (map f (range n)) == 1 ->
  exists t, (t < n)%nat /\ f t == 1
            /\ forall t', (t' < n)%nat -> t' <> t -> f t' == 0.
Proof.
  intros Hb Hs.
  destruct (binary_sum_one f (range n)) as [l1 [t [l2 [El [Ht Hz]]]]].
  - intros t Ht. apply Hb. now apply in_range.
  - exact Hs.
  - exists t. split; [apply in_range; rewrite El; apply in_or_app; right; now left|].
    split; [exact Ht|]. intros t' Ht' Hne. apply Hz.
    apply (in_app_middle l1 l2 t t'); [|exact Hne].
    rewrite <- El. now apply in_range.
Qed.

Lemma qsum_weighted_zero {A} (w f : A -> Q) (l : list A) :
  (forall a, In a l -> f a == 0) -> qsum (map (fun a => w a * f a) l) == 0.
Proof.
  induction l as [|a l IH]; intros H; simpl; [lra|].
  rewrite (H a) by now left. rewrite IH by (intros; apply H; now right). lra.
Qed.

(** A weighted sum over stages of an indicator that holds stage [t0] is
    the weight of [t0]. *)
Lemma qsum_weighted_one_stage (w f : nat -> Q) (n t0 : nat) :
  (t0 < n)%nat -> f t0 == 1 ->
  (forall t', (t' < n)%nat -> t' <> t0 -> f t' == 0) ->
  qsum (map (fun t => w t * f t) (range n)) == w t0.
Proof.
  intros Ht E Hz.
  assert (Hin : In t0 (range n)) by now apply in_range.
  destruct (in_split t0 (range n) Hin) as [l1 [l2 El]].
  assert (Hnd : NoDup (l1 ++ t0 :: l2)).
  { rewrite <- El. unfold range, range2. apply seq_NoDup. }
  assert (Hz' : forall y, In y (l1 ++ l2) -> f y == 0).
  { intros y Hy. apply Hz.
    - apply in_range. rewrite El. apply in_app_or in Hy. apply in_or_app.
      destruct Hy; [now left|right; now right].
    - intros ->. apply NoDup_remove_2 in Hnd. contradiction. }
  rewrite El, map_app, qsum_app. simpl.
  rewrite (qsum_weighted_zero w f l1) by (intros; apply Hz', in_or_app; now left).
  rewrite (qsum_weighted_zero w f l2) by (intros; apply Hz', in_or_app; now right).
  rewrite E. lra.
Qed.

(** ** Strategy B: what a feasible point is *)

Lemma Qn_le (a b : nat) : Qn a <= Qn b <-> (a <= b)%nat.
Proof. unfold Qn. rewrite <- Zle_Qle. symmetry. apply Nat2Z.inj_le. Qed.

Lemma nth_error_lt {A} (l : list A) (k : nat) (a : A) :
  nth_error l k = Some a -> (k < length l)%nat.
Proof. intros H. apply nth_error_Some. rewrite H. discriminate. Qed.

Lemma capacity2_ok jobs machines n :
  outcome (Stage2.capacity jobs machines n) = inr tt.
Proof. unfold Stage2.capacity. never_raises. Qed.

Lemma start_times2_ok jobs n : outcome (Stage2.start_times jobs n) = inr tt.
Proof. unfold Stage2.start_times. never_raises_ops. Qed.

Lemma sequencing2_ok jobs n : outcome (Stage2.sequencing jobs n) = inr tt.
Proof. now rewrite sequencing_calls. Qed.

Lemma build2_calls jobs machines n :
  calls (Stage2.build jobs machines n)
  = calls (Stage2.declare_vars jobs n) ++ calls (Stage2.assign jobs n)
    ++ calls (Stage2.sequencing jobs n)
    ++ calls (Stage2.capacity jobs machines n)
    ++ calls (Stage2.start_times jobs n)
    ++ calls (Stage2.makespan jobs ;; setObjective (Var Stage2.Cmax)).
Proof.
  unfold Stage2.build.
  rewrite (calls_seq _ _ tt (declare_vars2_ok jobs n)).
  rewrite (calls_seq _ _ tt (assign2_ok jobs n)).
  rewrite (calls_seq _ _ tt (sequencing2_ok jobs n)).
  rewrite (calls_seq _ _ tt (capacity2_ok jobs machines n)).
  rewrite (calls_seq _ _ tt (start_times2_ok jobs n)).
  reflexivity.
Qed.


Lemma assign_added2 jobs machines n j r k :
  In (j, r) jobs -> (k < length r)%nat ->
  In (AddConstr (Some ("assign_" ++ str j ++ "_" ++ str k)%string)
        (Constr (quicksum (map (fun t => Var (Stage2.x j k t)) (range n)))
                EQ (Const 1)))
     (calls (Stage2.build jobs machines n)).
Proof.
  intros Hj Hk. rewrite build2_calls. apply in_or_app; right.
  apply in_or_app; left. unfold Stage2.assign.
  apply in_for_calls; [never_raises|]. exists (j, r). split; [exact Hj|].
  apply in_for_calls; [never_raises|]. exists k. split; [now apply in_range|].
  now left.
Qed.

Lemma seq_added2 jobs machines n j r k :
  In (j, r) jobs -> (k + 1 < length r)%nat -> (0 < n)%nat ->
  In (AddConstr (Some ("seq_" ++ str j ++ "_" ++ str k)%string)
                (Stage2.seq_constr n j k))
     (calls (Stage2.build jobs machines n)).
Proof.
  intros Hj Hk Hn. rewrite build2_calls. do 2 (apply in_or_app; right).
  apply in_or_app; left. rewrite sequencing_calls. unfold calls. cbn [fst].
  apply in_flat_map. exists (j, r). split; [exact Hj|]. cbn [fst snd].
  apply in_flat_map. exists k.
  split; [apply in_range; unfold route, operation in *; lia|].
  destruct n as [|n]; [lia|]. now left.
Qed.

Lemma capacity_added2 jobs machines n m t :
  In m machines -> (t < n)%nat ->
  In (AddConstr (Some ("mach_" ++ str m ++ "_" ++ str t)%string)
        (Constr
           (quicksum
              (flat_map (fun '(j, r) =>
                 flat_map (fun '(k, (machine, _)) =>
                   if Nat.eqb machine m then [Var (Stage2.x j k t)] else [])
                   (enumerate r)) jobs))
           LE (Const 1)))
     (calls (Stage2.build jobs machines n)).
Proof.
  intros Hm Ht. rewrite build2_calls. do 3 (apply in_or_app; right).
  apply in_or_app; left. unfold Stage2.capacity.
  apply in_for_calls; [never_raises|]. exists m. split; [exact Hm|].
  apply in_for_calls; [never_raises|]. exists t. split; [now apply in_range|].
  now left.
Qed.

Lemma start_added2 jobs machines n j r k m p :
  In (j, r) jobs -> nth_error r k = Some (m, p) ->
  In (AddConstr (Some ("starttime_" ++ str j ++ "_" ++ str k)%string)
        (Constr (Var (Stage2.S j k)) EQ
           (quicksum (map (fun t => Scale (Qn t * p) (Var (Stage2.x j k t)))
                          (range n)))))
     (calls (Stage2.build jobs machines n)).
Proof.
  intros Hj Hk. rewrite build2_calls. do 4 (apply in_or_app; right).
  apply in_or_app; left. unfold Stage2.start_times.
  apply in_for_calls; [never_raises_ops|]. exists (j, r). split; [exact Hj|].
  apply in_for_calls; [never_raises_ops|]. exists (k, (m, p)).
  split; [now apply in_enumerate|]. now left.
Qed.

Lemma makespan_added2 jobs machines n j r :
  has_empty_route jobs = false -> In (j, r) jobs ->
  In (AddConstr (Some ("makespan_" ++ str j)%string)
        (Constr (Var Stage2.Cmax) GE
           (Add (Var (Stage2.S j (length r - 1)))
                (Const (snd (nth (length r - 1) r (0%nat, 0)))))))
     (calls (Stage2.build jobs machines n)).
Proof.
  intros He Hj. rewrite build2_calls. do 5 (apply in_or_app; right).
  apply in_calls_l. unfold Stage2.makespan.
  apply in_for_calls.
  - intros [j' r'] Hj'. pose proof (no_empty_route_in jobs j' r' He Hj') as Hne.
    destruct r'; [contradiction|reflexivity].
  - exists (j, r). split; [exact Hj|].
    pose proof (no_empty_route_in jobs j r He Hj) as Hne.
    destruct r; [contradiction|now left].
Qed.

Lemma x_binary2 jobs machines n rho j r k t :
  feasible rho (calls (Stage2.build jobs machines n)) ->
  In (j, r) jobs -> (k < length r)%nat -> (t < n)%nat ->
  rho (Stage2.x j k t) == 0 \/ rho (Stage2.x j k t) == 1.
Proof.
  intros F Hj Hk Ht.
  assert (H : In (AddVar (Stage2.x j k t) BINARY 0)
                 (calls (Stage2.build jobs machines n))).
  { apply x_slots2. split; [reflexivity|]. split; [exact Ht|].
    apply in_all_ops. now exists r. }
  exact (feasible_in _ _ _ _ F H).
Qed.

Lemma schedule_B_feasible : feasible schedule_B Stage2.model.
Proof. apply feasibleb_feasible. vm_compute. reflexivity. Qed.

Section FeasibleB.

Variable jobs : jobdict.
Variable machines : list nat.
Variable n : nat.
Variable rho : valuation Stage2.var.
Hypothesis F : feasible rho (calls (Stage2.build jobs machines n)).

Lemma stage_of2 j r k :
  In (j, r) jobs -> (k < length r)%nat ->
  exists t, (t < n)%nat /\ rho (Stage2.x j k t) == 1
            /\ forall t', (t' < n)%nat -> t' <> t -> rho (Stage2.x j k t') == 0.
Proof.
  intros Hj Hk. apply one_stage.
  - intros t Ht. exact (x_binary2 jobs machines n rho j r k t F Hj Hk Ht).
  - pose proof (feasible_in _ _ _ _ F (assign_added2 jobs machines n j r k Hj Hk))
      as H.
    cbn [respects] in H. unfold sat in H. cbn [rel lhs rhs] in H.
    rewrite eval_quicksum, map_map in H. exact H.
Qed.

Lemma stage_unique2 j r k t t' :
  In (j, r) jobs -> (k < length r)%nat -> (t < n)%nat -> (t' < n)%nat ->
  rho (Stage2.x j k t) == 1 -> rho (Stage2.x j k t') == 1 -> t = t'.
Proof.
  intros Hj Hk Ht Ht' E E'.
  destruct (stage_of2 j r k Hj Hk) as [t0 [_ [_ Hz]]].
  destruct (Nat.eq_dec t t0) as [->|Hne].
  - destruct (Nat.eq_dec t' t0) as [->|Hne']; [reflexivity|].
    pose proof (Hz t' Ht' Hne'). lra.
  - pose proof (Hz t Ht Hne). lra.
Qed.

Lemma weighted_stage2 (w : nat -> Q) j r k t :
  In (j, r) jobs -> (k < length r)%nat -> (t < n)%nat ->
  rho (Stage2.x j k t) == 1 ->
  qsum (map (fun s => w s * rho (Stage2.x j k s)) (range n)) == w t.
Proof.
  intros Hj Hk Ht E. apply qsum_weighted_one_stage; [exact Ht|exact E|].
  intros t' Ht' Hne.
  destruct (x_binary2 jobs machines n rho j r k t' F Hj Hk Ht') as [Z|O];
    [exact Z|].
  exfalso. apply Hne. exact (stage_unique2 j r k t' t Hj Hk Ht' Ht O E).
Qed.

Lemma start_value2 j r k m p t :
  In (j, r) jobs -> nth_error r k = Some (m, p) -> (t < n)%nat ->
  rho (Stage2.x j k t) == 1 -> rho (Stage2.S j k) == Qn t * p.
Proof.
  intros Hj Hk Ht E.
  pose proof (nth_error_lt r k (m, p) Hk) as Hk'.
  pose proof (feasible_in _ _ _ _ F (start_added2 jobs machines n j r k m p Hj Hk))
    as H.
  cbn [respects] in H. unfold sat in H. cbn [rel lhs rhs eval] in H.
  rewrite eval_quicksum, map_map in H. cbn [eval] in H.
  rewrite H. exact (weighted_stage2 (fun s => Qn s * p) j r k t Hj Hk' Ht E).
Qed.

Lemma stage_order2 j r k t t' :
  In (j, r) jobs -> (k + 1 < length r)%nat -> (t < n)%nat -> (t' < n)%nat ->
  rho (Stage2.x j k t) == 1 -> rho (Stage2.x j (k + 1) t') == 1 ->
  (t + 1 <= t')%nat.
Proof.
  intros Hj Hk Ht Ht' E E'.
  assert (Hn : (0 < n)%nat) by lia.
  assert (Hk0 : (k < length r)%nat) by lia.
  pose proof (feasible_in _ _ _ _ F (seq_added2 jobs machines n j r k Hj Hk Hn))
    as H.
  cbn [respects] in H. unfold sat, Stage2.seq_constr in H. cbn [rel lhs rhs] in H.
  rewrite !eval_quicksum, !map_map in H. cbn [eval] in H.
  rewrite (weighted_stage2 (fun s => Qn (s + 1)) j r k t Hj Hk0 Ht E) in H.
  rewrite (weighted_stage2 (fun s => Qn s) j r (k + 1) t' Hj Hk Ht' E') in H.
  now apply Qn_le.
Qed.

Lemma capacity2 m t j r k p j' r' k' p' :
  In m machines -> (t < n)%nat ->
  In (j, r) jobs -> nth_error r k = Some (m, p) ->
  In (j', r') jobs -> nth_error r' k' = Some (m, p') ->
  (j, k) <> (j', k') ->
  rho (Stage2.x j k t) == 1 -> rho (Stage2.x j' k' t) == 0.
Proof.
  intros Hm Ht Hj Hk Hj' Hk' Hne E.
  pose proof (feasible_in _ _ _ _ F (capacity_added2 jobs machines n m t Hm Ht))
    as H.
  cbn [respects] in H. unfold sat in H. cbn [rel lhs rhs eval] in H.
  rewrite eval_quicksum in H.
  set (L := flat_map (fun '(j, r) =>
              flat_map (fun '(k, (machine, _)) =>
                if Nat.eqb machine m then [Var (Stage2.x j k t)] else [])
                (enumerate r)) jobs) in H.
  assert (Hin : forall j0 r0 k0 p0, In (j0, r0) jobs ->
            nth_error r0 k0 = Some (m, p0) -> In (Var (Stage2.x j0 k0 t)) L).
  { intros j0 r0 k0 p0 H0 H1. unfold L. apply in_flat_map.
    exists (j0, r0). split; [exact H0|]. apply in_flat_map.
    exists (k0, (m, p0)). split; [now apply in_enumerate|].
    rewrite Nat.eqb_refl. now left. }
  assert (Hb : forall e, In e L -> eval rho e == 0 \/ eval rho e == 1).
  { intros e He. unfold L in He. apply in_flat_map in He.
    destruct He as [[j0 r0] [H0 He]]. apply in_flat_map in He.
    destruct He as [[k0 [m0 p0]] [H1 He]].
    destruct (Nat.eqb m0 m); [|contradiction]. destruct He as [<-|[]].
    apply in_enumerate in H1. cbn [eval].
    apply (x_binary2 jobs machines n rho j0 r0 k0 t F H0); [|exact Ht].
    exact (nth_error_lt r0 k0 _ H1). }
  apply (binary_sum_le_one (eval rho) L (Var (Stage2.x j k t))
           (Var (Stage2.x j' k' t)) Hb H).
  - exact (Hin j r k p Hj Hk).
  - exact (Hin j' r' k' p' Hj' Hk').
  - intros Eq. inversion Eq. apply Hne. congruence.
  - exact E.
Qed.

Lemma cmax_bound2 j r :
  has_empty_route jobs = false -> In (j, r) jobs ->
  rho (Stage2.S j (length r - 1)) + snd (nth (length r - 1) r (0%nat, 0))
  <= rho Stage2.Cmax.
Proof.
  intros He Hj.
  exact (feasible_in _ _ _ _ F (makespan_added2 jobs machines n j r He Hj)).
Qed.

(** The stage of an operation is at least its position in the route. *)
Lemma stage_at_least_position2 j r k t :
  In (j, r) jobs -> (k < length r)%nat -> (t < n)%nat ->
  rho (Stage2.x j k t) == 1 -> (k <= t)%nat.
Proof.
  intros Hj. revert t. induction k as [|k IH]; intros t Hk Ht E; [lia|].
  assert (Hk0 : (k < length r)%nat) by lia.
  destruct (stage_of2 j r k Hj Hk0) as [t0 [Ht0 [E0 _]]].
  pose proof (IH t0 Hk0 Ht0 E0).
  assert (Hk1 : (k + 1 < length r)%nat) by lia.
  replace (Datatypes.S k) with (k + 1)%nat in E by lia.
  pose proof (stage_order2 j r k t0 t Hj Hk1 Ht0 Ht E0 E). lia.
Qed.

Lemma enough_stages2 j r : In (j, r) jobs -> (length r <= n)%nat.
Proof.
  intros Hj. destruct (Nat.eq_dec (length r) 0) as [->|Hne]; [lia|].
  assert (Hk : (length r - 1 < length r)%nat) by lia.
  destruct (stage_of2 j r (length r - 1) Hj Hk) as [t [Ht [E _]]].
  pose proof (stage_at_least_position2 j r (length r - 1) t Hj Hk Ht E). lia.
Qed.

End FeasibleB.

(** Every feasible point of the Strategy B model places each operation at
    exactly one stage; the start of an operation is its stage times its own
    duration; along a job the stage grows by at least one from an operation
    to the next; two operations of a listed machine never hold the same
    stage; and [Cmax] is at least the start of every job's last operation
    plus its duration. *)
Theorem strategyB_feasible_is_stage_schedule
  (jobs : jobdict) (machines : list nat) (num_stages : nat)
  (rho : valuation Stage2.var) :
  feasible rho (calls (Stage2.build jobs machines num_stages)) ->
  (forall j r k, In (j, r) jobs -> (k < length r)%nat ->
     exists t, (t < num_stages)%nat /\ rho (Stage2.x j k t) == 1
       /\ forall t', (t' < num_stages)%nat -> t' <> t ->
                     rho (Stage2.x j k t') == 0)
  /\ (forall j r k m p t, In (j, r) jobs -> nth_error r k = Some (m, p) ->
        (t < num_stages)%nat -> rho (Stage2.x j k t) == 1 ->
        rho (Stage2.S j k) == Qn t * p)
  /\ (forall j r k t t', In (j, r) jobs -> (k + 1 < length r)%nat ->
        (t < num_stages)%nat -> (t' < num_stages)%nat ->
        rho (Stage2.x j k t) == 1 -> rho (Stage2.x j (k + 1) t') == 1 ->
        (t + 1 <= t')%nat)
  /\ (forall m t j r k p j' r' k' p', In m machines -> (t < num_stages)%nat ->
        In (j, r) jobs -> nth_error r k = Some (m, p) ->
        In (j', r') jobs -> nth_error r' k' = Some (m, p') ->
        (j, k) <> (j', k') ->
        rho (Stage2.x j k t) == 1 -> rho (Stage2.x j' k' t) == 0)
  /\ (has_empty_route jobs = false ->
      forall j r, In (j, r) jobs ->
        rho (Stage2.S j (length r - 1)) + snd (nth (length r - 1) r (0%nat, 0))
        <= rho Stage2.Cmax).
Proof.
  intros F. split; [|split; [|split; [|split]]].
  - exact (stage_of2 jobs machines num_stages rho F).
  - exact (start_value2 jobs machines num_stages rho F).
  - exact (stage_order2 jobs machines num_stages rho F).
  - exact (capacity2 jobs machines num_stages rho F).
  - intros He j r. exact (cmax_bound2 jobs machines num_stages rho F j r He).
Qed.

Lemma strategyB_feasible_is_stage_schedule_witness :
  schedule_B (Stage2.S 3 0) == Qn 2 * 2
  /\ schedule_B (Stage2.x 3 0 0) == 0.
Proof.
  destruct (strategyB_feasible_is_stage_schedule Stage2.jobs Stage2.machines
              Stage2.num_stages schedule_B schedule_B_feasible)
    as [_ [H [_ [H' _]]]].
  split.
  - apply (H 3%nat [(1%nat, 2); (2%nat, 1)] 0%nat 1%nat 2 2%nat).
    + right. right. now left.
    + reflexivity.
    + unfold Stage2.num_stages. lia.
    + reflexivity.
  - apply (H' 1%nat 0%nat 1%nat [(1%nat, 3); (2%nat, 2)] 0%nat 3
              3%nat [(1%nat, 2); (2%nat, 1)] 0%nat 2).
    + now left.
    + unfold Stage2.num_stages. lia.
    + now left.
    + reflexivity.
    + right. right. now left.
    + reflexivity.
    + discriminate.
    + reflexivity.
Defined.

(** The Strategy B model has a feasible point only if no job has more
    operations than there are stages: the stage of an operation is at
    least its position in the route. *)
Theorem strategyB_needs_enough_stages
  (jobs : jobdict) (machines : list nat) (num_stages : nat)
  (rho : valuation Stage2.var) (j : nat) (r : route) :
  feasible rho (calls (Stage2.build jobs machines num_stages)) ->
  In (j, r) jobs ->
  (length r <= num_stages)%nat
  /\ forall k t, (k < length r)%nat -> (t < num_stages)%nat ->
       rho (Stage2.x j k t) == 1 -> (k <= t)%nat.
Proof.
  intros F Hj. split.
  - exact (enough_stages2 jobs machines num_stages rho F j r Hj).
  - intros k t. exact (stage_at_least_position2 jobs machines num_stages rho F j r k t Hj).
Qed.

Lemma strategyB_needs_enough_stages_witness :
  (length [(1%nat, 3); (2%nat, 2)] <= Stage2.num_stages)%nat.
Proof.
  assert (H : In (1%nat, [(1%nat, 3); (2%nat, 2)]) Stage2.jobs) by (now left).
  exact (proj1 (strategyB_needs_enough_stages Stage2.jobs Stage2.machines
                  Stage2.num_stages schedule_B 1%nat [(1%nat, 3); (2%nat, 2)]
                  schedule_B_feasible H)).
Defined.



(** ** Strategy C: what a feasible point is *)

Lemma schedule_C_feasible : feasible schedule_C (calls (Stage3.build two_ops)).
Proof. apply feasibleb_feasible. vm_compute. reflexivity. Qed.

Lemma one_per_stage_added3 routes k :
  (k < count_ops routes)%nat ->
  In (AddConstr None
        (Constr (quicksum (map (fun '(i, t) => Var (Stage3.eta k i t))
                               (all_ops routes)))
                EQ (Const 1)))
     (calls (Stage3.build routes)).
Proof.
  intros Hk. rewrite build3_calls. apply in_or_app; right.
  apply in_or_app; left. unfold Stage3.one_per_stage.
  apply in_for_calls; [never_raises|]. exists k. split; [now apply in_range|].
  now left.
Qed.

Lemma each_once_added3 routes i t :
  In (i, t) (all_ops routes) ->
  In (AddConstr None
        (Constr (quicksum (map (fun k => Var (Stage3.eta k i t))
                               (range (count_ops routes))))
                EQ (Const 1)))
     (calls (Stage3.build routes)).
Proof.
  intros Hi. rewrite build3_calls. do 2 (apply in_or_app; right).
  apply in_or_app; left. unfold Stage3.each_once.
  apply in_for_calls; [never_raises|]. exists (i, t). split; [exact Hi|].
  now left.
Qed.

Lemma makespan_added3 routes i t :
  In (i, t) (all_ops routes) ->
  In (AddConstr None
        (Constr (Var Stage3.Cmax) GE
                (Var (Stage3.Theta (count_ops routes) (fst (op_at routes i t))))))
     (calls (Stage3.build routes)).
Proof.
  intros Hi. rewrite build3_calls. do 4 (apply in_or_app; right).
  apply in_or_app; left. unfold Stage3.makespan.
  apply in_for_calls; [never_raises|]. exists (i, t). split; [exact Hi|].
  now left.
Qed.

Lemma precedence_added3 routes i r t k2 :
  In (i, r) routes -> (1 <= t < length r)%nat -> (k2 < count_ops routes)%nat ->
  In (AddConstr None (Stage3.precedence_constr i t k2))
     (calls (Stage3.build routes)).
Proof.
  intros Hi Ht Hk. rewrite build3_calls, precedence3_calls.
  do 5 (apply in_or_app; right). apply in_or_app; left.
  apply in_flat_map. exists (i, r). split; [exact Hi|]. cbn [fst snd].
  apply in_flat_map. exists t.
  split; [unfold range2; apply in_seq; unfold route, operation in *; lia|].
  apply in_map_iff. exists k2. split; [reflexivity|now apply in_range].
Qed.

Lemma qsum_all_zero {A} (f : A -> Q) (l : list A) :
  (forall a, In a l -> f a == 0) -> qsum (map f l) == 0.
Proof.
  induction l as [|a l IH]; intros H; simpl; [reflexivity|].
  rewrite (H a) by now left. rewrite IH by (intros; apply H; now right). lra.
Qed.

Lemma op_eq_dec (a b : nat * nat) : {a = b} + {a <> b}.
Proof. decide equality; apply Nat.eq_dec. Qed.

Section FeasibleC.

Variable routes : jobdict.
Variable rho : valuation Stage3.var.
Hypothesis F : feasible rho (calls (Stage3.build routes)).

Lemma eta_binary3 i t k :
  In (i, t) (all_ops routes) -> (k < count_ops routes)%nat ->
  rho (Stage3.eta k i t) == 0 \/ rho (Stage3.eta k i t) == 1.
Proof.
  intros Hi Hk. exact (feasible_in _ _ _ _ F (eta_declared3 routes i t k Hi Hk)).
Qed.

Lemma stage_of3 i t :
  In (i, t) (all_ops routes) ->
  exists k, (k < count_ops routes)%nat /\ rho (Stage3.eta k i t) == 1
    /\ forall k', (k' < count_ops routes)%nat -> k' <> k ->
                  rho (Stage3.eta k' i t) == 0.
Proof.
  intros Hi. apply one_stage.
  - intros k Hk. now apply eta_binary3.
  - pose proof (feasible_in _ _ _ _ F (each_once_added3 routes i t Hi)) as H.
    cbn [respects] in H. unfold sat in H. cbn [rel lhs rhs] in H.
    rewrite eval_quicksum, map_map in H. exact H.
Qed.

Lemma op_of3 k :
  (k < count_ops routes)%nat ->
  exists i t, In (i, t) (all_ops routes) /\ rho (Stage3.eta k i t) == 1
    /\ forall i' t', In (i', t') (all_ops routes) -> (i', t') <> (i, t) ->
                     rho (Stage3.eta k i' t') == 0.
Proof.
  intros Hk.
  pose proof (feasible_in _ _ _ _ F (one_per_stage_added3 routes k Hk)) as H.
  cbn [respects] in H. unfold sat in H. cbn [rel lhs rhs] in H.
  rewrite eval_quicksum, map_map in H.
  destruct (binary_sum_one (fun it => rho (Stage3.eta k (fst it) (snd it)))
              (all_ops routes)) as [l1 [[i t] [l2 [El [E Hz]]]]].
  - intros [i t] Hit. cbn [fst snd]. now apply eta_binary3.
  - rewrite <- H. apply qsum_map_eq. intros [i t] _. reflexivity.
  - exists i, t. split; [rewrite El; apply in_or_app; right; now left|].
    split; [exact E|]. intros i' t' Hin Hne.
    apply (Hz (i', t')). apply (in_app_middle l1 l2 (i, t)); [|exact Hne].
    now rewrite <- El.
Qed.

(** An operation placed at stage [k2] has its predecessor placed at an
    earlier stage. *)
Lemma stage_order3 i r t k1 k2 :
  In (i, r) routes -> (1 <= t < length r)%nat ->
  (k1 < count_ops routes)%nat -> (k2 < count_ops routes)%nat ->
  rho (Stage3.eta k1 i (t - 1)) == 1 -> rho (Stage3.eta k2 i t) == 1 ->
  (k1 < k2)%nat.
Proof.
  intros Hi Ht Hk1 Hk2 E1 E2.
  assert (Hp : In (i, (t - 1)%nat) (all_ops routes))
    by (apply in_all_ops; exists r; split; [exact Hi|unfold route, operation in *; lia]).
  assert (Hs : In (i, t) (all_ops routes))
    by (apply in_all_ops; exists r; split; [exact Hi|unfold route, operation in *; lia]).
  destruct (stage_of3 i (t - 1) Hp) as [kp [Hkp [Ep Hz]]].
  assert (kp = k1).
  { destruct (Nat.eq_dec k1 kp) as [->|Hne]; [reflexivity|].
    pose proof (Hz k1 Hk1 Hne). lra. }
  subst kp.
  pose proof (feasible_in _ _ _ _ F (precedence_added3 routes i r t k2 Hi Ht Hk2))
    as H.
  cbn [respects] in H. unfold sat, Stage3.precedence_constr in H.
  cbn [rel lhs rhs eval] in H. rewrite eval_quicksum, map_map in H.
  cbn [eval] in H.
  assert (Hle : (k1 <= k2)%nat).
  { destruct (le_lt_dec k1 k2) as [Hle|Hgt]; [exact Hle|exfalso].
    rewrite qsum_all_zero in H; [lra|].
    intros k Hk. apply in_range in Hk. apply Hz; lia. }
  destruct (Nat.eq_dec k1 k2) as [->|Hne]; [exfalso|lia].
  destruct (op_of3 k2 Hk2) as [i0 [t0 [_ [E0 Hz0]]]].
  destruct (op_eq_dec (i, t) (i0, t0)) as [A|N];
    [|pose proof (Hz0 _ _ Hs N); lra].
  assert (B : (i, (t - 1)%nat) <> (i0, t0)).
  { rewrite <- A. intros Eq. inversion Eq. lia. }
  pose proof (Hz0 _ _ Hp B). lra.
Qed.

End FeasibleC.

(** ** The makespan and the work of a machine *)

(** When every operation holds exactly one of the first [n] stages, the
    busy time of a machine through stage [n] is all the work of the
    machine. *)
Lemma busy_time_full routes x n m :
  (forall i t o, In (i, t, o) (placed_ops routes) ->
     qsum (map (fun k => x k i t) (range n)) == 1) ->
  busy_time routes x n m == machine_work routes m.
Proof.
  intros H. rewrite busy_time_by_op. unfold machine_work.
  apply qsum_map_eq. intros [[i t] o] He. apply filter_In in He.
  destruct He as [He _]. cbn [fst snd]. rewrite (H i t o He). lra.
Qed.

Lemma makespan_added4 routes m :
  In m (machines_of routes) ->
  In (AddConstr None
        (Constr (Var Stage4.Cmax) GE (Var (Stage4.Theta (count_ops routes) m))))
     (calls (Stage4.build routes)).
Proof.
  intros Hm. rewrite build4_calls. do 5 (apply in_or_app; right).
  apply in_or_app; left. unfold Stage4.makespan.
  apply in_for_calls; [never_raises|]. exists m. split; [exact Hm|]. now left.
Qed.

Lemma route_of_unique routes i r :
  NoDup (map fst routes) -> In (i, r) routes -> route_of routes i = r.
Proof.
  unfold route_of. induction routes as [|[j r'] routes IH]; intros Hn Hi;
    [contradiction|].
  simpl in Hn. inversion Hn as [|? ? Hj Hn']; subst. simpl.
  destruct (Nat.eqb j i) eqn:E.
  - apply Nat.eqb_eq in E. subst j. destruct Hi as [Hi|Hi].
    + now inversion Hi.
    + exfalso. apply Hj. apply in_map_iff. now exists (i, r).
  - destruct Hi as [Hi|Hi].
    + inversion Hi; subst. rewrite Nat.eqb_refl in E. discriminate E.
    + now apply IH.
Qed.

Lemma flat_map_ext_in {A B} (f g : A -> list B) (l : list A) :
  (forall a, In a l -> f a = g a) -> flat_map f l = flat_map g l.
Proof.
  induction l as [|a l IH]; intros H; simpl; [reflexivity|].
  rewrite (H a) by now left. rewrite IH by (intros; apply H; now right).
  reflexivity.
Qed.

Lemma map_flat_map {A B C} (g : B -> C) (f : A -> list B) (l : list A) :
  map g (flat_map f l) = flat_map (fun a => map g (f a)) l.
Proof.
  induction l as [|a l IH]; simpl; [reflexivity|]. now rewrite map_app, IH.
Qed.

Lemma filter_map_swap {A B} (p : B -> bool) (g : A -> B) (l : list A) :
  filter p (map g l) = map g (filter (fun a => p (g a)) l).
Proof.
  induction l as [|a l IH]; simpl; [reflexivity|].
  destruct (p (g a)); simpl; now rewrite IH.
Qed.

(** With distinct job ids, looking an operation up by job id and index
    finds the operation that stands at that place of the route. *)
Lemma placed_ops_lookup routes :
  NoDup (map fst routes) ->
  placed_ops routes
  = map (fun it => (fst it, snd it, op_at routes (fst it) (snd it)))
        (all_ops routes).
Proof.
  intros Hn. unfold placed_ops, all_ops. rewrite map_flat_map.
  apply flat_map_ext_in. intros [i r] Hi. rewrite map_map. cbn [fst snd].
  apply map_ext. intros t. unfold op_at.
  now rewrite (route_of_unique routes i r Hn Hi).
Qed.

Lemma eval_load3 routes rho k m :
  NoDup (map fst routes) ->
  eval rho (Stage3.load routes k m)
  == stage_load routes (fun k i t => rho (Stage3.eta k i t)) k m.
Proof.
  intros Hn. unfold Stage3.load, stage_load.
  rewrite eval_quicksum, map_map, (placed_ops_lookup routes Hn).
  rewrite filter_map_swap, map_map. cbn [fst snd].
  assert (E : filter (fun '(i, t) => Nat.eqb (fst (op_at routes i t)) m)
                     (all_ops routes)
              = filter (fun a => Nat.eqb (fst (op_at routes (fst a) (snd a))) m)
                       (all_ops routes)).
  { apply filter_ext. intros [i t]. reflexivity. }
  unfold Stage3.ops. rewrite E. apply qsum_map_eq. intros [i t] _. reflexivity.
Qed.

Lemma theta_at_least_busy3 routes rho k m :
  NoDup (map fst routes) ->
  feasible rho (calls (Stage3.build routes)) ->
  In m (machines_of routes) -> (k <= count_ops routes)%nat ->
  busy_time routes (fun k i t => rho (Stage3.eta k i t)) k m
  <= rho (Stage3.Theta k m).
Proof.
  intros Hn F Hm. induction k as [|k IH]; intros Hk; cbn [busy_time].
  - exact (feasible_in _ _ _ _ F (theta_declared3 routes 0 m (Nat.le_0_l _) Hm)).
  - assert (Hk' : (k < count_ops routes)%nat) by lia.
    pose proof (feasible_in _ _ _ _ F (recursion_added3 routes k m Hk' Hm)) as H.
    cbn [respects] in H. unfold sat in H. cbn [rel lhs rhs] in H.
    cbn [eval] in H. rewrite (eval_load3 routes rho k m Hn) in H.
    replace (Datatypes.S k) with (k + 1)%nat by lia.
    assert (busy_time routes (fun k i t => rho (Stage3.eta k i t)) k m
            <= rho (Stage3.Theta k m)) by (apply IH; lia).
    lra.
Qed.

Lemma placed_ops_all_ops routes i t o :
  In (i, t, o) (placed_ops routes) -> In (i, t) (all_ops routes).
Proof.
  intros H. apply in_placed_ops in H. destruct H as [r [Hr [Ht _]]].
  apply in_all_ops. now exists r.
Qed.

Lemma cmax_covers_machine3 routes rho m :
  NoDup (map fst routes) ->
  feasible rho (calls (Stage3.build routes)) ->
  In m (machines_of routes) ->
  machine_work routes m <= rho Stage3.Cmax.
Proof.
  intros Hn F Hm.
  pose proof (theta_at_least_busy3 routes rho (count_ops routes) m Hn F Hm
                (Nat.le_refl _)) as Hb.
  rewrite busy_time_full in Hb.
  - apply in_machines_of in Hm. destruct Hm as [i [r [p [Hr Hp]]]].
    destruct (In_nth r (m, p) (0%nat, 0) Hp) as [t [Ht Et]].
    assert (Hit : In (i, t) (all_ops routes)) by (apply in_all_ops; now exists r).
    pose proof (feasible_in _ _ _ _ F (makespan_added3 routes i t Hit)) as H.
    cbn [respects] in H. unfold sat in H. cbn [rel lhs rhs eval] in H.
    unfold op_at in H. rewrite (route_of_unique routes i r Hn Hr), Et in H.
    cbn [fst] in H. lra.
  - intros i t o He. apply placed_ops_all_ops in He.
    destruct (stage_of3 routes rho F i t He) as [k [Hk [E Hz]]].
    rewrite <- (Qmult_1_l (rho (Stage3.eta k i t))) in E.
    pose proof (qsum_weighted_one_stage (fun _ => 1)
                  (fun k => rho (Stage3.eta k i t)) _ k Hk) as W.
    rewrite <- W.
    + apply qsum_map_eq. intros; lra.
    + lra.
    + exact Hz.
Qed.

Lemma cmax_covers_machine4 routes rho m :
  feasible rho (calls (Stage4.build routes)) ->
  In m (machines_of routes) ->
  machine_work routes m <= rho Stage4.Cmax.
Proof.
  intros F Hm.
  pose proof (theta_at_least_busy4 routes rho (count_ops routes) m F Hm
                (Nat.le_refl _)) as Hb.
  rewrite busy_time_full in Hb.
  - pose proof (feasible_in _ _ _ _ F (makespan_added4 routes m Hm)) as H.
    cbn [respects] in H. unfold sat in H. cbn [rel lhs rhs eval] in H. lra.
  - exact (proj2 (placement_feasible4 routes rho F)).
Qed.

(** Every feasible point of the Strategy C model is a one-to-one placement
    of operations in stages: each operation has exactly one stage, each
    stage exactly one operation, and an operation is placed strictly after
    its predecessor in the job. *)
Theorem strategyC_feasible_is_sequence
  (routes : jobdict) (rho : valuation Stage3.var) :
  feasible rho (calls (Stage3.build routes)) ->
  (forall i t, In (i, t) (all_ops routes) ->
     exists k, (k < count_ops routes)%nat /\ rho (Stage3.eta k i t) == 1
       /\ forall k', (k' < count_ops routes)%nat -> k' <> k ->
                     rho (Stage3.eta k' i t) == 0)
  /\ (forall k, (k < count_ops routes)%nat ->
        exists i t, In (i, t) (all_ops routes) /\ rho (Stage3.eta k i t) == 1
          /\ forall i' t', In (i', t') (all_ops routes) -> (i', t') <> (i, t) ->
                           rho (Stage3.eta k i' t') == 0)
  /\ (forall i r t k1 k2, In (i, r) routes -> (1 <= t < length r)%nat ->
        (k1 < count_ops routes)%nat -> (k2 < count_ops routes)%nat ->
        rho (Stage3.eta k1 i (t - 1)) == 1 -> rho (Stage3.eta k2 i t) == 1 ->
        (k1 < k2)%nat).
Proof.
  intros F. split; [|split].
  - exact (stage_of3 routes rho F).
  - exact (op_of3 routes rho F).
  - exact (stage_order3 routes rho F).
Qed.

Lemma strategyC_feasible_is_sequence_witness :
  exists i t, In (i, t) (all_ops two_ops) /\ schedule_C (Stage3.eta 1 i t) == 1
    /\ forall i' t', In (i', t') (all_ops two_ops) -> (i', t') <> (i, t) ->
                     schedule_C (Stage3.eta 1 i' t') == 0.
Proof.
  destruct (strategyC_feasible_is_sequence two_ops schedule_C schedule_C_feasible)
    as [_ [H _]].
  apply (H 1%nat). vm_compute. lia.
Defined.

(** In every feasible point of the Strategy C model, [Cmax] is at least
    the total duration of the operations of each machine. *)
Theorem strategyC_makespan_covers_machine
  (routes : jobdict) (rho : valuation Stage3.var) (m : nat) :
  NoDup (map fst routes) ->
  feasible rho (calls (Stage3.build routes)) ->
  In m (machines_of routes) ->
  machine_work routes m <= rho Stage3.Cmax.
Proof. exact (cmax_covers_machine3 routes rho m). Qed.

Lemma strategyC_makespan_covers_machine_witness :
  machine_work two_ops 2 <= schedule_C Stage3.Cmax.
Proof.
  apply (strategyC_makespan_covers_machine two_ops schedule_C 2%nat).
  - repeat constructor. intros [].
  - exact schedule_C_feasible.
  - vm_compute. right. now left.
Defined.

(** ** Strategy D: what a feasible point is *)

Lemma theta_declared4 routes k m :
  (k <= count_ops routes)%nat -> In m (machines_of routes) ->
  In (AddVar (Stage4.Theta k m) CONTINUOUS 0) (calls (Stage4.build routes)).
Proof.
  intros Hk Hm. rewrite build4_calls. apply in_or_app; left.
  unfold Stage4.declare_vars. apply in_calls_l.
  apply in_for_calls; [never_raises|]. exists k.
  split; [apply in_range; unfold Stage4.S, Stage4.K; lia|].
  apply in_for_calls; [never_raises|]. exists m. split; [exact Hm|]. now left.
Qed.

Lemma capacity_added4 routes k m :
  (k < count_ops routes)%nat -> In m (machines_of routes) ->
  In (AddConstr None
        (Constr (quicksum (Stage4.on_machine routes (fun _ e => e) k m))
                LE (Const 1)))
     (calls (Stage4.build routes)).
Proof.
  intros Hk Hm. rewrite build4_calls. do 2 (apply in_or_app; right).
  apply in_or_app; left. unfold Stage4.capacity.
  apply in_for_calls; [never_raises|]. exists k. split; [now apply in_range|].
  apply in_for_calls; [never_raises|]. exists m. split; [exact Hm|]. now left.
Qed.

Lemma waiting_added4 routes i r t k1 k2 :
  In (i, r) routes -> (t + 1 < length r)%nat ->
  (k1 < count_ops routes)%nat -> (k2 < count_ops routes)%nat ->
  In (AddConstr None
        (Constr (Add (Var (Stage4.W i t)) (Stage4.slack routes i t k1 k2))
                GE
                (Sub (Var (Stage4.Theta k2 (fst (nth (t + 1) r (0%nat, 0)))))
                     (Var (Stage4.Theta (k1 + 1) (fst (nth t r (0%nat, 0))))))))
     (calls (Stage4.build routes)).
Proof.
  intros Hi Ht Hk1 Hk2. rewrite build4_calls. do 7 (apply in_or_app; right).
  apply in_or_app; left. unfold Stage4.waiting.
  apply in_for_calls; [never_raises|]. exists (i, r). split; [exact Hi|].
  apply in_for_calls; [never_raises|]. exists t.
  split; [apply in_range; unfold route, operation in *; lia|]. cbv zeta.
  apply in_for_calls; [never_raises|]. exists k1. split; [now apply in_range|].
  apply in_for_calls; [never_raises|]. exists k2. split; [now apply in_range|].
  now left.
Qed.

(** The job-completion loop of stage 4 stops with [IndexError] at the
    first empty route, and only then. *)
Lemma job_completion4_outcome routes :
  outcome (Stage4.job_completion routes)
  = if has_empty_route routes then inl IndexError else inr tt.
Proof.
  unfold Stage4.job_completion.
  assert (G : forall l,
    outcome (for_ l (fun '(i, r) =>
       let last := (length r - 1)%nat in
       match r with
       | [] => raise IndexError
       | _ :: _ =>
           let m_last := fst (nth last r (0%nat, 0)) in
           for_ (range (Stage4.S routes)) (fun k =>
             addConstr
               (Constr (Add (Var (Stage4.Cjob i))
                            (Scale (Stage4.M routes)
                               (Sub (Const 1) (Var (Stage4.eta k i last)))))
                       GE (Var (Stage4.Theta (k + 1) m_last)))) ;;
           addConstr (Constr (Var Stage4.Cmax) GE (Var (Stage4.Cjob i)))
       end))
    = if has_empty_route l then inl IndexError else inr tt).
  { unfold has_empty_route. induction l as [|[i r] l IH]; [reflexivity|].
    cbn [for_ existsb snd]. destruct r as [|o r].
    - reflexivity.
    - cbn [orb]. rewrite (outcome_seq _ _ tt); [exact IH|].
      cbv zeta. rewrite (outcome_seq _ _ tt); [reflexivity|never_raises]. }
  apply G.
Qed.

Lemma completion_added4 routes i r k c :
  has_empty_route routes = false -> In (i, r) routes ->
  (k < count_ops routes)%nat ->
  c = AddConstr None
        (Constr (Add (Var (Stage4.Cjob i))
                     (Scale (sum_durations routes)
                        (Sub (Const 1) (Var (Stage4.eta k i (length r - 1))))))
                GE (Var (Stage4.Theta (k + 1)
                          (fst (nth (length r - 1) r (0%nat, 0))))))
  \/ c = AddConstr None (Constr (Var Stage4.Cmax) GE (Var (Stage4.Cjob i))) ->
  In c (calls (Stage4.build routes)).
Proof.
  intros He Hi Hk Hc. rewrite build4_calls. do 8 (apply in_or_app; right).
  apply in_calls_l. unfold Stage4.job_completion.
  assert (Hok : forall jr, In jr routes ->
    outcome ((fun '(i, r) =>
       let last := (length r - 1)%nat in
       match r with
       | [] => raise IndexError
       | _ :: _ =>
           let m_last := fst (nth last r (0%nat, 0)) in
           for_ (range (Stage4.S routes)) (fun k =>
             addConstr
               (Constr (Add (Var (Stage4.Cjob i))
                            (Scale (Stage4.M routes)
                               (Sub (Const 1) (Var (Stage4.eta k i last)))))
                       GE (Var (Stage4.Theta (k + 1) m_last)))) ;;
           addConstr (Constr (Var Stage4.Cmax) GE (Var (Stage4.Cjob i)))
       end) jr) = inr tt).
  { intros [j r'] Hj. pose proof (no_empty_route_in routes j r' He Hj) as Hne.
    destruct r'; [contradiction|]. cbv zeta.
    rewrite (outcome_seq _ _ tt); [reflexivity|never_raises]. }
  apply in_for_calls; [exact Hok|]. exists (i, r). split; [exact Hi|].
  pose proof (no_empty_route_in routes i r He Hi) as Hne.
  destruct r as [|o r']; [contradiction|]. cbv zeta.
  destruct Hc as [->| ->].
  - apply in_calls_l. apply in_for_calls; [never_raises|]. exists k.
    split; [now apply in_range|]. now left.
  - apply (in_calls_r _ _ tt); [never_raises|]. now left.
Qed.

Section FeasibleD.

Variable routes : jobdict.
Variable rho : valuation Stage4.var.
Hypothesis F : feasible rho (calls (Stage4.build routes)).

Lemma eta_binary4 i r t k :
  In (i, r) routes -> (t < length r)%nat -> (k < count_ops routes)%nat ->
  rho (Stage4.eta k i t) == 0 \/ rho (Stage4.eta k i t) == 1.
Proof.
  intros Hi Ht Hk.
  exact (feasible_in _ _ _ _ F (eta_declared4 routes i r t k Hi Ht Hk)).
Qed.

Lemma stage_of4 i r t :
  In (i, r) routes -> (t < length r)%nat ->
  exists k, (k < count_ops routes)%nat /\ rho (Stage4.eta k i t) == 1
    /\ forall k', (k' < count_ops routes)%nat -> k' <> k ->
                  rho (Stage4.eta k' i t) == 0.
Proof.
  intros Hi Ht. apply one_stage.
  - intros k Hk. exact (eta_binary4 i r t k Hi Ht Hk).
  - pose proof (feasible_in _ _ _ _ F (each_once_added4 routes i r t Hi Ht)) as H.
    cbn [respects] in H. unfold sat in H. cbn [rel lhs rhs] in H.
    rewrite eval_quicksum, map_map in H. exact H.
Qed.

Lemma capacity4 k m i r t i' r' t' :
  (k < count_ops routes)%nat ->
  In (i, r) routes -> (t < length r)%nat -> fst (nth t r (0%nat, 0)) = m ->
  In (i', r') routes -> (t' < length r')%nat ->
  fst (nth t' r' (0%nat, 0)) = m ->
  (i, t) <> (i', t') ->
  rho (Stage4.eta k i t) == 1 -> rho (Stage4.eta k i' t') == 0.
Proof.
  intros Hk Hi Ht Em Hi' Ht' Em' Hne E.
  assert (Hm : In m (machines_of routes)).
  { rewrite <- Em. exact (machine_of_op routes i r t Hi Ht). }
  pose proof (feasible_in _ _ _ _ F (capacity_added4 routes k m Hk Hm)) as H.
  cbn [respects] in H. unfold sat in H. cbn [rel lhs rhs eval] in H.
  rewrite eval_quicksum, on_machine_placed in H.
  set (L := map (fun e => Var (Stage4.eta k (fst (fst e)) (snd (fst e))))
                (filter (fun e => Nat.eqb (fst (snd e)) m) (placed_ops routes)))
    in H.
  assert (Hin : forall j r0 s, In (j, r0) routes -> (s < length r0)%nat ->
            fst (nth s r0 (0%nat, 0)) = m -> In (Var (Stage4.eta k j s)) L).
  { intros j r0 s H0 H1 H2. unfold L. apply in_map_iff.
    exists (j, s, nth s r0 (0%nat, 0)). split; [reflexivity|].
    apply filter_In. split.
    - apply in_placed_ops. now exists r0.
    - cbn [fst snd]. now apply Nat.eqb_eq. }
  assert (Hb : forall e, In e L -> eval rho e == 0 \/ eval rho e == 1).
  { intros e He. unfold L in He. apply in_map_iff in He.
    destruct He as [[[j s] o] [<- He]]. apply filter_In in He.
    destruct He as [He _]. apply in_placed_ops in He.
    destruct He as [r0 [H0 [H1 _]]]. cbn [fst snd eval].
    exact (eta_binary4 j r0 s k H0 H1 Hk). }
  apply (binary_sum_le_one (eval rho) L (Var (Stage4.eta k i t))
           (Var (Stage4.eta k i' t')) Hb H).
  - exact (Hin i r t Hi Ht Em).
  - exact (Hin i' r' t' Hi' Ht' Em').
  - intros Eq. inversion Eq. apply Hne. congruence.
  - exact E.
Qed.

(** The Big-M precedence and waiting inequalities, once both operations
    are placed. *)
Lemma precedence_active4 i r t k1 k2 :
  In (i, r) routes -> (t + 1 < length r)%nat ->
  (k1 < count_ops routes)%nat -> (k2 < count_ops routes)%nat ->
  rho (Stage4.eta k1 i t) == 1 -> rho (Stage4.eta k2 i (t + 1)) == 1 ->
  rho (Stage4.Theta (k1 + 1) (fst (nth t r (0%nat, 0))))
  <= rho (Stage4.Theta k2 (fst (nth (t + 1) r (0%nat, 0))))
  /\ rho (Stage4.Theta k2 (fst (nth (t + 1) r (0%nat, 0))))
     - rho (Stage4.Theta (k1 + 1) (fst (nth t r (0%nat, 0))))
     <= rho (Stage4.W i t).
Proof.
  intros Hi Ht Hk1 Hk2 E1 E2.
  pose proof (feasible_in _ _ _ _ F (in_precedence4 routes i r t k1 k2 Hi Ht Hk1 Hk2))
    as H.
  pose proof (feasible_in _ _ _ _ F (waiting_added4 routes i r t k1 k2 Hi Ht Hk1 Hk2))
    as H'.
  cbn [respects] in H, H'. unfold sat, Stage4.precedence_constr, Stage4.slack in H, H'.
  cbn [rel lhs rhs eval] in H, H'. rewrite E1, E2 in H, H'. split; lra.
Qed.

Lemma completion_active4 i r k :
  has_empty_route routes = false -> In (i, r) routes ->
  (k < count_ops routes)%nat ->
  rho (Stage4.eta k i (length r - 1)) == 1 ->
  rho (Stage4.Theta (k + 1) (fst (nth (length r - 1) r (0%nat, 0))))
  <= rho (Stage4.Cjob i)
  /\ rho (Stage4.Cjob i) <= rho Stage4.Cmax.
Proof.
  intros He Hi Hk E.
  pose proof (feasible_in _ _ _ _ F
                (completion_added4 routes i r k _ He Hi Hk (or_introl eq_refl))) as H.
  pose proof (feasible_in _ _ _ _ F
                (completion_added4 routes i r k _ He Hi Hk (or_intror eq_refl))) as H'.
  cbn [respects] in H, H'. unfold sat in H, H'.
  cbn [rel lhs rhs eval] in H, H'. rewrite E in H. split; lra.
Qed.

(** The work a stage credits to the machine of an operation placed in it
    is at least the duration of that operation. *)
Lemma load_at_least_op4 i r t k :
  (forall j r' mp, In (j, r') routes -> In mp r' -> 0 <= snd mp) ->
  In (i, r) routes -> (t < length r)%nat -> (k < count_ops routes)%nat ->
  rho (Stage4.eta k i t) == 1 ->
  snd (nth t r (0%nat, 0))
  <= stage_load routes (fun k i t => rho (Stage4.eta k i t)) k
       (fst (nth t r (0%nat, 0))).
Proof.
  intros Hp Hi Ht Hk E. unfold stage_load.
  set (f := fun e : nat * nat * operation =>
              snd (snd e) * rho (Stage4.eta k (fst (fst e)) (snd (fst e)))).
  assert (Hf : f (i, t, nth t r (0%nat, 0)) == snd (nth t r (0%nat, 0))).
  { unfold f. cbn [fst snd]. rewrite E. lra. }
  rewrite <- Hf. apply (qsum_in_le f).
  - intros [[j s] o] He. apply filter_In in He. destruct He as [He _].
    unfold f. cbn [fst snd].
    pose proof (placed_ops_nonneg routes Hp _ He) as Hd. cbn [snd] in Hd.
    apply in_placed_ops in He. destruct He as [r0 [H0 [H1 _]]].
    pose proof (binary_nonneg _ (eta_binary4 j r0 s k H0 H1 Hk)). nra.
  - apply filter_In. split.
    + apply in_placed_ops. now exists r.
    + cbn [fst snd]. apply Nat.eqb_refl.
Qed.

(** With non-negative durations, the availability of the machine of an
    operation, one stage after the operation's own, is at least the
    durations of the job up to and including that operation. *)
Lemma theta_after_prefix4 i r t k :
  (forall j r' mp, In (j, r') routes -> In mp r' -> 0 <= snd mp) ->
  In (i, r) routes -> (t < length r)%nat -> (k < count_ops routes)%nat ->
  rho (Stage4.eta k i t) == 1 ->
  qsum (map snd (firstn (t + 1) r))
  <= rho (Stage4.Theta (k + 1) (fst (nth t r (0%nat, 0)))).
Proof.
  intros Hp Hi. revert k. induction t as [|t IH]; intros k Ht Hk E.
  - assert (Hm : In (fst (nth 0 r (0%nat, 0))) (machines_of routes))
      by exact (machine_of_op routes i r 0 Hi Ht).
    pose proof (feasible_in _ _ _ _ F
                  (theta_declared4 routes k _ (Nat.lt_le_incl _ _ Hk) Hm)) as H0.
    pose proof (feasible_in _ _ _ _ F (recursion_added4 routes k _ Hk Hm)) as H.
    cbn [respects] in H0, H. unfold sat in H. cbn [rel lhs rhs] in H.
    cbn [eval] in H. rewrite eval_load4 in H.
    pose proof (load_at_least_op4 i r 0 k Hp Hi Ht Hk E) as Hl.
    destruct r as [|o r']; [simpl in Ht; lia|].
    cbn [firstn Nat.add map qsum fold_right nth] in *. lra.
  - assert (Ht0 : (t < length r)%nat) by lia.
    assert (Ht1 : (t + 1 < length r)%nat) by lia.
    destruct (stage_of4 i r t Hi Ht0) as [k0 [Hk0 [E0 _]]].
    pose proof (IH k0 Ht0 Hk0 E0) as Hprev.
    replace (Datatypes.S t) with (t + 1)%nat in * by lia.
    destruct (precedence_active4 i r t k0 k Hi Ht1 Hk0 Hk E0 E) as [Hord _].
    assert (Hm : In (fst (nth (t + 1) r (0%nat, 0))) (machines_of routes))
      by exact (machine_of_op routes i r (t + 1) Hi Ht).
    pose proof (feasible_in _ _ _ _ F (recursion_added4 routes k _ Hk Hm)) as H.
    cbn [respects] in H. unfold sat in H. cbn [rel lhs rhs] in H.
    cbn [eval] in H. rewrite eval_load4 in H.
    pose proof (load_at_least_op4 i r (t + 1) k Hp Hi Ht Hk E) as Hl.
    destruct (nth_error r (t + 1)) as [o|] eqn:En.
    + rewrite (firstn_snoc r (t + 1) o En), map_app, qsum_app.
      rewrite (nth_error_nth r (t + 1) (0%nat, 0) En) in *.
      unfold qsum at 2. cbn [map fold_right].
      unfold route, operation in *. lra.
    + apply nth_error_None in En. unfold route, operation in *. lia.
Qed.

End FeasibleD.

(** Every feasible point of the Strategy D model places each operation in
    exactly one stage and at most one operation of a machine in a stage;
    once two consecutive operations of a job are placed, the successor's
    machine is available no earlier than the predecessor's machine is
    released, and the waiting variable is at least the gap between the
    two; and once the last operation of a job is placed, the job's
    completion variable is at least the release of its machine and at most
    [Cmax]. *)
Theorem strategyD_feasible_is_stage_schedule
  (routes : jobdict) (rho : valuation Stage4.var) :
  feasible rho (calls (Stage4.build routes)) ->
  (forall i r t, In (i, r) routes -> (t < length r)%nat ->
     exists k, (k < count_ops routes)%nat /\ rho (Stage4.eta k i t) == 1
       /\ forall k', (k' < count_ops routes)%nat -> k' <> k ->
                     rho (Stage4.eta k' i t) == 0)
  /\ (forall k m i r t i' r' t', (k < count_ops routes)%nat ->
        In (i, r) routes -> (t < length r)%nat ->
        fst (nth t r (0%nat, 0)) = m ->
        In (i', r') routes -> (t' < length r')%nat ->
        fst (nth t' r' (0%nat, 0)) = m ->
        (i, t) <> (i', t') ->
        rho (Stage4.eta k i t) == 1 -> rho (Stage4.eta k i' t') == 0)
  /\ (forall i r t k1 k2, In (i, r) routes -> (t + 1 < length r)%nat ->
        (k1 < count_ops routes)%nat -> (k2 < count_ops routes)%nat ->
        rho (Stage4.eta k1 i t) == 1 -> rho (Stage4.eta k2 i (t + 1)) == 1 ->
        rho (Stage4.Theta (k1 + 1) (fst (nth t r (0%nat, 0))))
        <= rho (Stage4.Theta k2 (fst (nth (t + 1) r (0%nat, 0))))
        /\ rho (Stage4.Theta k2 (fst (nth (t + 1) r (0%nat, 0))))
           - rho (Stage4.Theta (k1 + 1) (fst (nth t r (0%nat, 0))))
           <= rho (Stage4.W i t))
  /\ (has_empty_route routes = false ->
      forall i r k, In (i, r) routes -> (k < count_ops routes)%nat ->
        rho (Stage4.eta k i (length r - 1)) == 1 ->
        rho (Stage4.Theta (k + 1) (fst (nth (length r - 1) r (0%nat, 0))))
        <= rho (Stage4.Cjob i)
        /\ rho (Stage4.Cjob i) <= rho Stage4.Cmax).
Proof.
  intros F. split; [|split; [|split]].
  - exact (stage_of4 routes rho F).
  - exact (capacity4 routes rho F).
  - exact (precedence_active4 routes rho F).
  - intros He i r k. exact (completion_active4 routes rho F i r k He).
Qed.

Lemma strategyD_feasible_is_stage_schedule_witness :
  schedule_D (Stage4.Theta 1 1) <= schedule_D (Stage4.Theta 1 2)
  /\ schedule_D (Stage4.Theta 1 2) - schedule_D (Stage4.Theta 1 1)
     <= schedule_D (Stage4.W 1 0).
Proof.
  destruct (strategyD_feasible_is_stage_schedule Stage4.routes schedule_D
              schedule_D_feasible) as [_ [_ [H _]]].
  apply (H 1%nat [(1%nat, 3); (2%nat, 2)] 0%nat 0%nat 1%nat).
  - now left.
  - simpl. lia.
  - vm_compute. lia.
  - vm_compute. lia.
  - reflexivity.
  - reflexivity.
Defined.

(** In every feasible point of the Strategy D model, [Cmax] is at least
    the total duration of the operations of each machine. *)
Theorem strategyD_makespan_covers_machine
  (routes : jobdict) (rho : valuation Stage4.var) (m : nat) :
  feasible rho (calls (Stage4.build routes)) ->
  In m (machines_of routes) ->
  machine_work routes m <= rho Stage4.Cmax.
Proof. exact (cmax_covers_machine4 routes rho m). Qed.

Lemma strategyD_makespan_covers_machine_witness :
  machine_work Stage4.routes 1 <= schedule_D Stage4.Cmax.
Proof.
  apply (strategyD_makespan_covers_machine Stage4.routes schedule_D 1%nat).
  - exact schedule_D_feasible.
  - vm_compute. now left.
Defined.

(** With non-negative durations and no empty route, every feasible point
    of the Strategy D model gives each job a completion value that is at
    least the total duration of the job, and [Cmax] is at least every
    job's completion value. *)
Theorem strategyD_completion_covers_job
  (routes : jobdict) (rho : valuation Stage4.var) (i : nat) (r : route) :
  (forall j r' mp, In (j, r') routes -> In mp r' -> 0 <= snd mp) ->
  has_empty_route routes = false ->
  feasible rho (calls (Stage4.build routes)) ->
  In (i, r) routes ->
  qsum (map snd r) <= rho (Stage4.Cjob i)
  /\ rho (Stage4.Cjob i) <= rho Stage4.Cmax.
Proof.
  intros Hp He F Hi.
  pose proof (no_empty_route_in routes i r He Hi) as Hne.
  assert (Hl : (length r - 1 < length r)%nat).
  { destruct r; [contradiction|]. simpl. lia. }
  destruct (stage_of4 routes rho F i r (length r - 1) Hi Hl) as [k [Hk [E _]]].
  destruct (completion_active4 routes rho F i r k He Hi Hk E) as [H1 H2].
  pose proof (theta_after_prefix4 routes rho F i r (length r - 1) k Hp Hi Hl Hk E)
    as H3.
  replace (length r - 1 + 1)%nat with (length r) in H3 by lia.
  rewrite firstn_all in H3. split; [lra|exact H2].
Qed.

Lemma strategyD_completion_covers_job_witness :
  qsum (map snd [(2%nat, 2); (1%nat, 4)]) <= schedule_D (Stage4.Cjob 2)
  /\ schedule_D (Stage4.Cjob 2) <= schedule_D Stage4.Cmax.
Proof.
  apply (strategyD_completion_covers_job Stage4.routes schedule_D 2%nat
           [(2%nat, 2); (1%nat, 4)]).
  - exact routes4_nonneg.
  - reflexivity.
  - exact schedule_D_feasible.
  - right. now left.
Defined.

Lemma model_calls4_no_objective routes :
  Forall no_objective
    (calls (Stage4.declare_vars routes) ++ calls (Stage4.initial routes)
     ++ calls (Stage4.capacity routes) ++ calls (Stage4.each_once routes)
     ++ calls (Stage4.recursion routes) ++ calls (Stage4.makespan routes)
     ++ calls (Stage4.precedence routes) ++ calls (Stage4.waiting routes)
     ++ calls (Stage4.job_completion routes)).
Proof.
  rewrite !Forall_app. repeat split.
  - unfold Stage4.declare_vars. sets_nothing.
  - unfold Stage4.initial. sets_nothing.
  - unfold Stage4.capacity. sets_nothing.
  - unfold Stage4.each_once. sets_nothing.
  - unfold Stage4.recursion. sets_nothing.
  - unfold Stage4.makespan. sets_nothing.
  - unfold Stage4.precedence. sets_nothing.
  - unfold Stage4.waiting. sets_nothing.
  - unfold Stage4.job_completion. sets_nothing.
Qed.

(** Stage 4 stops with [IndexError] exactly when some route is empty, at
    the last-operation lookup of the job-completion loop: all variables
    and all other constraints have been issued by then, and the objective
    is never set. Otherwise the script runs to its end and the objective
    is the weighted sum
    [1.0 * Cmax + 0.1 * sum(Cjob[i]) + 0.05 * sum(W[i,t])]. *)
Theorem strategyD_stops_on_empty_route (routes : jobdict) :
  let weighted_sum :=
    Add (Add (Scale 1 (Var Stage4.Cmax))
             (Scale 0.1
                (quicksum (map (fun i => Var (Stage4.Cjob i)) (map fst routes)))))
        (Scale 0.05
           (quicksum
              (flat_map (fun jr =>
                 map (fun t => Var (Stage4.W (fst jr) t))
                     (range (length (snd jr) - 1))) routes))) in
  outcome (Stage4.build routes)
  = (if has_empty_route routes then inl IndexError else inr tt)
  /\ objective (calls (Stage4.build routes))
     = (if has_empty_route routes then None else Some weighted_sum)
  /\ (forall rho, eval rho weighted_sum
        == rho Stage4.Cmax
           + 0.1 * qsum (map (fun i => rho (Stage4.Cjob i)) (map fst routes))
           + 0.05
             * qsum (flat_map (fun jr =>
                       map (fun t => rho (Stage4.W (fst jr) t))
                           (range (length (snd jr) - 1))) routes))
  /\ calls (Stage4.build routes)
     = calls (Stage4.declare_vars routes) ++ calls (Stage4.initial routes)
       ++ calls (Stage4.capacity routes) ++ calls (Stage4.each_once routes)
       ++ calls (Stage4.recursion routes) ++ calls (Stage4.makespan routes)
       ++ calls (Stage4.precedence routes) ++ calls (Stage4.waiting routes)
       ++ calls (Stage4.job_completion routes)
       ++ (if has_empty_route routes then [] else [SetObjective weighted_sum]).
Proof.
  intros weighted_sum.
  assert (Eo : Stage4.obj routes = weighted_sum).
  { unfold Stage4.obj, weighted_sum, Stage4.w1, Stage4.w2, Stage4.w3,
      Stage4.jobs.
    do 3 f_equal. apply flat_map_ext. intros [i r]. reflexivity. }
  pose proof (job_completion4_outcome routes) as Hm.
  pose proof (model_calls4_no_objective routes) as Hn.
  assert (Ec : calls (Stage4.job_completion routes ;; setObjective (Stage4.obj routes))
               = calls (Stage4.job_completion routes)
                 ++ (if has_empty_route routes then []
                     else [SetObjective weighted_sum])).
  { destruct (has_empty_route routes).
    - rewrite (proj2 (seq_raises _ _ _ Hm)). now rewrite app_nil_r.
    - rewrite (calls_seq _ _ tt Hm). now rewrite <- Eo. }
  split; [|split; [|split]].
  - unfold Stage4.build.
    rewrite (outcome_seq _ _ _ (catalog4_ok routes)).
    rewrite (outcome_seq _ _ tt (declare_vars4_ok routes)).
    rewrite (outcome_seq _ _ tt (initial4_ok routes)).
    rewrite (outcome_seq _ _ tt (capacity4_ok routes)).
    rewrite (outcome_seq _ _ tt (each_once4_ok routes)).
    rewrite (outcome_seq _ _ tt (recursion4_ok routes)).
    rewrite (outcome_seq _ _ tt (makespan4_ok routes)).
    rewrite (outcome_seq _ _ tt (precedence4_ok routes)).
    rewrite (outcome_seq _ _ tt (waiting4_ok routes)).
    destruct (has_empty_route routes).
    + exact (proj1 (seq_raises _ _ _ Hm)).
    + now rewrite (outcome_seq _ _ tt Hm).
  - rewrite build4_calls, Ec. destruct (has_empty_route routes).
    + rewrite app_nil_r. apply objective_none. exact Hn.
    + rewrite !app_assoc. apply objective_last. rewrite <- !app_assoc.
      exact Hn.
  - intros rho. unfold weighted_sum. cbn [eval].
    rewrite !eval_quicksum, !map_map, map_flat_map. cbn [eval].
    assert (E : flat_map (fun a => map (eval rho)
                  (map (fun t => Var (Stage4.W (fst a) t))
                       (range (length (snd a) - 1)))) routes
                = flat_map (fun jr => map (fun t => rho (Stage4.W (fst jr) t))
                                          (range (length (snd jr) - 1))) routes).
    { apply flat_map_ext. intros jr. now rewrite map_map. }
    rewrite E. lra.
  - rewrite build4_calls, Ec. reflexivity.
Qed.

(** ** The derived machine set is sorted *)

Lemma insert_sorted_sorted m l :
  StronglySorted Nat.lt l -> StronglySorted Nat.lt (insert_sorted m l).
Proof.
  induction l as [|x l IH]; intros H; simpl.
  - constructor; constructor.
  - inversion H as [|? ? Hs Hf]; subst.
    destruct (Nat.ltb m x) eqn:E1.
    + apply Nat.ltb_lt in E1. constructor; [exact H|].
      constructor; [exact E1|]. rewrite Forall_forall in *.
      intros y Hy. specialize (Hf y Hy). lia.
    + destruct (Nat.eqb m x) eqn:E2; [exact H|].
      apply Nat.ltb_ge in E1. apply Nat.eqb_neq in E2.
      constructor; [now apply IH|]. rewrite Forall_forall in *.
      intros y Hy. apply in_insert_sorted in Hy. destruct Hy as [->|Hy].
      * lia.
      * now apply Hf.
Qed.

Lemma sorted_set_sorted l : StronglySorted Nat.lt (sorted_set l).
Proof.
  induction l as [|x l IH]; simpl; [constructor|].
  now apply insert_sorted_sorted.
Qed.

(** The machine list of stages 3 and 4, [sorted({m for ops in
    routes.values() for (m, _) in ops})], is strictly ascending (so it
    holds no machine twice) and holds exactly the machines that some
    operation of some route names; both stages derive the same list. *)
Theorem machine_set_sorted_exact (routes : jobdict) :
  StronglySorted Nat.lt (Stage3.machines routes)
  /\ Stage4.machines routes = Stage3.machines routes
  /\ forall m, In m (Stage3.machines routes)
               <-> exists i r p, In (i, r) routes /\ In (m, p) r.
Proof.
  split; [apply sorted_set_sorted|]. split; [reflexivity|].
  intros m. exact (in_machines_of routes m).
Qed.

(** ** Strategy C: the least makespan *)

Lemma qmax_nonneg l : 0 <= qmax l.
Proof.
  induction l as [|a l IH]; simpl; [lra|].
  destruct (Qle_bool a (qmax l)) eqn:E; [exact IH|].
  assert (~ a <= qmax l) by (rewrite <- Qle_bool_iff; congruence). lra.
Qed.

Lemma qmax_ge l a : In a l -> a <= qmax l.
Proof.
  induction l as [|b l IH]; intros Ha; [contradiction|]. simpl.
  destruct (Qle_bool b (qmax l)) eqn:E.
  - apply Qle_bool_iff in E. destruct Ha as [->|Ha]; [exact E|now apply IH].
  - assert (~ b <= qmax l) by (rewrite <- Qle_bool_iff; congruence).
    destruct Ha as [->|Ha]; [lra|]. specialize (IH Ha). lra.
Qed.

Lemma qmax_least l b :
  0 <= b -> (forall a, In a l -> a <= b) -> qmax l <= b.
Proof.
  intros Hb. induction l as [|a l IH]; intros H; simpl; [exact Hb|].
  destruct (Qle_bool a (qmax l)).
  - apply IH. intros; apply H; now right.
  - apply H. now left.
Qed.

Lemma NoDup_all_ops routes : NoDup (map fst routes) -> NoDup (all_ops routes).
Proof.
  unfold all_ops. induction routes as [|[i r] routes IH]; intros Hn;
    [constructor|].
  simpl in Hn. inversion Hn as [|? ? Hi Hn']; subst. cbn [flat_map].
  apply NoDup_app.
  - apply Injective_map_NoDup; [|apply seq_NoDup].
    intros a b E. now inversion E.
  - now apply IH.
  - intros [j t] H1 H2. apply in_map_iff in H1. destruct H1 as [t' [E _]].
    inversion E; subst. apply Hi. apply in_flat_map in H2.
    destruct H2 as [[j' r'] [Hr H2]]. apply in_map_iff in H2.
    destruct H2 as [t'' [E' _]]. inversion E'; subst.
    apply in_map_iff. now exists (j, r').
Qed.

(** A sum that an indicator cuts down to one term. *)
Lemma qsum_pick {A} (e : A -> bool) (g : A -> Q) (l : list A) (x : A) :
  (forall y, In y l -> (e y = true <-> y = x)) -> NoDup l ->
  qsum (map (fun y => g y * (if e y then 1 else 0)) l)
  == if existsb e l then g x else 0.
Proof.
  induction l as [|a l IH]; intros He Hn; simpl; [reflexivity|].
  inversion Hn as [|? ? Ha Hn']; subst.
  rewrite IH; [|intros; apply He; now right|exact Hn'].
  destruct (e a) eqn:E.
  - assert (a = x) by (apply He; [now left|exact E]). subst a. cbn [orb].
    destruct (existsb e l) eqn:E'; [|lra].
    exfalso. apply existsb_exists in E'. destruct E' as [y [Hy Ey]].
    apply Ha. assert (y = x) by (apply He; [now right|exact Ey]). now subst.
  - cbn [orb]. destruct (existsb e l); lra.
Qed.

Lemma map_nth_error_range {A B} (f : option A -> B) (l : list A) :
  map (fun k => f (nth_error l k)) (range (length l))
  = map (fun y => f (Some y)) l.
Proof.
  unfold range, range2. rewrite Nat.sub_0_r.
  revert f. induction l as [|a l IH]; intros f; simpl; [reflexivity|].
  f_equal. rewrite <- seq_shift, map_map. exact (IH f).
Qed.

Lemma op_eqb_eq (a b : nat * nat) :
  Nat.eqb (fst a) (fst b) && Nat.eqb (snd a) (snd b) = true <-> a = b.
Proof.
  destruct a as [i t], b as [j s]. cbn [fst snd].
  rewrite andb_true_iff, !Nat.eqb_eq. split.
  - intros [-> ->]. reflexivity.
  - intros E. now inversion E.
Qed.

Lemma stage_in_order_binary routes k i t :
  stage_in_order routes k i t == 0 \/ stage_in_order routes k i t == 1.
Proof.
  unfold stage_in_order. destruct (nth_error _ k) as [[i' t']|];
    [|left; reflexivity].
  destruct (_ && _); [right|left]; reflexivity.
Qed.

(** Placed in order, every stage holds one operation. *)
Lemma in_order_one_per_stage routes k :
  NoDup (map fst routes) -> (k < count_ops routes)%nat ->
  qsum (map (fun it => stage_in_order routes k (fst it) (snd it))
            (all_ops routes)) == 1.
Proof.
  intros Hn Hk. rewrite count_ops_all_ops in Hk. unfold stage_in_order.
  destruct (nth_error (all_ops routes) k) as [[i' t']|] eqn:E;
    [|apply nth_error_None in E; lia].
  pose proof (qsum_pick
                (fun y => Nat.eqb i' (fst y) && Nat.eqb t' (snd y))
                (fun _ => 1) (all_ops routes) (i', t')) as P.
  cbv beta in P.
  assert (X : existsb (fun y => Nat.eqb i' (fst y) && Nat.eqb t' (snd y))
                      (all_ops routes) = true).
  { apply existsb_exists. exists (i', t'). split.
    - exact (nth_error_In _ _ E).
    - cbn [fst snd]. now rewrite !Nat.eqb_refl. }
  rewrite X in P. rewrite <- P.
  - apply qsum_map_eq. intros [i t] _. cbn [fst snd].
    destruct (_ && _); lra.
  - intros y _. rewrite (op_eqb_eq (i', t') y). split; congruence.
  - now apply NoDup_all_ops.
Qed.

(** Placed in order, every operation holds one stage. *)
Lemma in_order_each_once routes i t :
  NoDup (map fst routes) -> In (i, t) (all_ops routes) ->
  qsum (map (fun k => stage_in_order routes k i t) (range (count_ops routes)))
  == 1.
Proof.
  intros Hn Hi. rewrite count_ops_all_ops. unfold stage_in_order.
  rewrite (map_nth_error_range
             (fun o => match o with
                       | Some (i', t') =>
                           if Nat.eqb i' i && Nat.eqb t' t then 1 else 0
                       | None => 0
                       end) (all_ops routes)).
  pose proof (qsum_pick
                (fun y => Nat.eqb (fst y) i && Nat.eqb (snd y) t)
                (fun _ => 1) (all_ops routes) (i, t)) as P.
  cbv beta in P.
  assert (X : existsb (fun y => Nat.eqb (fst y) i && Nat.eqb (snd y) t)
                      (all_ops routes) = true).
  { apply existsb_exists. exists (i, t). split; [exact Hi|].
    cbn [fst snd]. now rewrite !Nat.eqb_refl. }
  rewrite X in P. rewrite <- P.
  - apply qsum_map_eq. intros [i' t'] _. cbn [fst snd].
    destruct (_ && _); lra.
  - intros y _. exact (op_eqb_eq y (i, t)).
  - now apply NoDup_all_ops.
Qed.

(** In the order of [ops], an operation stands right after its
    predecessor in the job. *)
Lemma all_ops_predecessor routes k i t :
  nth_error (all_ops routes) k = Some (i, t) -> (1 <= t)%nat ->
  exists k', k = Datatypes.S k' /\ nth_error (all_ops routes) k' = Some (i, (t - 1)%nat).
Proof.
  unfold all_ops. revert k. induction routes as [|[j r] routes IH];
    intros k E Ht.
  - destruct k; discriminate E.
  - cbn [flat_map] in *.
    assert (L : length (map (fun t0 : nat => (j, t0)) (range (length r)))
                = length r).
    { rewrite length_map. unfold range, range2. now rewrite length_seq, Nat.sub_0_r. }
    destruct (Nat.lt_ge_cases k (length r)) as [Hk|Hk].
    + rewrite nth_error_app1 in E by (rewrite L; exact Hk).
      rewrite nth_error_map in E. unfold range, range2 in E.
      rewrite Nat.sub_0_r in E.
      rewrite (nth_error_nth' _ 0%nat) in E by (rewrite length_seq; exact Hk).
      rewrite seq_nth in E by exact Hk. cbn in E. inversion E; subst.
      destruct t as [|t']; [lia|]. exists t'. split; [reflexivity|].
      rewrite nth_error_app1 by (rewrite L; lia).
      rewrite nth_error_map. unfold range, range2. rewrite Nat.sub_0_r.
      rewrite (nth_error_nth' _ 0%nat) by (rewrite length_seq; lia).
      rewrite seq_nth by lia. cbn. do 2 f_equal. lia.
    + rewrite nth_error_app2 in E by (rewrite L; exact Hk). rewrite L in E.
      destruct (IH _ E Ht) as [k' [Ek Ek']].
      exists (length r + k')%nat. split; [lia|].
      rewrite nth_error_app2 by (rewrite L; lia). rewrite L.
      replace (length r + k' - length r)%nat with k' by lia. exact Ek'.
Qed.

Lemma stage_load_in_order_nonneg routes k m :
  (forall j r mp, In (j, r) routes -> In mp r -> 0 <= snd mp) ->
  0 <= stage_load routes (stage_in_order routes) k m.
Proof.
  intros Hp. unfold stage_load. apply qsum_nonneg. intros e He.
  apply filter_In in He. destruct He as [He _].
  apply Qmult_le_0_compat.
  - exact (placed_ops_nonneg routes Hp e He).
  - exact (binary_nonneg _ (stage_in_order_binary routes k (fst (fst e))
                              (snd (fst e)))).
Qed.

Lemma busy_time_in_order_nonneg routes k m :
  (forall j r mp, In (j, r) routes -> In mp r -> 0 <= snd mp) ->
  0 <= busy_time routes (stage_in_order routes) k m.
Proof.
  intros Hp. induction k as [|k IH]; cbn [busy_time]; [lra|].
  pose proof (stage_load_in_order_nonneg routes k m Hp). lra.
Qed.

(** Issues the one call of an [addVar], [addConstr] or [setObjective]. *)
Ltac one_call :=
  unfold addVar, addConstr, setObjective, emit, calls; cbn [fst];
  constructor; [|constructor].

Lemma in_order_precedence routes i r t k2 :
  In (i, r) routes -> (1 <= t)%nat ->
  stage_in_order routes k2 i t
  <= qsum (map (fun k1 => stage_in_order routes k1 i (t - 1)) (range (k2 + 1))).
Proof.
  intros Hi Ht.
  assert (Hz : 0 <= qsum (map (fun k1 => stage_in_order routes k1 i (t - 1))
                              (range (k2 + 1)))).
  { apply qsum_nonneg. intros k1 _.
    exact (binary_nonneg _ (stage_in_order_binary routes k1 i (t - 1))). }
  unfold stage_in_order at 1.
  destruct (nth_error (all_ops routes) k2) as [[i' t']|] eqn:E; [|exact Hz].
  destruct (Nat.eqb i' i && Nat.eqb t' t) eqn:C; [|exact Hz].
  apply andb_true_iff in C. destruct C as [C1 C2].
  apply Nat.eqb_eq in C1, C2. subst i' t'.
  destruct (all_ops_predecessor routes k2 i t E Ht) as [k' [-> E']].
  assert (E1 : stage_in_order routes k' i (t - 1) == 1).
  { unfold stage_in_order. rewrite E', !Nat.eqb_refl. reflexivity. }
  rewrite <- E1.
  apply (qsum_in_le (fun k1 => stage_in_order routes k1 i (t - 1))).
  - intros k1 _.
    exact (binary_nonneg _ (stage_in_order_binary routes k1 i (t - 1))).
  - apply in_range. lia.
Qed.

Lemma in_order_theta_full routes m :
  NoDup (map fst routes) ->
  busy_time routes (stage_in_order routes) (count_ops routes) m
  == machine_work routes m.
Proof.
  intros Hn. apply busy_time_full. intros i t o He.
  apply in_order_each_once; [exact Hn|]. exact (placed_ops_all_ops routes i t o He).
Qed.

(** With distinct job ids and non-negative durations, placing the
    operations in order is a feasible point of the stage 3 model. *)
Lemma in_order_feasible routes :
  NoDup (map fst routes) ->
  (forall j r mp, In (j, r) routes -> In mp r -> 0 <= snd mp) ->
  feasible (in_order routes) (calls (Stage3.build routes)).
Proof.
  intros Hn Hp. unfold feasible. rewrite build3_calls. rewrite !Forall_app.
  repeat split.
  - unfold Stage3.declare_vars.
    apply calls_bind_Forall; [|intros _; apply calls_bind_Forall; [|intros _]].
    + apply calls_for_Forall. intros k _. apply calls_for_Forall. intros m _.
      one_call. cbn [respects in_order].
      now apply busy_time_in_order_nonneg.
    + apply calls_for_Forall. intros k _. apply calls_for_Forall.
      intros [i t] _. one_call. cbn [respects in_order].
      apply stage_in_order_binary.
    + one_call. cbn [respects in_order]. apply qmax_nonneg.
  - unfold Stage3.one_per_stage. apply calls_for_Forall. intros k Hk.
    apply in_range in Hk. one_call. cbn [respects]. unfold sat.
    cbn [rel lhs rhs]. rewrite eval_quicksum, map_map. cbn [eval].
    rewrite <- (in_order_one_per_stage routes k Hn Hk).
    apply qsum_map_eq. intros [i t] _. reflexivity.
  - unfold Stage3.each_once. apply calls_for_Forall. intros [i t] Hi.
    one_call. cbn [respects]. unfold sat. cbn [rel lhs rhs].
    rewrite eval_quicksum, map_map. cbn [eval].
    exact (in_order_each_once routes i t Hn Hi).
  - unfold Stage3.recursion. apply calls_for_Forall. intros k _.
    apply calls_for_Forall. intros m _. one_call. cbn [respects].
    unfold sat. cbn [rel lhs rhs]. cbn [eval].
    rewrite (eval_load3 routes (in_order routes) k m Hn). cbn [in_order].
    replace (k + 1)%nat with (Datatypes.S k) by lia. cbn [busy_time].
    apply Qle_refl.
  - unfold Stage3.makespan. apply calls_for_Forall. intros [i t] Hi.
    cbv zeta. one_call. cbn [respects]. unfold sat. cbn [rel lhs rhs eval].
    cbn [in_order]. unfold Stage3.K.
    rewrite (in_order_theta_full routes _ Hn). apply qmax_ge.
    apply in_map. apply in_all_ops in Hi. destruct Hi as [r [Hr Ht]].
    unfold op_at. rewrite (route_of_unique routes i r Hn Hr).
    exact (machine_of_op routes i r t Hr Ht).
  - unfold Stage3.precedence. apply calls_for_Forall. intros [i r] Hi.
    apply calls_for_Forall. intros t Ht. apply calls_for_Forall. intros k2 _.
    one_call. cbn [respects]. unfold sat, Stage3.precedence_constr.
    cbn [rel lhs rhs]. rewrite eval_quicksum, map_map. cbn [eval in_order].
    unfold range2 in Ht. apply in_seq in Ht.
    apply (in_order_precedence routes i r t k2 Hi). lia.
  - constructor; [exact I|constructor].
Qed.

Lemma cmax_declared3 routes :
  In (AddVar Stage3.Cmax CONTINUOUS 0) (calls (Stage3.build routes)).
Proof.
  rewrite build3_calls. apply in_or_app; left. unfold Stage3.declare_vars.
  apply (in_calls_r _ _ tt); [never_raises|].
  apply (in_calls_r _ _ tt); [never_raises|]. now left.
Qed.

Lemma model_calls3_no_objective routes :
  Forall no_objective
    (calls (Stage3.declare_vars routes) ++ calls (Stage3.one_per_stage routes)
     ++ calls (Stage3.each_once routes) ++ calls (Stage3.recursion routes)
     ++ calls (Stage3.makespan routes) ++ calls (Stage3.precedence routes)).
Proof.
  rewrite !Forall_app. repeat split.
  - unfold Stage3.declare_vars. sets_nothing.
  - unfold Stage3.one_per_stage. sets_nothing.
  - unfold Stage3.each_once. sets_nothing.
  - unfold Stage3.recursion. sets_nothing.
  - unfold Stage3.makespan. sets_nothing.
  - unfold Stage3.precedence. sets_nothing.
Qed.

Lemma objective3 routes :
  objective (calls (Stage3.build routes)) = Some (Var Stage3.Cmax).
Proof.
  rewrite build3_calls, !app_assoc. apply objective_last.
  rewrite <- !app_assoc. exact (model_calls3_no_objective routes).
Qed.

(** With distinct job ids and non-negative durations, the least value of
    the stage 3 objective over the feasible region is the largest total
    duration that one machine has to run: the time a job needs for its own
    operations does not enter it. *)
Theorem strategyC_optimum_is_max_machine_work (routes : jobdict) :
  NoDup (map fst routes) ->
  (forall j r mp, In (j, r) routes -> In mp r -> 0 <= snd mp) ->
  minimum (calls (Stage3.build routes)) (max_work routes).
Proof.
  intros Hn Hp. exists (Var Stage3.Cmax). split; [exact (objective3 routes)|].
  split.
  - exists (in_order routes). split; [exact (in_order_feasible routes Hn Hp)|].
    reflexivity.
  - intros rho F. cbn [eval]. apply qmax_least.
    + exact (feasible_in _ _ _ _ F (cmax_declared3 routes)).
    + intros a Ha. apply in_map_iff in Ha. destruct Ha as [m [<- Hm]].
      exact (cmax_covers_machine3 routes rho m Hn F Hm).
Qed.

Lemma strategyC_optimum_is_max_machine_work_witness :
  minimum (calls (Stage3.build two_ops)) (max_work two_ops).
Proof.
  apply (strategyC_optimum_is_max_machine_work two_ops).
  - repeat constructor. intros [].
  - intros j r mp Hr Hmp. unfold two_ops in Hr. simpl in Hr.
    destruct Hr as [E|[]]. inversion E; subst. simpl in Hmp.
    destruct Hmp as [<-|[<-|[]]]; simpl; lra.
Defined.

(** ** Strategy D: the model always has a feasible point *)

Lemma duration_in_order_nonneg routes k :
  (forall j r mp, In (j, r) routes -> In mp r -> 0 <= snd mp) ->
  0 <= duration_in_order routes k.
Proof.
  intros Hp. unfold duration_in_order.
  destruct (nth_error _ k) as [[i t]|]; [now apply op_at_nonneg|lra].
Qed.

Lemma elapsed_nonneg routes k :
  (forall j r mp, In (j, r) routes -> In mp r -> 0 <= snd mp) ->
  0 <= elapsed routes k.
Proof.
  intros Hp. unfold elapsed. apply qsum_nonneg. intros j _.
  now apply duration_in_order_nonneg.
Qed.

Lemma elapsed_S routes k :
  elapsed routes (k + 1) == elapsed routes k + duration_in_order routes k.
Proof.
  unfold elapsed. replace (k + 1)%nat with (Datatypes.S k) by lia.
  rewrite range_S, map_app, qsum_app. simpl. lra.
Qed.

Lemma elapsed_total routes :
  NoDup (map fst routes) ->
  elapsed routes (count_ops routes) == sum_durations routes.
Proof.
  intros Hn. unfold elapsed, duration_in_order. rewrite count_ops_all_ops.
  rewrite (map_nth_error_range
             (fun o => match o with
                       | Some (i, t) => snd (op_at routes i t)
                       | None => 0
                       end) (all_ops routes)).
  rewrite <- placed_ops_durations, (placed_ops_lookup routes Hn), map_map.
  apply qsum_map_eq. intros [i t] _. reflexivity.
Qed.

Lemma elapsed_le_total routes k :
  NoDup (map fst routes) ->
  (forall j r mp, In (j, r) routes -> In mp r -> 0 <= snd mp) ->
  (k <= count_ops routes)%nat -> elapsed routes k <= sum_durations routes.
Proof.
  intros Hn Hp Hk. rewrite <- (elapsed_total routes Hn). unfold elapsed.
  apply qsum_range_mono; [exact Hk|]. intros j _.
  now apply duration_in_order_nonneg.
Qed.

Lemma elapsed_mono routes k n :
  (forall j r mp, In (j, r) routes -> In mp r -> 0 <= snd mp) ->
  (k <= n)%nat -> elapsed routes k <= elapsed routes n.
Proof.
  intros Hp Hk. unfold elapsed. apply qsum_range_mono; [exact Hk|].
  intros j _. now apply duration_in_order_nonneg.
Qed.

Lemma sum_durations_nonneg routes :
  NoDup (map fst routes) ->
  (forall j r mp, In (j, r) routes -> In mp r -> 0 <= snd mp) ->
  0 <= sum_durations routes.
Proof.
  intros Hn Hp. rewrite <- (elapsed_total routes Hn). now apply elapsed_nonneg.
Qed.

(** Placed in order, the work of stage [k] over all machines is the
    duration of the operation at place [k]. *)
Lemma work_in_order routes k :
  NoDup (map fst routes) ->
  qsum (map (fun e => snd (snd e)
                      * stage_in_order routes k (fst (fst e)) (snd (fst e)))
            (placed_ops routes))
  == duration_in_order routes k.
Proof.
  intros Hn. rewrite (placed_ops_lookup routes Hn), map_map. cbn [fst snd].
  unfold stage_in_order, duration_in_order.
  destruct (nth_error (all_ops routes) k) as [[i' t']|] eqn:E.
  - pose proof (qsum_pick
                  (fun y => Nat.eqb i' (fst y) && Nat.eqb t' (snd y))
                  (fun y => snd (op_at routes (fst y) (snd y)))
                  (all_ops routes) (i', t')) as P.
    cbv beta in P. cbn [fst snd] in P.
    assert (X : existsb (fun y => Nat.eqb i' (fst y) && Nat.eqb t' (snd y))
                        (all_ops routes) = true).
    { apply existsb_exists. exists (i', t'). split.
      - exact (nth_error_In _ _ E).
      - cbn [fst snd]. now rewrite !Nat.eqb_refl. }
    rewrite X in P. rewrite <- P.
    + apply qsum_map_eq. intros [i t] _. reflexivity.
    + intros y _. rewrite (op_eqb_eq (i', t') y). split; congruence.
    + now apply NoDup_all_ops.
  - apply qsum_all_zero. intros; lra.
Qed.

Lemma stage_load_in_order routes k m :
  NoDup (map fst routes) ->
  (forall j r mp, In (j, r) routes -> In mp r -> 0 <= snd mp) ->
  stage_load routes (stage_in_order routes) k m <= duration_in_order routes k.
Proof.
  intros Hn Hp. rewrite <- (work_in_order routes k Hn). unfold stage_load.
  apply (qsum_filter_le
           (fun e => snd (snd e)
                     * stage_in_order routes k (fst (fst e)) (snd (fst e)))).
  intros e He. apply Qmult_le_0_compat.
  - exact (placed_ops_nonneg routes Hp e He).
  - exact (binary_nonneg _ (stage_in_order_binary routes k _ _)).
Qed.

(** Placed in order, a stage holds at most one operation of a machine. *)
Lemma in_order_capacity routes k m :
  NoDup (map fst routes) -> (k < count_ops routes)%nat ->
  qsum (map (fun e => stage_in_order routes k (fst (fst e)) (snd (fst e)))
            (filter (fun e => Nat.eqb (fst (snd e)) m) (placed_ops routes)))
  <= 1.
Proof.
  intros Hn Hk. rewrite <- (in_order_one_per_stage routes k Hn Hk).
  assert (E : qsum (map (fun it => stage_in_order routes k (fst it) (snd it))
                        (all_ops routes))
              == qsum (map (fun e => stage_in_order routes k (fst (fst e))
                                       (snd (fst e))) (placed_ops routes))).
  { rewrite (placed_ops_lookup routes Hn), map_map. reflexivity. }
  rewrite E.
  apply (qsum_filter_le
           (fun e => stage_in_order routes k (fst (fst e)) (snd (fst e)))).
  intros e _. exact (binary_nonneg _ (stage_in_order_binary routes k _ _)).
Qed.

(** Placed in order, an operation holds the stage right after its
    predecessor's. *)
Lemma in_order_consecutive routes i t k1 k2 :
  NoDup (map fst routes) ->
  stage_in_order routes k1 i t == 1 ->
  stage_in_order routes k2 i (t + 1) == 1 ->
  k2 = (k1 + 1)%nat.
Proof.
  intros Hn E1 E2. unfold stage_in_order in E1, E2.
  destruct (nth_error (all_ops routes) k1) as [[i1 t1]|] eqn:N1;
    [|exfalso; lra].
  destruct (nth_error (all_ops routes) k2) as [[i2 t2]|] eqn:N2;
    [|exfalso; lra].
  destruct (Nat.eqb i1 i && Nat.eqb t1 t) eqn:C1; [|exfalso; lra].
  destruct (Nat.eqb i2 i && Nat.eqb t2 (t + 1)) eqn:C2; [|exfalso; lra].
  apply andb_true_iff in C1, C2. destruct C1 as [A1 B1], C2 as [A2 B2].
  apply Nat.eqb_eq in A1, B1, A2, B2. subst.
  destruct (all_ops_predecessor routes k2 i (t + 1) N2) as [k' [-> N']];
    [lia|].
  replace (t + 1 - 1)%nat with t in N' by lia.
  assert (k1 = k').
  { apply (proj1 (NoDup_nth_error (all_ops routes)) (NoDup_all_ops routes Hn)).
    - apply nth_error_Some. congruence.
    - congruence. }
  lia.
Qed.

(** With distinct job ids and non-negative durations, running the
    operations one after another is a feasible point of the stage 4
    model. *)
Lemma in_series_feasible routes :
  NoDup (map fst routes) ->
  (forall j r mp, In (j, r) routes -> In mp r -> 0 <= snd mp) ->
  feasible (in_series routes) (calls (Stage4.build routes)).
Proof.
  intros Hn Hp.
  pose proof (sum_durations_nonneg routes Hn Hp) as Hs.
  unfold feasible. rewrite build4_calls. rewrite !Forall_app.
  repeat split.
  - unfold Stage4.declare_vars.
    repeat (apply calls_bind_Forall; [|intros _]).
    + apply calls_for_Forall. intros k _. apply calls_for_Forall. intros m _.
      one_call. cbn [respects in_series]. now apply elapsed_nonneg.
    + apply calls_for_Forall. intros k _. apply calls_for_Forall.
      intros [i r] _. apply calls_for_Forall. intros t _.
      one_call. cbn [respects in_series]. apply stage_in_order_binary.
    + one_call. exact Hs.
    + apply calls_for_Forall. intros [i r] _. apply calls_for_Forall.
      intros t _. one_call. exact Hs.
    + apply calls_for_Forall. intros [i r] _. one_call. exact Hs.
  - unfold Stage4.initial. apply calls_for_Forall. intros m _. one_call.
    cbn [respects]. unfold sat. cbn [rel lhs rhs eval in_series].
    reflexivity.
  - unfold Stage4.capacity. apply calls_for_Forall. intros k Hk.
    apply in_range in Hk. apply calls_for_Forall. intros m _. one_call.
    cbn [respects]. unfold sat. cbn [rel lhs rhs].
    rewrite eval_quicksum, on_machine_placed, map_map. cbn [eval in_series].
    exact (in_order_capacity routes k m Hn Hk).
  - unfold Stage4.each_once. apply calls_for_Forall. intros [i r] Hi.
    apply calls_for_Forall. intros t Ht. apply in_range in Ht. one_call.
    cbn [respects]. unfold sat. cbn [rel lhs rhs].
    rewrite eval_quicksum, map_map. cbn [eval in_series].
    apply (in_order_each_once routes i t Hn). apply in_all_ops. now exists r.
  - unfold Stage4.recursion. apply calls_for_Forall. intros k _.
    apply calls_for_Forall. intros m _. one_call. cbn [respects].
    unfold sat. cbn [rel lhs rhs]. cbn [eval].
    rewrite (eval_load4 routes (in_series routes) k m). cbn [in_series].
    rewrite elapsed_S.
    pose proof (stage_load_in_order routes k m Hn Hp) as Hl.
    apply Qplus_le_r. exact Hl.
  - unfold Stage4.makespan. apply calls_for_Forall. intros m _. one_call.
    cbn [respects]. unfold sat. cbn [rel lhs rhs eval in_series].
    unfold Stage4.S, Stage4.K. rewrite (elapsed_total routes Hn).
    apply Qle_refl.
  - unfold Stage4.precedence. apply calls_for_Forall. intros [i r] _.
    apply calls_for_Forall. intros t _. cbv zeta.
    apply calls_for_Forall. intros k1 Hk1. apply calls_for_Forall.
    intros k2 Hk2. apply in_range in Hk1, Hk2. one_call. cbn [respects].
    unfold sat, Stage4.precedence_constr, Stage4.slack, Stage4.M,
      Stage4.total_proc.
    cbn [rel lhs rhs eval in_series].
    pose proof (elapsed_nonneg routes k2 Hp) as H2.
    pose proof (elapsed_le_total routes (k1 + 1) Hn Hp) as H1.
    unfold Stage4.S, Stage4.K in Hk1, Hk2.
    assert (H1' : elapsed routes (k1 + 1) <= sum_durations routes)
      by (apply H1; lia).
    destruct (stage_in_order_binary routes k1 i t) as [E1|E1];
      destruct (stage_in_order_binary routes k2 i (t + 1)) as [E2|E2];
      rewrite E1, E2; try nra.
    rewrite (in_order_consecutive routes i t k1 k2 Hn E1 E2). lra.
  - unfold Stage4.waiting. apply calls_for_Forall. intros [i r] _.
    apply calls_for_Forall. intros t _. cbv zeta.
    apply calls_for_Forall. intros k1 Hk1. apply calls_for_Forall.
    intros k2 Hk2. apply in_range in Hk1, Hk2. one_call. cbn [respects].
    unfold sat, Stage4.slack, Stage4.M, Stage4.total_proc.
    cbn [rel lhs rhs eval in_series].
    unfold Stage4.S, Stage4.K in Hk1, Hk2.
    pose proof (elapsed_nonneg routes (k1 + 1) Hp) as H1.
    assert (H2 : elapsed routes k2 <= sum_durations routes)
      by (apply (elapsed_le_total routes k2 Hn Hp); lia).
    destruct (stage_in_order_binary routes k1 i t) as [E1|E1];
      destruct (stage_in_order_binary routes k2 i (t + 1)) as [E2|E2];
      rewrite E1, E2; nra.
  - apply calls_bind_Forall; [|intros _; one_call; exact I].
    unfold Stage4.job_completion. apply calls_for_Forall. intros [i r] _.
    cbv zeta. destruct r as [|o r]; [constructor|].
    apply calls_bind_Forall; [|intros _].
    + apply calls_for_Forall. intros k Hk. apply in_range in Hk. one_call.
      cbn [respects]. unfold sat, Stage4.M, Stage4.total_proc.
      cbn [rel lhs rhs eval in_series].
      unfold Stage4.S, Stage4.K in Hk.
      assert (H1 : elapsed routes (k + 1) <= sum_durations routes)
        by (apply (elapsed_le_total routes (k + 1) Hn Hp); lia).
      destruct (stage_in_order_binary routes k i (length (o :: r) - 1))
        as [E|E]; rewrite E; nra.
    + one_call. cbn [respects]. unfold sat.
      cbn [rel lhs rhs eval in_series]. apply Qle_refl.
Qed.

(** With distinct job ids and non-negative durations the stage 4 model
    always has a feasible point, one whose [Cmax] is the total duration:
    the Big-M [total_proc] never cuts the whole feasible region away. *)
Theorem strategyD_always_feasible (routes : jobdict) :
  NoDup (map fst routes) ->
  (forall j r mp, In (j, r) routes -> In mp r -> 0 <= snd mp) ->
  feasible (in_series routes) (calls (Stage4.build routes))
  /\ in_series routes Stage4.Cmax = Stage4.M routes.
Proof.
  intros Hn Hp. split; [exact (in_series_feasible routes Hn Hp)|reflexivity].
Qed.

Lemma strategyD_always_feasible_witness :
  feasible (in_series Stage4.routes) (calls (Stage4.build Stage4.routes))
  /\ in_series Stage4.routes Stage4.Cmax = Stage4.M Stage4.routes.
Proof.
  apply (strategyD_always_feasible Stage4.routes).
  - repeat constructor; simpl; intuition discriminate.
  - exact routes4_nonneg.
Defined.

(** ** Strategy B: enough stages give a feasible point *)

Lemma combine_map_r {A B} (f : A -> B) (l : list A) :
  combine l (map f l) = map (fun x => (x, f x)) l.
Proof. induction l as [|a l IH]; simpl; [reflexivity|]. now rewrite IH. Qed.

Lemma enumerate_nth {A} (l : list A) (d : A) :
  enumerate l = map (fun k => (k, nth k l d)) (range (length l)).
Proof.
  unfold enumerate. rewrite <- (map_nth_range l d) at 2.
  unfold range, range2. rewrite Nat.sub_0_r. apply combine_map_r.
Qed.

Lemma range_app k n :
  (k <= n)%nat -> range n = range k ++ seq k (n - k).
Proof.
  intros H. unfold range, range2. rewrite !Nat.sub_0_r.
  replace n with (k + (n - k))%nat at 1 by lia. now rewrite seq_app.
Qed.

Lemma stage_in_order_beyond routes k i t :
  (count_ops routes <= k)%nat -> stage_in_order routes k i t = 0.
Proof.
  intros Hk. unfold stage_in_order. rewrite count_ops_all_ops in Hk.
  apply nth_error_None in Hk. now rewrite Hk.
Qed.

(** Placed in order, every operation holds one of the first [n] stages
    as soon as there are as many stages as operations. *)
Lemma in_order_each_once_upto routes n i t :
  NoDup (map fst routes) -> In (i, t) (all_ops routes) ->
  (count_ops routes <= n)%nat ->
  qsum (map (fun k => stage_in_order routes k i t) (range n)) == 1.
Proof.
  intros Hn Hi Hk. rewrite (range_app (count_ops routes) n Hk), map_app, qsum_app.
  rewrite (in_order_each_once routes i t Hn Hi).
  rewrite qsum_all_zero; [lra|]. intros k Hin. apply in_seq in Hin.
  rewrite stage_in_order_beyond by lia. reflexivity.
Qed.

Lemma in_order_one_per_stage_le routes k :
  NoDup (map fst routes) ->
  qsum (map (fun it => stage_in_order routes k (fst it) (snd it))
            (all_ops routes)) <= 1.
Proof.
  intros Hn. destruct (Nat.lt_ge_cases k (count_ops routes)) as [Hk|Hk].
  - rewrite (in_order_one_per_stage routes k Hn Hk). lra.
  - rewrite qsum_all_zero; [lra|]. intros it _.
    rewrite stage_in_order_beyond by exact Hk. reflexivity.
Qed.

(** Placed in order, an operation has one place, and no other stage. *)
Lemma in_order_place routes i t :
  NoDup (map fst routes) -> In (i, t) (all_ops routes) ->
  exists k0, (k0 < count_ops routes)%nat
    /\ stage_in_order routes k0 i t == 1
    /\ forall k, k <> k0 -> stage_in_order routes k i t == 0.
Proof.
  intros Hn Hi. destruct (In_nth_error _ _ Hi) as [k0 E].
  exists k0. split; [|split].
  - rewrite count_ops_all_ops. apply nth_error_Some. congruence.
  - unfold stage_in_order. rewrite E, !Nat.eqb_refl. reflexivity.
  - intros k Hne. unfold stage_in_order.
    destruct (nth_error (all_ops routes) k) as [[i' t']|] eqn:E';
      [|reflexivity].
    destruct (Nat.eqb i' i && Nat.eqb t' t) eqn:C; [|reflexivity].
    exfalso. apply andb_true_iff in C. destruct C as [C1 C2].
    apply Nat.eqb_eq in C1, C2. subst. apply Hne.
    apply (proj1 (NoDup_nth_error (all_ops routes)) (NoDup_all_ops routes Hn)).
    + apply nth_error_Some. congruence.
    + congruence.
Qed.

(** The list that the capacity sum of stage 2 runs over. *)
Lemma capacity2_list jobs m t :
  flat_map (fun '(j, r) =>
    flat_map (fun '(k, (machine, _)) =>
      if Nat.eqb machine m then [Var (Stage2.x j k t)] else [])
      (enumerate r)) jobs
  = map (fun e => Var (Stage2.x (fst (fst e)) (snd (fst e)) t))
        (filter (fun e => Nat.eqb (fst (snd e)) m) (placed_ops jobs)).
Proof.
  unfold placed_ops. induction jobs as [|[j r] jobs IH]; [reflexivity|].
  cbn [flat_map]. rewrite filter_app, map_app, <- IH. f_equal.
  rewrite (enumerate_nth r (0%nat, 0)).
  induction (range (length r)) as [|k l IHl]; [reflexivity|].
  cbn [map flat_map filter fst snd].
  destruct (nth k r (0%nat, 0)) as [machine p] eqn:E. cbn [fst].
  destruct (Nat.eqb machine m); cbn [app map]; now rewrite IHl.
Qed.

Lemma Qn_nonneg n : 0 <= Qn n.
Proof. change 0 with (Qn 0). apply Qn_le. lia. Qed.

Lemma start_in_order_nonneg jobs n j k :
  (forall i r mp, In (i, r) jobs -> In mp r -> 0 <= snd mp) ->
  0 <= start_in_order jobs n j k.
Proof.
  intros Hp. unfold start_in_order. apply qsum_nonneg. intros t _.
  apply Qmult_le_0_compat; [apply Qmult_le_0_compat|].
  - apply Qn_nonneg.
  - now apply op_at_nonneg.
  - exact (binary_nonneg _ (stage_in_order_binary jobs t j k)).
Qed.

(** Placed in order, the stage-weighted sums of the sequencing constraint
    are the place of the operation and the place after its
    predecessor's, and these agree. *)
Lemma in_order_sequencing jobs n j r k :
  NoDup (map fst jobs) -> (count_ops jobs <= n)%nat ->
  In (j, r) jobs -> (k + 1 < length r)%nat ->
  qsum (map (fun t => Qn (t + 1) * stage_in_order jobs t j k) (range n))
  == qsum (map (fun t' => Qn t' * stage_in_order jobs t' j (k + 1)) (range n)).
Proof.
  intros Hn Hk Hj Hl.
  assert (H0 : In (j, k) (all_ops jobs))
    by (apply in_all_ops; exists r; split; [exact Hj|lia]).
  assert (H1 : In (j, (k + 1)%nat) (all_ops jobs))
    by (apply in_all_ops; exists r; split; [exact Hj|lia]).
  destruct (in_order_place jobs j k Hn H0) as [t0 [Ht0 [E0 Z0]]].
  destruct (in_order_place jobs j (k + 1) Hn H1) as [t1 [Ht1 [E1 Z1]]].
  rewrite (qsum_weighted_one_stage (fun t => Qn (t + 1))
             (fun t => stage_in_order jobs t j k) n t0);
    [|lia|exact E0|intros; now apply Z0].
  rewrite (qsum_weighted_one_stage (fun t => Qn t)
             (fun t => stage_in_order jobs t j (k + 1)) n t1);
    [|lia|exact E1|intros; now apply Z1].
  rewrite (in_order_consecutive jobs j k t0 t1 Hn E0 E1). reflexivity.
Qed.

(** With distinct job ids, non-negative durations and at least as many
    stages as operations, giving the operations the stages 0, 1, 2, ...
    in order is a feasible point of the stage 2 model. *)
Lemma in_stages_feasible jobs machines n :
  NoDup (map fst jobs) ->
  (forall i r mp, In (i, r) jobs -> In mp r -> 0 <= snd mp) ->
  (count_ops jobs <= n)%nat ->
  feasible (in_stages jobs n) (calls (Stage2.build jobs machines n)).
Proof.
  intros Hn Hp Hk. unfold feasible. rewrite build2_calls, !Forall_app.
  repeat split.
  - unfold Stage2.declare_vars.
    repeat (apply calls_bind_Forall; [|intros _]).
    + apply calls_for_Forall. intros [j r] _. apply calls_for_Forall.
      intros k _. apply calls_for_Forall. intros t _. one_call.
      cbn [respects in_stages]. apply stage_in_order_binary.
    + apply calls_for_Forall. intros [j r] _. apply calls_for_Forall.
      intros k _. one_call. cbn [respects in_stages].
      now apply start_in_order_nonneg.
    + one_call. cbn [respects in_stages]. apply qmax_nonneg.
  - unfold Stage2.assign. apply calls_for_Forall. intros [j r] Hj.
    apply calls_for_Forall. intros k Hl. apply in_range in Hl.
    unfold addConstrNamed, emit, calls. cbn [fst]. constructor; [|constructor].
    cbn [respects]. unfold sat. cbn [rel lhs rhs].
    rewrite eval_quicksum, map_map. cbn [eval in_stages].
    apply (in_order_each_once_upto jobs n j k Hn); [|exact Hk].
    apply in_all_ops. now exists r.
  - unfold Stage2.sequencing. apply calls_for_Forall. intros [j r] Hj.
    apply calls_for_Forall. intros k Hl. apply in_range in Hl.
    apply calls_for_Forall. intros t _.
    unfold addConstrNamed, emit, calls. cbn [fst]. constructor; [|constructor].
    cbn [respects]. unfold sat, Stage2.seq_constr. cbn [rel lhs rhs].
    rewrite !eval_quicksum, !map_map. cbn [eval in_stages].
    rewrite (in_order_sequencing jobs n j r k Hn Hk Hj) by lia.
    apply Qle_refl.
  - unfold Stage2.capacity. apply calls_for_Forall. intros m _.
    apply calls_for_Forall. intros t _.
    unfold addConstrNamed, emit, calls. cbn [fst]. constructor; [|constructor].
    cbn [respects]. unfold sat. cbn [rel lhs rhs].
    rewrite capacity2_list, eval_quicksum, map_map. cbn [eval in_stages].
    apply Qle_trans with
      (qsum (map (fun e => stage_in_order jobs t (fst (fst e)) (snd (fst e)))
                 (placed_ops jobs))).
    + apply (qsum_filter_le
               (fun e => stage_in_order jobs t (fst (fst e)) (snd (fst e)))).
      intros e _. exact (binary_nonneg _ (stage_in_order_binary jobs t _ _)).
    + rewrite (placed_ops_lookup jobs Hn), map_map. cbn [fst snd].
      exact (in_order_one_per_stage_le jobs t Hn).
  - unfold Stage2.start_times. apply calls_for_Forall. intros [j r] Hj.
    apply calls_for_Forall. intros [k [m p]] Hl. apply in_enumerate in Hl.
    unfold addConstrNamed, emit, calls. cbn [fst]. constructor; [|constructor].
    cbn [respects]. unfold sat. cbn [rel lhs rhs].
    rewrite eval_quicksum, map_map. cbn [eval in_stages].
    unfold start_in_order, op_at. rewrite (route_of_unique jobs j r Hn Hj).
    rewrite (nth_error_nth r k (0%nat, 0) Hl). cbn [snd]. reflexivity.
  - apply calls_bind_Forall; [|intros _; one_call; exact I].
    unfold Stage2.makespan. apply calls_for_Forall. intros [j r] Hj.
    cbv zeta. destruct r as [|o r]; [constructor|].
    unfold addConstrNamed, emit, calls. cbn [fst]. constructor; [|constructor].
    cbn [respects]. unfold sat. cbn [rel lhs rhs eval in_stages].
    apply qmax_ge.
    apply (in_map (fun jr =>
                     start_in_order jobs n (fst jr) (length (snd jr) - 1)
                     + snd (nth (length (snd jr) - 1) (snd jr) (0%nat, 0)))
                  jobs (j, o :: r) Hj).
Qed.

(** With distinct job ids and non-negative durations, the stage 2 model
    has a feasible point as soon as [num_stages] is at least the number
    of operations. *)
Theorem strategyB_enough_stages_feasible
  (jobs : jobdict) (machines : list nat) (num_stages : nat) :
  NoDup (map fst jobs) ->
  (forall i r mp, In (i, r) jobs -> In mp r -> 0 <= snd mp) ->
  (count_ops jobs <= num_stages)%nat ->
  feasible (in_stages jobs num_stages)
           (calls (Stage2.build jobs machines num_stages)).
Proof. exact (in_stages_feasible jobs machines num_stages). Qed.

Lemma strategyB_enough_stages_feasible_witness :
  feasible (in_stages Stage2.jobs Stage2.num_stages) Stage2.model.
Proof.
  apply (strategyB_enough_stages_feasible Stage2.jobs Stage2.machines
           Stage2.num_stages).
  - repeat constructor; simpl; intuition discriminate.
  - intros i r mp Hr Hmp. unfold Stage2.jobs in Hr. simpl in Hr.
    destruct Hr as [E|[E|[E|[]]]]; inversion E; subst; simpl in Hmp;
      destruct Hmp as [<-|[<-|[]]]; simpl; lra.
  - vm_compute. lia.
Defined.

(** ** Strategy A: a large enough [bigM] gives a feasible point *)

Lemma start_in_series_nonneg jobs i k :
  (forall j r mp, In (j, r) jobs -> In mp r -> 0 <= snd mp) ->
  0 <= start_in_series jobs i k.
Proof.
  intros Hp. unfold start_in_series. apply qsum_nonneg. intros t _.
  apply Qmult_le_0_compat.
  - now apply elapsed_nonneg.
  - exact (binary_nonneg _ (stage_in_order_binary jobs t i k)).
Qed.

(** One after another, the operation at place [t0] starts at the time
    elapsed at [t0] and completes at the time elapsed at the next place. *)
Lemma start_in_series_at jobs i k t0 :
  NoDup (map fst jobs) ->
  nth_error (all_ops jobs) t0 = Some (i, k) ->
  start_in_series jobs i k == elapsed jobs t0
  /\ start_in_series jobs i k + snd (op_at jobs i k) == elapsed jobs (t0 + 1).
Proof.
  intros Hn E.
  assert (Ht0 : (t0 < count_ops jobs)%nat).
  { rewrite count_ops_all_ops. apply nth_error_Some. congruence. }
  assert (E1 : stage_in_order jobs t0 i k == 1).
  { unfold stage_in_order. rewrite E, !Nat.eqb_refl. reflexivity. }
  assert (Z : forall t, t <> t0 -> stage_in_order jobs t i k == 0).
  { destruct (in_order_place jobs i k Hn (nth_error_In _ _ E))
      as [t1 [_ [E1' Z1]]].
    destruct (Nat.eq_dec t1 t0) as [->|Hne]; [exact Z1|].
    pose proof (Z1 t0 (fun H => Hne (eq_sym H))). lra. }
  assert (S0 : start_in_series jobs i k == elapsed jobs t0).
  { unfold start_in_series.
    apply (qsum_weighted_one_stage (elapsed jobs)
             (fun t => stage_in_order jobs t i k) (count_ops jobs) t0 Ht0 E1).
    intros t _ Hne. now apply Z. }
  split; [exact S0|]. rewrite S0, elapsed_S. unfold duration_in_order.
  rewrite E. reflexivity.
Qed.

(** Two places of a filtered list stand in the same order in the list
    itself. *)
Lemma filter_places {A} (p : A -> bool) (l : list A) (d : A) (a b : nat) :
  (a < b < length (filter p l))%nat ->
  exists ta tb, (ta < tb)%nat
    /\ nth_error l ta = Some (nth a (filter p l) d)
    /\ nth_error l tb = Some (nth b (filter p l) d).
Proof.
  revert a b. induction l as [|x l IH]; intros a b H; [simpl in H; lia|].
  cbn [filter] in *. destruct (p x).
  - cbn [length] in H. destruct b as [|b]; [lia|]. destruct a as [|a].
    + assert (Hb : In (nth b (filter p l) d) l).
      { assert (Hin : In (nth b (filter p l) d) (filter p l))
          by (apply nth_In; lia).
        apply filter_In in Hin. tauto. }
      destruct (In_nth_error _ _ Hb) as [tb Etb].
      exists 0%nat, (Datatypes.S tb). repeat split; [lia|exact Etb].
    + destruct (IH a b) as [ta [tb [Hlt [Ea Eb]]]]; [lia|].
      exists (Datatypes.S ta), (Datatypes.S tb). repeat split; [lia| |]; assumption.
  - destruct (IH a b H) as [ta [tb [Hlt [Ea Eb]]]].
    exists (Datatypes.S ta), (Datatypes.S tb). repeat split; [lia| |]; assumption.
Qed.

(** With distinct job ids, the operations of a machine are the
    operations of [ops] that run on it, in the same order. *)
Lemma ops_on_filter jobs m :
  NoDup (map fst jobs) ->
  Stage1.ops_on jobs m
  = filter (fun it => Nat.eqb (fst (op_at jobs (fst it) (snd it))) m)
           (all_ops jobs).
Proof.
  intros Hn.
  assert (E : Stage1.ops_on jobs m
              = map fst (filter (fun e => Nat.eqb (fst (snd e)) m)
                                (placed_ops jobs))).
  { clear Hn. unfold Stage1.ops_on, placed_ops.
    induction jobs as [|[j r] jobs IH]; [reflexivity|].
    cbn [flat_map]. rewrite filter_app, map_app, <- IH. f_equal.
    rewrite (@enumerate_nth (nat * Q) r (0%nat, 0)).
    unfold route, operation in *.
    induction (range (length r)) as [|k l IHl]; [reflexivity|].
    cbn [map flat_map filter fst snd].
    destruct (nth k r (0%nat, 0)) as [machine p] eqn:E. cbn [fst].
    destruct (Nat.eqb machine m); cbn [app map fst]; now rewrite IHl. }
  rewrite E, (placed_ops_lookup jobs Hn), filter_map_swap, map_map.
  cbn [fst snd].
  rewrite <- (map_id (filter _ (all_ops jobs))) at 2.
  apply map_ext. intros [i t]. reflexivity.
Qed.

Lemma completion_in_series_le_total jobs i k :
  NoDup (map fst jobs) ->
  (forall j r mp, In (j, r) jobs -> In mp r -> 0 <= snd mp) ->
  In (i, k) (all_ops jobs) ->
  start_in_series jobs i k + snd (op_at jobs i k) <= sum_durations jobs.
Proof.
  intros Hn Hp Hi. destruct (In_nth_error _ _ Hi) as [t0 E].
  rewrite (proj2 (start_in_series_at jobs i k t0 Hn E)).
  apply (elapsed_le_total jobs (t0 + 1) Hn Hp).
  assert (t0 < count_ops jobs)%nat; [|lia].
  rewrite count_ops_all_ops. apply nth_error_Some. congruence.
Qed.

(** One after another, of two operations of a machine the one listed
    first completes before the other starts. *)
Lemma in_series_machine_order jobs m a b :
  NoDup (map fst jobs) ->
  (forall j r mp, In (j, r) jobs -> In mp r -> 0 <= snd mp) ->
  (a < b < length (Stage1.ops_on jobs m))%nat ->
  let oa := nth a (Stage1.ops_on jobs m) (0, 0)%nat in
  let ob := nth b (Stage1.ops_on jobs m) (0, 0)%nat in
  In ob (all_ops jobs)
  /\ start_in_series jobs (fst oa) (snd oa) + snd (op_at jobs (fst oa) (snd oa))
     <= start_in_series jobs (fst ob) (snd ob).
Proof.
  intros Hn Hp Hab oa ob. subst oa ob.
  rewrite (ops_on_filter jobs m Hn) in *.
  destruct (filter_places _ (all_ops jobs) (0, 0)%nat a b Hab)
    as [ta [tb [Hlt [Ea Eb]]]].
  set (oa := nth a _ _) in *. set (ob := nth b _ _) in *.
  destruct oa as [i k], ob as [j l]. cbn [fst snd].
  split; [exact (nth_error_In _ _ Eb)|].
  rewrite (proj2 (start_in_series_at jobs i k ta Hn Ea)).
  rewrite (proj1 (start_in_series_at jobs j l tb Hn Eb)).
  apply (elapsed_mono jobs (ta + 1) tb Hp). lia.
Qed.

(** With distinct job ids, non-negative durations and a [bigM] that is at
    least the total duration, running the operations one after another is
    a feasible point of the stage 1 model. *)
Lemma one_by_one_feasible jobs machines bigM :
  NoDup (map fst jobs) ->
  (forall j r mp, In (j, r) jobs -> In mp r -> 0 <= snd mp) ->
  sum_durations jobs <= bigM ->
  feasible (one_by_one jobs) (calls (Stage1.build jobs machines bigM)).
Proof.
  intros Hn Hp Hm.
  pose proof (sum_durations_nonneg jobs Hn Hp) as Hs.
  unfold feasible. rewrite build1_calls, !Forall_app. repeat split.
  - unfold Stage1.declare_vars. apply calls_bind_Forall; [|intros _].
    + apply calls_for_Forall. intros [i r] _. apply calls_for_Forall.
      intros [k [m p]] _. apply calls_bind_Forall; [|intros _]; one_call;
        cbn [respects one_by_one].
      * now apply start_in_series_nonneg.
      * pose proof (start_in_series_nonneg jobs i k Hp).
        pose proof (op_at_nonneg jobs i k Hp). lra.
    + one_call. exact Hs.
  - unfold Stage1.completion. apply calls_for_Forall. intros [i r] Hi.
    apply calls_for_Forall. intros [k [m p]] Hk. apply in_enumerate in Hk.
    one_call. cbn [respects]. unfold sat. cbn [rel lhs rhs eval one_by_one].
    unfold op_at. rewrite (route_of_unique jobs i r Hn Hi).
    rewrite (nth_error_nth r k (0%nat, 0) Hk). cbn [snd]. reflexivity.
  - unfold Stage1.job_order. apply calls_for_Forall. intros [i r] Hi.
    apply calls_for_Forall. intros k Hk. apply in_range in Hk.
    one_call. cbn [respects]. unfold sat. cbn [rel lhs rhs eval one_by_one].
    assert (H0 : In (i, k) (all_ops jobs))
      by (apply in_all_ops; exists r; split; [exact Hi|lia]).
    assert (H1 : In (i, (k + 1)%nat) (all_ops jobs))
      by (apply in_all_ops; exists r; split; [exact Hi|lia]).
    destruct (In_nth_error _ _ H0) as [t0 E0].
    destruct (In_nth_error _ _ H1) as [t1 E1].
    rewrite (proj2 (start_in_series_at jobs i k t0 Hn E0)).
    rewrite (proj1 (start_in_series_at jobs i (k + 1) t1 Hn E1)).
    assert (t1 = (t0 + 1)%nat).
    { apply (in_order_consecutive jobs i k t0 t1 Hn);
        unfold stage_in_order; [rewrite E0|rewrite E1];
        rewrite !Nat.eqb_refl; reflexivity. }
    subst t1. apply Qle_refl.
  - unfold Stage1.non_overlap. apply calls_for_Forall. intros m _.
    rewrite non_overlap_on_calls. unfold calls. cbn [fst].
    apply Forall_flat_map, Forall_forall. intros [a b] Hab.
    apply in_unordered_pairs in Hab. cbn [fst snd].
    destruct (in_series_machine_order jobs m a b Hn Hp Hab) as [Hb Hord].
    set (oa := nth a _ _) in *. set (ob := nth b _ _) in *.
    pose proof (completion_in_series_le_total jobs (fst ob) (snd ob) Hn Hp) as Hc.
    destruct ob as [j l]. cbn [fst snd] in *. specialize (Hc Hb).
    pose proof (start_in_series_nonneg jobs (fst oa) (snd oa) Hp) as H0.
    unfold disjunctive_pair. cbn [fst snd].
    repeat constructor; cbn [respects]; unfold sat;
      cbn [rel lhs rhs eval one_by_one]; lra.
  - apply calls_bind_Forall; [|intros _; one_call; exact I].
    unfold Stage1.makespan. apply calls_for_Forall. intros [i r] Hi.
    destruct r as [|o r]; [constructor|]. cbv zeta. one_call.
    cbn [respects]. unfold sat. cbn [rel lhs rhs eval one_by_one].
    apply (completion_in_series_le_total jobs i _ Hn Hp).
    apply in_all_ops. exists (o :: r). split; [exact Hi|simpl; lia].
Qed.

(** With distinct job ids and non-negative durations, the stage 1 model
    has a feasible point as soon as [bigM] is at least the total duration
    of all operations: running the operations one after another, with
    [Cmax] the total duration. *)
Theorem strategyA_large_bigM_feasible
  (jobs : jobdict) (machines : list nat) (bigM : Q) :
  NoDup (map fst jobs) ->
  (forall j r mp, In (j, r) jobs -> In mp r -> 0 <= snd mp) ->
  sum_durations jobs <= bigM ->
  feasible (one_by_one jobs) (calls (Stage1.build jobs machines bigM))
  /\ one_by_one jobs Stage1.Cmax = sum_durations jobs.
Proof.
  intros Hn Hp Hm.
  split; [exact (one_by_one_feasible jobs machines bigM Hn Hp Hm)|reflexivity].
Qed.

Lemma strategyA_large_bigM_feasible_witness :
  feasible (one_by_one Stage1.jobs) Stage1.model
  /\ one_by_one Stage1.jobs Stage1.Cmax = sum_durations Stage1.jobs.
Proof.
  apply (strategyA_large_bigM_feasible Stage1.jobs Stage1.machines Stage1.bigM).
  - repeat constructor; simpl; intuition discriminate.
  - intros j r mp Hr Hmp. unfold Stage1.jobs in Hr. simpl in Hr.
    destruct Hr as [E|[E|[]]]; inversion E; subst; simpl in Hmp;
      destruct Hmp as [<-|[<-|[]]]; simpl; lra.
  - vm_compute. discriminate.
Defined.

(** ** Displaying a feasible point *)

Lemma Qgtb_one v : v == 1 -> Qgtb v (1 # 2) = true.
Proof.
  intros E. unfold Qgtb. destruct (Qle_bool v (1 # 2)) eqn:B; [|reflexivity].
  apply Qle_bool_iff in B. lra.
Qed.

Lemma Qgtb_zero v : v == 0 -> Qgtb v (1 # 2) = false.
Proof.
  intros E. unfold Qgtb.
  assert (B : Qle_bool v (1 # 2) = true) by (apply Qle_bool_iff; lra).
  now rewrite B.
Qed.

(** Of values that are 0 or 1 and add up to one, the display shows one
    entry: the one whose value is 1. *)
Lemma shown_one {A B} (f : A -> Q) (g : A -> list B) (l : list A) (d : A) :
  (forall a, In a l -> f a == 0 \/ f a == 1) -> qsum (map f l) == 1 ->
  In (shown f l d) l /\ f (shown f l d) == 1
  /\ flat_map (fun a => if Qgtb (f a) (1 # 2) then g a else []) l
     = g (shown f l d).
Proof.
  intros Hb Hs.
  destruct (binary_sum_one f l Hb Hs) as [l1 [x [l2 [-> [Ex Hz]]]]].
  assert (Z1 : forall y, In y l1 -> Qgtb (f y) (1 # 2) = false).
  { intros y Hy. apply Qgtb_zero, Hz, in_or_app. now left. }
  assert (Z2 : forall y, In y l2 -> Qgtb (f y) (1 # 2) = false).
  { intros y Hy. apply Qgtb_zero, Hz, in_or_app. now right. }
  assert (Fd : shown f (l1 ++ x :: l2) d = x).
  { unfold shown. clear Hb Hs Hz. induction l1 as [|a l1 IH]; cbn [app find].
    - now rewrite (Qgtb_one _ Ex).
    - rewrite (Z1 a) by now left. apply IH. intros; apply Z1; now right. }
  rewrite Fd. split; [apply in_or_app; right; now left|]. split; [exact Ex|].
  rewrite flat_map_app. cbn [flat_map]. rewrite (Qgtb_one _ Ex).
  assert (N : forall l', (forall y, In y l' -> Qgtb (f y) (1 # 2) = false) ->
            flat_map (fun a => if Qgtb (f a) (1 # 2) then g a else []) l' = []).
  { induction l' as [|a l' IH]; intros H; [reflexivity|]. cbn [flat_map].
    rewrite (H a) by now left. apply IH. intros; apply H; now right. }
  rewrite (N l1 Z1), (N l2 Z2). cbn [app]. now rewrite app_nil_r.
Qed.

(** The result section of stage 2, with the solved values at hand. *)
Lemma report2_lines jobs n (r : solved Stage2.var) rho :
  (forall v, X r v = Some (rho v)) ->
  Stage2.report jobs n r
  = (flat_map (fun jr =>
       flat_map (fun k =>
         flat_map (fun t =>
           ReadX (Stage2.x (fst jr) k t)
           :: (if Qgtb (rho (Stage2.x (fst jr) k t)) (1 # 2)
               then [Print "Job {j} Operation {k} starts at stage {t}, time {t * jobs[j][k][1]}"
                           [Qn (fst jr); Qn k; Qn t;
                            Qn t * snd (nth k (snd jr) (0%nat, 0))]]
               else []))
           (range n))
         (range (length (snd jr))))
       jobs
     ++ [ReadX Stage2.Cmax;
         Print "Optimized makespan: {Cmax.X}" [rho Stage2.Cmax]],
     inr tt).
Proof.
  intros Hx. unfold Stage2.report. unfold jobdict, route, operation in *.
  assert (Hb : forall j rt k t,
    (v <- getX r (Stage2.x j k t) ;;
     when (Qgtb v (1 # 2))
       (print "Job {j} Operation {k} starts at stage {t}, time {t * jobs[j][k][1]}"
              [Qn j; Qn k; Qn t; Qn t * snd (nth k rt (0%nat, 0))]))
    = (ReadX (Stage2.x j k t)
       :: (if Qgtb (rho (Stage2.x j k t)) (1 # 2)
           then [Print "Job {j} Operation {k} starts at stage {t}, time {t * jobs[j][k][1]}"
                       [Qn j; Qn k; Qn t; Qn t * snd (nth k rt (0%nat, 0))]]
           else []),
       inr tt)).
  { intros j rt k t. rewrite (getX_available r rho _ Hx).
    unfold bind, when. destruct (Qgtb _ _); reflexivity. }
  assert (Hl : for_ jobs (fun '(j, rt) =>
      for_ (range (length rt)) (fun k =>
        for_ (range n) (fun t =>
          v <- getX r (Stage2.x j k t) ;;
          when (Qgtb v (1 # 2))
            (print "Job {j} Operation {k} starts at stage {t}, time {t * jobs[j][k][1]}"
                   [Qn j; Qn k; Qn t; Qn t * snd (nth k rt (0%nat, 0))]))))
    = (flat_map (fun jr =>
         flat_map (fun k =>
           flat_map (fun t =>
             ReadX (Stage2.x (fst jr) k t)
             :: (if Qgtb (rho (Stage2.x (fst jr) k t)) (1 # 2)
                 then [Print "Job {j} Operation {k} starts at stage {t}, time {t * jobs[j][k][1]}"
                             [Qn (fst jr); Qn k; Qn t;
                              Qn t * snd (nth k (snd jr) (0%nat, 0))]]
                 else []))
             (range n))
           (range (length (snd jr))))
         jobs, inr tt)).
  { assert (H3 : forall j rt k,
      for_ (range n) (fun t =>
        v <- getX r (Stage2.x j k t) ;;
        when (Qgtb v (1 # 2))
          (print "Job {j} Operation {k} starts at stage {t}, time {t * jobs[j][k][1]}"
                 [Qn j; Qn k; Qn t; Qn t * snd (nth k rt (0%nat, 0))]))
      = (flat_map (fun t =>
           ReadX (Stage2.x j k t)
           :: (if Qgtb (rho (Stage2.x j k t)) (1 # 2)
               then [Print "Job {j} Operation {k} starts at stage {t}, time {t * jobs[j][k][1]}"
                           [Qn j; Qn k; Qn t; Qn t * snd (nth k rt (0%nat, 0))]]
               else [])) (range n), inr tt)).
    { intros j rt k. rewrite for_ok.
      - f_equal. apply flat_map_ext. intros t. now rewrite (Hb j rt k t).
      - intros t _. now rewrite (Hb j rt k t). }
    rewrite for_ok.
    - f_equal. apply flat_map_ext. intros [j rt]. cbn [fst snd].
      rewrite for_ok.
      + unfold calls at 1. cbn [fst]. apply flat_map_ext. intros k.
        now rewrite (H3 j rt k).
      + intros k _. now rewrite (H3 j rt k).
    - intros [j rt] _. apply for_outcome_ok. intros k _.
      now rewrite (H3 j rt k). }
  rewrite (bind_ok _ _ _ tt Hl). rewrite (getX_available r rho _ Hx).
  reflexivity.
Qed.

Lemma shown_stage2 jobs machines n rho j (r : route) k :
  feasible rho (calls (Stage2.build jobs machines n)) ->
  In (j, r) jobs -> (k < length r)%nat ->
  (forall t, In t (range n) ->
     rho (Stage2.x j k t) == 0 \/ rho (Stage2.x j k t) == 1)
  /\ qsum (map (fun t => rho (Stage2.x j k t)) (range n)) == 1.
Proof.
  intros F Hj Hk. split.
  - intros t Ht. apply in_range in Ht.
    exact (x_binary2 jobs machines n rho j r k t F Hj Hk Ht).
  - pose proof (feasible_in _ _ _ _ F (assign_added2 jobs machines n j r k Hj Hk))
      as H.
    cbn [respects] in H. unfold sat in H. cbn [rel lhs rhs] in H.
    rewrite eval_quicksum, map_map in H. exact H.
Qed.

(** When the solver holds a feasible point, the result section of stage 2
    ends normally and prints one line for every operation, job after job
    in route order, at the one stage the operation is placed at, and then
    the makespan line; the time printed on an operation's line is the
    value of its start variable. *)
Theorem strategyB_report_of_feasible
  (jobs : jobdict) (machines : list nat) (num_stages : nat)
  (rho : valuation Stage2.var) (r : solved Stage2.var) :
  feasible rho (calls (Stage2.build jobs machines num_stages)) ->
  (forall v, X r v = Some (rho v)) ->
  let stage j k :=
    shown (fun t => rho (Stage2.x j k t)) (range num_stages) 0%nat in
  outcome (Stage2.report jobs num_stages r) = inr tt
  /\ printed (calls (Stage2.report jobs num_stages r))
     = flat_map (fun jr =>
         map (fun k =>
           ("Job {j} Operation {k} starts at stage {t}, time {t * jobs[j][k][1]}"%string,
            [Qn (fst jr); Qn k; Qn (stage (fst jr) k);
             Qn (stage (fst jr) k) * snd (nth k (snd jr) (0%nat, 0))]))
           (range (length (snd jr)))) jobs
       ++ [("Optimized makespan: {Cmax.X}"%string, [rho Stage2.Cmax])]
  /\ forall j rt k, In (j, rt) jobs -> (k < length rt)%nat ->
       (stage j k < num_stages)%nat
       /\ rho (Stage2.x j k (stage j k)) == 1
       /\ Qn (stage j k) * snd (nth k rt (0%nat, 0)) == rho (Stage2.S j k).
Proof.
  intros F Hx stage. rewrite (report2_lines jobs num_stages r rho Hx).
  split; [reflexivity|]. split.
  - unfold calls. cbn [fst]. rewrite printed_app, printed_flat_map.
    f_equal. apply flat_map_ext_in. intros [j rt] Hj. cbn [fst snd].
    rewrite printed_flat_map, <- flat_map_single.
    apply flat_map_ext_in. intros k Hk. apply in_range in Hk.
    rewrite printed_flat_map.
    destruct (shown_stage2 jobs machines num_stages rho j rt k F Hj Hk)
      as [Hb Hs].
    destruct (shown_one (fun t => rho (Stage2.x j k t))
                (fun t => [("Job {j} Operation {k} starts at stage {t}, time {t * jobs[j][k][1]}"%string,
                            [Qn j; Qn k; Qn t;
                             Qn t * snd (nth k rt (0%nat, 0))])])
                (range num_stages) 0%nat Hb Hs) as [_ [_ E]].
    unfold stage. rewrite <- E. apply flat_map_ext. intros t.
    cbn [printed]. destruct (Qgtb _ _); reflexivity.
  - intros j rt k Hj Hk.
    destruct (shown_stage2 jobs machines num_stages rho j rt k F Hj Hk)
      as [Hb Hs].
    destruct (shown_one (fun t => rho (Stage2.x j k t))
                (fun t => [t]) (range num_stages) 0%nat Hb Hs) as [Hin [E _]].
    apply in_range in Hin. fold (stage j k) in Hin, E.
    split; [exact Hin|]. split; [exact E|].
    destruct (nth k rt (0%nat, 0)) as [m p] eqn:En. cbn [snd].
    symmetry.
    apply (start_value2 jobs machines num_stages rho F j rt k m p (stage j k) Hj);
      [|exact Hin|exact E].
    rewrite (nth_error_nth' rt (0%nat, 0) Hk). now rewrite En.
Qed.

Lemma strategyB_report_of_feasible_witness :
  outcome (Stage2.report Stage2.jobs Stage2.num_stages
             (Solved OPTIMAL (fun v => Some (schedule_B v)) (Some 4)))
  = inr tt.
Proof.
  exact (proj1 (strategyB_report_of_feasible Stage2.jobs Stage2.machines
                  Stage2.num_stages schedule_B
                  (Solved OPTIMAL (fun v => Some (schedule_B v)) (Some 4))
                  schedule_B_feasible (fun v => eq_refl))).
Defined.

Lemma shown_op3 routes rho k :
  feasible rho (calls (Stage3.build routes)) -> (k < count_ops routes)%nat ->
  (forall it, In it (all_ops routes) ->
     rho (Stage3.eta k (fst it) (snd it)) == 0
     \/ rho (Stage3.eta k (fst it) (snd it)) == 1)
  /\ qsum (map (fun it => rho (Stage3.eta k (fst it) (snd it)))
               (all_ops routes)) == 1.
Proof.
  intros F Hk. split.
  - intros [i t] Hit. cbn [fst snd].
    exact (eta_binary3 routes rho F i t k Hit Hk).
  - pose proof (feasible_in _ _ _ _ F (one_per_stage_added3 routes k Hk)) as H.
    cbn [respects] in H. unfold sat in H. cbn [rel lhs rhs] in H.
    rewrite eval_quicksum, map_map in H. rewrite <- H.
    apply qsum_map_eq. intros [i t] _. reflexivity.
Qed.

(** When the solver holds a feasible point, the schedule display of
    stage 3 prints exactly one line per stage, in stage order: the line of
    the one operation placed at that stage. *)
Theorem strategyC_display_of_feasible
  (routes : jobdict) (rho : valuation Stage3.var) (r : solved Stage3.var) :
  feasible rho (calls (Stage3.build routes)) ->
  (forall v, X r v = Some (rho v)) ->
  let op k :=
    shown (fun it => rho (Stage3.eta k (fst it) (snd it))) (all_ops routes)
          (0, 0)%nat in
  printed (calls (Stage3.show_schedule routes r))
  = map (fun k =>
      ("Stage {k+1}: Job {job_id}'s operation {op_index+1} on Machine {machine_id} for {processing_time} units"%string,
       [Qn (k + 1); Qn (fst (op k)); Qn (snd (op k) + 1);
        Qn (fst (op_at routes (fst (op k)) (snd (op k))));
        snd (op_at routes (fst (op k)) (snd (op k)))]))
      (range (count_ops routes))
  /\ forall k, (k < count_ops routes)%nat ->
       In (op k) (all_ops routes)
       /\ rho (Stage3.eta k (fst (op k)) (snd (op k))) == 1.
Proof.
  intros F Hx op. split.
  - rewrite (show_schedule3_lines routes r rho Hx). unfold calls. cbn [fst].
    rewrite printed_flat_map, <- flat_map_single.
    apply flat_map_ext_in. intros k Hk. apply in_range in Hk.
    rewrite printed_flat_map.
    destruct (shown_op3 routes rho k F Hk) as [Hb Hs].
    destruct (shown_one (fun it => rho (Stage3.eta k (fst it) (snd it)))
                (fun it =>
                   [("Stage {k+1}: Job {job_id}'s operation {op_index+1} on Machine {machine_id} for {processing_time} units"%string,
                     [Qn (k + 1); Qn (fst it); Qn (snd it + 1);
                      Qn (fst (op_at routes (fst it) (snd it)));
                      snd (op_at routes (fst it) (snd it))])])
                (all_ops routes) (0, 0)%nat Hb Hs) as [_ [_ E]].
    unfold op. rewrite <- E. apply flat_map_ext. intros it.
    cbn [printed]. destruct (Qgtb _ _); reflexivity.
  - intros k Hk. destruct (shown_op3 routes rho k F Hk) as [Hb Hs].
    destruct (shown_one (fun it => rho (Stage3.eta k (fst it) (snd it)))
                (fun it => [it]) (all_ops routes) (0, 0)%nat Hb Hs)
      as [Hin [E _]].
    split; [exact Hin|exact E].
Qed.

Lemma strategyC_display_of_feasible_witness :
  length (printed (calls (Stage3.show_schedule two_ops
            (Solved OPTIMAL (fun v => Some (schedule_C v)) (Some 1)))))
  = count_ops two_ops.
Proof.
  exact (f_equal (@length _)
           (proj1 (strategyC_display_of_feasible two_ops schedule_C
                     (Solved OPTIMAL (fun v => Some (schedule_C v)) (Some 1))
                     schedule_C_feasible (fun v => eq_refl)))).
Defined.
